(** * Large temp table blocks

    A shallow embedding of [src/ee/storage/LargeTempTableBlock.h] (the block,
    its iterator, pinning) and of the accompanying test program (the
    in-place block sorter and sort-and-repack).  Addresses and offsets are
    machine words kept in [Z], with their wrap-around written out; the heap
    is a total map from addresses to bytes. *)

From Stdlib Require Import ZArith List Bool Lia Permutation Sorted.
From Stdlib.Strings Require Import Byte.
Import ListNotations.
Local Open Scope Z_scope.

(** ** Machine integers *)

Module Word.

(** Two's complement reading of the low [w] bits of [z]. *)
Definition wrap_signed (w z : Z) : Z := (z + 2 ^ (w - 1)) mod 2 ^ w - 2 ^ (w - 1).

(** [int] *)
Definition int (z : Z) : Z := wrap_signed 32 z.

(** [std::ptrdiff_t] on the 64-bit target. *)
Definition ptrdiff (z : Z) : Z := wrap_signed 64 z.

(** A [char] pointer: an address of the 64-bit address space. *)
Definition ptr (z : Z) : Z := z mod 2 ^ 64.

Definition is_ptr (a : Z) : Prop := 0 <= a < 2 ^ 64.

Definition PTRDIFF_MIN : Z := - 2 ^ 63.
Definition PTRDIFF_MAX : Z := 2 ^ 63 - 1.

End Word.

(** ** Schema and block constants *)

(** Modelled from the spec: [TUPLE_HEADER_SIZE] comes from
    [common/tabletuple.h], which is missing from the sources; the tuple is
    "prefixed by a one-byte status header". *)
Definition TUPLE_HEADER_SIZE : Z := 1.

(** Modelled from the spec: [TupleSchema] lives in [common/TupleSchema.h],
    which is missing from the sources.  The block consumes its
    [tupleLength()] and "an enumeration of string-ref offsets within a
    tuple"; the offsets are counted from the first byte of the tuple (its
    status byte). *)
Record TupleSchema : Type := mkSchema {
  tupleLength : Z;
  stringRefOffsets : list Z
}.

Definition BLOCK_SIZE_IN_BYTES : Z := 8 * 1024 * 1024.

(** Modelled from the spec: [TableTuple::tupleLength()]
    ([common/tabletuple.h], missing from the sources) is the schema's inline
    width plus the header, the [L + 1] of the spec. *)
Definition TableTuple_tupleLength (schema : TupleSchema) : Z :=
  tupleLength schema + TUPLE_HEADER_SIZE.

(** ** The block iterator *)

Module LttBlockIterator.

Record t : Type := mk {
  m_tupleLength : Z;
  m_tupleAddress : Z
}.

(** [LttBlockIterator()] *)
Definition default : t := mk 0 0.

(** [LttBlockIterator(schema, storage)] *)
Definition of_schema (schema : TupleSchema) (storage : Z) : t :=
  mk (Word.int (tupleLength schema + TUPLE_HEADER_SIZE)) storage.

(** [LttBlockIterator(tupleLength, storage)] *)
Definition of_length (tupleLength : Z) (storage : Z) : t :=
  mk tupleLength storage.

(** [operator==], [operator!=] *)
Definition eqb (this that : t) : bool :=
  m_tupleAddress this =? m_tupleAddress that.
Definition neqb (this that : t) : bool :=
  negb (m_tupleAddress this =? m_tupleAddress that).

(** [operator*]: the reference to the raw tuple header is its address. *)
Definition deref (this : t) : Z := m_tupleAddress this.

(** [operator++], [operator--] (the value of the iterator afterwards) *)
Definition incr (this : t) : t :=
  mk (m_tupleLength this)
     (Word.ptr (m_tupleAddress this + m_tupleLength this)).
Definition decr (this : t) : t :=
  mk (m_tupleLength this)
     (Word.ptr (m_tupleAddress this - m_tupleLength this)).

(** [operator+=], [operator-=] *)
Definition add_assign (this : t) (n : Z) : t :=
  mk (m_tupleLength this)
     (Word.ptr (m_tupleAddress this + Word.ptrdiff (n * m_tupleLength this))).
Definition sub_assign (this : t) (n : Z) : t :=
  mk (m_tupleLength this)
     (Word.ptr (m_tupleAddress this - Word.ptrdiff (n * m_tupleLength this))).

(** [operator+(difference_type)], [operator-(difference_type)] *)
Definition plus (this : t) (n : Z) : t :=
  let it := this in add_assign it n.
Definition minus (this : t) (n : Z) : t :=
  let it := this in sub_assign it n.

(** [operator-] between two iterators.  The quotient is C++'s truncating
    division; it has no value when the divisor is zero or when the
    quotient overflows. *)
Definition diff (this that : t) : option Z :=
  let ptrdiff := Word.ptrdiff (m_tupleAddress this - m_tupleAddress that) in
  if m_tupleLength this =? 0 then None
  else if (ptrdiff =? Word.PTRDIFF_MIN) && (m_tupleLength this =? -1) then None
  else Some (Z.quot ptrdiff (m_tupleLength this)).

(** [operator[]] *)
Definition index (this : t) (n : Z) : Z :=
  let temp := plus this n in deref temp.

(** relational operators *)
Definition gtb (this that : t) : bool := m_tupleAddress this >? m_tupleAddress that.
Definition ltb (this that : t) : bool := m_tupleAddress this <? m_tupleAddress that.
Definition geb (this that : t) : bool := m_tupleAddress this >=? m_tupleAddress that.
Definition leb (this that : t) : bool := m_tupleAddress this <=? m_tupleAddress that.

(** The iterator that stands [k] tuples after address [base]. *)
Definition at_index (len base k : Z) : t := mk len (base + k * len).

(** An iterator obtained from a block's [begin()] by moving over whole
    tuples inside the block buffer. *)
Definition over_block (len base : Z) (it : t) : Prop :=
  exists k, 0 <= k /\ k * len <= BLOCK_SIZE_IN_BYTES /\ it = at_index len base k.

(** A block buffer of [BLOCK_SIZE_IN_BYTES] bytes lies in the address
    space. *)
Definition buffer_at (base : Z) : Prop :=
  0 <= base /\ base + BLOCK_SIZE_IN_BYTES < 2 ^ 64.

End LttBlockIterator.


(** ** The heap *)

Definition mem : Type := Z -> byte.

(** [::memcpy(dst, src, n)] *)
Definition memcpy (m : mem) (dst src n : Z) : mem :=
  fun a => if (dst <=? a) && (a <? dst + n) then m (src + (a - dst)) else m a.

(** The [n] bytes stored from address [a] on. *)
Definition read_bytes (m : mem) (a : Z) (n : nat) : list byte :=
  map (fun i => m (a + Z.of_nat i)) (seq 0 n).

(** Modelled from the spec: [TableTuple] ([common/tabletuple.h], missing
    from the sources) is a handle made of the address of a tuple's status
    byte and of a schema. *)
Record TableTuple : Type := mkTableTuple {
  tt_address : Z;
  tt_schema : TupleSchema
}.

(** [LargeTempTableBlock::Tuple::toTableTuple] *)
Definition toTableTuple (this : Z) (schema : TupleSchema) : TableTuple :=
  mkTableTuple this schema.

(** A comparator reads the two tuples it is handed, and whatever their
    string refs lead to, from the heap. *)
Definition Compare : Type := mem -> TableTuple -> TableTuple -> bool.

(** ** String refs *)

Definition byte_of_Z (z : Z) : byte :=
  match Byte.of_N (Z.to_N (z mod 256)) with
  | Some b => b
  | None => x00
  end.

Definition Z_of_byte (b : byte) : Z := Z.of_N (Byte.to_N b).

(** Little-endian numbers in bytes. *)
Fixpoint le_decode (l : list byte) : Z :=
  match l with
  | [] => 0
  | b :: l' => Z_of_byte b + 256 * le_decode l'
  end.

Fixpoint le_encode (n : nat) (z : Z) : list byte :=
  match n with
  | O => []
  | S n' => byte_of_Z z :: le_encode n' (z / 256)
  end.

(** Modelled from the spec: a string ref is "a small fixed-width handle
    embedded in a tuple that points to an object in the same block's
    non-inlined region"; its codec belongs to [common/tabletuple.h], which
    is missing from the sources.  Here it is the address of the object, a
    pointer of the 64-bit target in little-endian byte order. *)
Definition STRING_REF_SIZE : nat := 8.

Definition write_bytes (m : mem) (a : Z) (l : list byte) : mem :=
  fun x => if (a <=? x) && (x <? a + Z.of_nat (length l))
           then nth (Z.to_nat (x - a)) l x00 else m x.

Definition load_ref (m : mem) (a : Z) : Z :=
  le_decode (read_bytes m a STRING_REF_SIZE).

Definition store_ref (m : mem) (a v : Z) : mem :=
  write_bytes m a (le_encode STRING_REF_SIZE v).

(** ** The block *)

Module LargeTempTableBlock.

Record t : Type := mk {
  m_id : Z;
  m_schema : TupleSchema;
  m_storage : option Z;
  m_tupleInsertionPoint : Z;
  m_nonInlinedInsertionPoint : Z;
  m_isPinned : bool;
  m_isStored : bool;
  m_activeTupleCount : Z
}.

(** The outcome of a member function guarded by [assert]. *)
Inductive asserted (A : Type) : Type :=
| Returned (a : A)
| AssertionFailed.
Arguments Returned {A} a.
Arguments AssertionFailed {A}.

Definition isPinned (this : t) : bool := m_isPinned this.

Definition set_isPinned (this : t) (v : bool) : t :=
  mk (m_id this) (m_schema this) (m_storage this) (m_tupleInsertionPoint this)
     (m_nonInlinedInsertionPoint this) v (m_isStored this)
     (m_activeTupleCount this).

(** [pin()] *)
Definition pin (this : t) : asserted t :=
  if negb (m_isPinned this) then Returned (set_isPinned this true)
  else AssertionFailed.

(** [unpin()] *)
Definition unpin (this : t) : asserted t :=
  if m_isPinned this then Returned (set_isPinned this false)
  else AssertionFailed.

Definition isResident (this : t) : bool :=
  match m_storage this with Some _ => true | None => false end.

Definition isStored (this : t) : bool := m_isStored this.

Definition activeTupleCount (this : t) : Z := m_activeTupleCount this.

(** [address()]: the null pointer when the block is not resident. *)
Definition address (this : t) : Z :=
  match m_storage this with Some a => a | None => 0 end.

(** [clearForTest()] *)
Definition clearForTest (this : t) : t :=
  mk (m_id this) (m_schema this) (m_storage this) (address this)
     (address this + BLOCK_SIZE_IN_BYTES) (m_isPinned this) (m_isStored this) 0.

Definition set_layout (this : t) (storage : option Z) (tip nip : Z)
    (stored : bool) (count : Z) : t :=
  mk (m_id this) (m_schema this) storage tip nip (m_isPinned this) stored count.

(** Modelled from the spec: [allocate(n)], like the member functions that
    follow, is declared in the header and defined in
    [LargeTempTableBlock.cpp], which is missing from the sources.  It
    "returns a pointer into the block's non-inlined region, advancing
    non_inlined_insertion_point down by n". *)
Definition allocate (this : t) (size : Z) : t * Z :=
  let nip := m_nonInlinedInsertionPoint this - size in
  (set_layout this (m_storage this) (m_tupleInsertionPoint this) nip
              (m_isStored this) (m_activeTupleCount this), nip).

(** Modelled from the spec: the total size [V] of the non-inlined objects of
    a source tuple; [object_size] is the value codec's measure of the
    object at an address. *)
Definition nonInlinedMemorySize (object_size : mem -> Z -> Z) (m : mem)
    (source : TableTuple) : Z :=
  fold_left (fun acc off =>
               acc + object_size m (load_ref m (tt_address source + off)))
            (stringRefOffsets (tt_schema source)) 0.

(** Modelled from the spec, step 2 of the layout algorithm: "for each
    non-inlined column of size v_i: subtract v_i from
    non_inlined_insertion_point; copy the object there; record the new
    local address". *)
Definition copy_object (object_size : mem -> Z -> Z) (source : Z)
    (acc : t * mem * list (Z * Z)) (off : Z) : t * mem * list (Z * Z) :=
  let '(blk, m, refs) := acc in
  let p := load_ref m (source + off) in
  let v := object_size m p in
  let (blk1, q) := allocate blk v in
  (blk1, memcpy m q p v, refs ++ [(off, q)]).

(** Modelled from the spec: [insertTuple], steps 1 to 4 of the layout
    algorithm. *)
Definition insertTuple (object_size : mem -> Z -> Z) (this : t) (m : mem)
    (source : TableTuple) : bool * t * mem :=
  let L1 := TableTuple_tupleLength (m_schema this) in
  let V := nonInlinedMemorySize object_size m source in
  if m_nonInlinedInsertionPoint this - m_tupleInsertionPoint this <? L1 + V
  then (false, this, m)
  else
    let '(blk1, m1, refs) :=
      fold_left (copy_object object_size (tt_address source))
                (stringRefOffsets (tt_schema source)) (this, m, []) in
    let target := m_tupleInsertionPoint this in
    let m2 := memcpy m1 target (tt_address source) L1 in
    let m3 := fold_left (fun m r => store_ref m (target + fst r) (snd r))
                        refs m2 in
    (true,
     set_layout blk1 (m_storage blk1) (target + L1)
                (m_nonInlinedInsertionPoint blk1) (m_isStored blk1)
                (m_activeTupleCount blk1 + 1),
     m3).

(** Modelled from the spec: [releaseData()] "returns ownership of storage;
    sets stored=true, storage absent". *)
Definition releaseData (this : t) : t * option Z :=
  (set_layout this None (m_tupleInsertionPoint this)
              (m_nonInlinedInsertionPoint this) true (m_activeTupleCount this),
   m_storage this).

(** Modelled from the spec: "the delta = new_base - orig_base is added to
    every string ref in every active tuple". *)
Definition relocate_ref (delta : Z) (m : mem) (field : Z) : mem :=
  store_ref m field (load_ref m field + delta).

Definition relocate_tuple (schema : TupleSchema) (delta : Z) (m : mem)
    (tuple : Z) : mem :=
  fold_left (fun m off => relocate_ref delta m (tuple + off))
            (stringRefOffsets schema) m.

Definition relocateNonInlinedFields (this : t) (origAddress : Z) (m : mem) : mem :=
  let delta := address this - origAddress in
  fold_left (fun m k =>
               relocate_tuple (m_schema this) delta m
                 (address this
                  + Z.of_nat k * TableTuple_tupleLength (m_schema this)))
            (seq 0 (Z.to_nat (m_activeTupleCount this))) m.

(** Modelled from the spec: [setData(orig_base, buf)] "installs buf as
    storage and walks every tuple rewriting each string ref by
    (new_base - orig_base)".  The two insertion points are addresses; they
    move with the buffer, so that tuples still "occupy
    [storage, tuple_insertion_point)". *)
Definition setData (this : t) (origAddress storage : Z) (m : mem) : t * mem :=
  let delta := storage - origAddress in
  let this' := set_layout this (Some storage)
                 (m_tupleInsertionPoint this + delta)
                 (m_nonInlinedInsertionPoint this + delta)
                 (m_isStored this) (m_activeTupleCount this) in
  (this', relocateNonInlinedFields this' origAddress m).

(** Modelled from the spec: [copyNonInlinedData(src)] "copies its
    non-inlined region verbatim to the corresponding high bytes of this
    block". *)
Definition copyNonInlinedData (this srcBlock : t) (m : mem) : t * mem :=
  let size := address srcBlock + BLOCK_SIZE_IN_BYTES
              - m_nonInlinedInsertionPoint srcBlock in
  let dst := address this + BLOCK_SIZE_IN_BYTES - size in
  (set_layout this (m_storage this) (m_tupleInsertionPoint this) dst
              (m_isStored this) (m_activeTupleCount this),
   memcpy m dst (m_nonInlinedInsertionPoint srcBlock) size).

(** Modelled from the spec: [insertTupleRelocateNonInlinedFields] "copies
    only the inline body, then rewrites each string ref to point into this
    block as if the source non-inlined region had been copied wholesale at
    the same offsets"; "returns false iff inline region is full". *)
Definition insertTupleRelocateNonInlinedFields (this : t) (m : mem)
    (source : TableTuple) (origAddress : Z) : bool * t * mem :=
  let L1 := TableTuple_tupleLength (m_schema this) in
  if m_nonInlinedInsertionPoint this - m_tupleInsertionPoint this <? L1
  then (false, this, m)
  else
    let target := m_tupleInsertionPoint this in
    let m1 := memcpy m target (tt_address source) L1 in
    let m2 := relocate_tuple (m_schema this) (address this - origAddress)
                             m1 target in
    (true,
     set_layout this (m_storage this) (target + L1)
                (m_nonInlinedInsertionPoint this) (m_isStored this)
                (m_activeTupleCount this + 1),
     m2).

(** Modelled from the spec: [begin()] and [end()] are defined in
    [LargeTempTableBlock.cpp], which is missing from the sources; "tuples
    occupy [storage, tuple_insertion_point)". *)
Definition begin_ (this : t) : LttBlockIterator.t :=
  LttBlockIterator.of_schema (m_schema this) (address this).
Definition end_ (this : t) : LttBlockIterator.t :=
  LttBlockIterator.of_schema (m_schema this) (m_tupleInsertionPoint this).

End LargeTempTableBlock.

(** ** The in-place block sorter *)

Module LTTBlockSorter.

(** The sorter: its schema, its scratch tuple (a handle on the buffer of a
    [StandAloneTupleStorage]) and its comparator. *)
Record t : Type := mk {
  m_schema : TupleSchema;
  m_tempTuple : TableTuple;
  m_compare : Compare
}.

(** The machine the sorter runs on: the heap, and two counters that record
    how often the comparator and [swap] have been called. *)
Record machine : Type := mkMachine {
  heap : mem;
  compare_calls : nat;
  swap_calls : nat
}.

Definition start (m : mem) : machine := mkMachine m 0 0.

Section Sorter.

Variable this : t.

(** [m_compare(a->toTableTuple(m_schema), b->toTableTuple(m_schema))] *)
Definition compare (st : machine) (a b : Z) : bool * machine :=
  (m_compare this (heap st) (toTableTuple a (m_schema this))
                            (toTableTuple b (m_schema this)),
   mkMachine (heap st) (S (compare_calls st)) (swap_calls st)).

(** [swap(t0, t1)] *)
Definition swap (st : machine) (t0 t1 : Z) : machine :=
  if negb (t0 =? t1) then
    let tupleLength := TableTuple_tupleLength (tt_schema (m_tempTuple this)) in
    let tempBuffer := tt_address (m_tempTuple this) in
    let buf0 := t0 in
    let buf1 := t1 in
    let h1 := memcpy (heap st) tempBuffer buf0 tupleLength in
    let h2 := memcpy h1 buf0 buf1 tupleLength in
    let h3 := memcpy h2 buf1 tempBuffer tupleLength in
    mkMachine h3 (compare_calls st) (S (swap_calls st))
  else mkMachine (heap st) (compare_calls st) (S (swap_calls st)).

(** The inner [while (j > 0 && m_compare(beginIt[j], beginIt[j - 1]))] loop
    of [insertionSort]; [j] counts down, so the loop is a recursion on it. *)
Fixpoint insertionSort_while (beginIt : LttBlockIterator.t) (j : nat)
    (st : machine) : machine :=
  match j with
  | O => st
  | S j' =>
      let (c, st1) := compare st (LttBlockIterator.index beginIt (Z.of_nat j))
                                 (LttBlockIterator.index beginIt (Z.of_nat j - 1)) in
      if c then
        insertionSort_while beginIt j'
          (swap st1 (LttBlockIterator.index beginIt (Z.of_nat j - 1))
                    (LttBlockIterator.index beginIt (Z.of_nat j)))
      else st1
  end.

(** [insertionSort<N>(beginIt)] *)
Definition insertionSort (N : nat) (beginIt : LttBlockIterator.t)
    (st : machine) : machine :=
  fold_left (fun st i => insertionSort_while beginIt i st) (seq 0 N) st.

(** One round of the partition loop, at index [j]; [i] is the index of the
    last less-than-pivot element. *)
Definition partition_step (beginIt pivot : LttBlockIterator.t)
    (acc : machine * Z) (j : Z) : machine * Z :=
  let (st, i) := acc in
  let it := LttBlockIterator.plus beginIt j in
  let (c, st1) := compare st (LttBlockIterator.deref it)
                             (LttBlockIterator.deref pivot) in
  if c then
    let i := i + 1 in
    (swap st1 (LttBlockIterator.deref it) (LttBlockIterator.index beginIt i), i)
  else (st1, i).

(** [for (difference_type j = 0; j < numElems - 1; ++j)] *)
Definition partition_loop (beginIt pivot : LttBlockIterator.t) (numElems : Z)
    (st : machine) : machine * Z :=
  fold_left (partition_step beginIt pivot)
            (map Z.of_nat (seq 0 (Z.to_nat (numElems - 1)))) (st, -1).

(** Everything in the body of [while (true)] up to the choice of the side to
    recurse on: the partition and the placement of the pivot.  Returns the
    machine and the iterator [pivot = beginIt + i]. *)
Definition partition (beginIt endIt : LttBlockIterator.t) (numElems : Z)
    (st : machine) : machine * LttBlockIterator.t :=
  let pivot := LttBlockIterator.minus endIt 1 in
  let (st1, i) := partition_loop beginIt pivot numElems st in
  let i := i + 1 in
  let (c, st2) := compare st1 (LttBlockIterator.deref pivot)
                              (LttBlockIterator.index beginIt i) in
  let st3 := if c then swap st2 (LttBlockIterator.deref pivot)
                                (LttBlockIterator.index beginIt i)
             else st2 in
  (st3, LttBlockIterator.plus beginIt i).

(** [sort(beginIt, endIt)].  Each turn of [while (true)] and each recursive
    call takes one unit of fuel; [None] stands for a run that has not
    returned within the fuel, or that divides by zero in [endIt - beginIt]. *)
Fixpoint sort (fuel : nat) (beginIt endIt : LttBlockIterator.t)
    (st : machine) : option machine :=
  match fuel with
  | O => None
  | S fuel' =>
      match LttBlockIterator.diff endIt beginIt with
      | None => None
      | Some numElems =>
          if (numElems =? 0) || (numElems =? 1) then Some st
          else if numElems =? 2 then Some (insertionSort 2 beginIt st)
          else if numElems =? 3 then Some (insertionSort 3 beginIt st)
          else if numElems =? 4 then Some (insertionSort 4 beginIt st)
          else
            let (st1, pivot) := partition beginIt endIt numElems st in
            match LttBlockIterator.diff pivot beginIt,
                  LttBlockIterator.diff endIt (LttBlockIterator.plus pivot 1) with
            | Some l, Some r =>
                if l >? r then
                  match sort fuel' (LttBlockIterator.plus pivot 1) endIt st1 with
                  | Some st2 => sort fuel' beginIt pivot st2
                  | None => None
                  end
                else
                  match sort fuel' beginIt pivot st1 with
                  | Some st2 => sort fuel' (LttBlockIterator.plus pivot 1) endIt st2
                  | None => None
                  end
            | _, _ => None
            end
      end
  end.

End Sorter.

End LTTBlockSorter.

(** ** Tuples as values *)

(** The raw bytes of the tuple at address [a]. *)
Definition tuple_at (len : nat) (m : mem) (a : Z) : list byte :=
  read_bytes m a len.

(** The [n] tuples of [len] bytes each that start at address [a]. *)
Definition tuples (len : nat) (m : mem) (a : Z) (n : nat) : list (list byte) :=
  map (fun k => tuple_at len m (a + Z.of_nat k * Z.of_nat len)) (seq 0 n).

(** ** Sort and repack *)

(** [BOOST_FOREACH (auto& tuple, block)]: the addresses of the tuples met
    from [it] up to [end], at most [fuel] of them. *)
Fixpoint foreach_tuple (fuel : nat) (it end_ : LttBlockIterator.t) : list Z :=
  match fuel with
  | O => []
  | S fuel' =>
      if LttBlockIterator.neqb it end_
      then LttBlockIterator.deref it
           :: foreach_tuple fuel' (LttBlockIterator.incr it) end_
      else []
  end.

(** A stable insertion sort, which is what a general library sort does on
    short ranges. *)
Fixpoint sorted_insert {A : Type} (lt : A -> A -> bool) (x : A) (l : list A)
  : list A :=
  match l with
  | [] => [x]
  | y :: l' => if lt y x then y :: sorted_insert lt x l' else x :: l
  end.

Definition insertion_sort {A : Type} (lt : A -> A -> bool) (l : list A) : list A :=
  fold_right (sorted_insert lt) [] l.

(** One turn of the loop that fills the output block; [None] stands for a
    failed [ASSERT_TRUE(success)]. *)
Definition repack_step (origAddress : Z)
    (acc : option (LargeTempTableBlock.t * mem)) (tuple : TableTuple)
  : option (LargeTempTableBlock.t * mem) :=
  match acc with
  | None => None
  | Some (out, m) =>
      let '(success, out', m') :=
        LargeTempTableBlock.insertTupleRelocateNonInlinedFields
          out m tuple origAddress in
      if success then Some (out', m') else None
  end.

(** The body of the test [sortTuplesStdSort]: collect the handles of the
    input block, sort them with the library sort [std_sort] under the
    comparator, copy the non-inlined data as it is, and insert the tuples
    in sorted order into the output block. *)
Definition sortTuplesStdSort
    (std_sort : (TableTuple -> TableTuple -> bool) -> list TableTuple -> list TableTuple)
    (compare : Compare) (schema : TupleSchema) (fuel : nat)
    (blockInput blockOutput : LargeTempTableBlock.t) (m : mem)
  : option (LargeTempTableBlock.t * mem) :=
  let ttVector :=
    map (fun tuple => toTableTuple tuple schema)
        (foreach_tuple fuel (LargeTempTableBlock.begin_ blockInput)
                       (LargeTempTableBlock.end_ blockInput)) in
  let ttVector := std_sort (compare m) ttVector in
  let (out, m1) := LargeTempTableBlock.copyNonInlinedData blockOutput blockInput m in
  fold_left (repack_step (LargeTempTableBlock.address blockInput))
            ttVector (Some (out, m1)).


(** ** A small block *)

(** A block of five tuples over a schema with one string-ref column (at
    offset 1, after the status byte) and one inline byte.  Each string ref
    leads to a one-byte object in the non-inlined region; the comparator
    compares these objects, as [FirstFieldComparator] compares column 0. *)
Module Demo.

Definition schema : TupleSchema := mkSchema 9 [1].

Definition base : Z := 4096.

Definition scratch : Z := 1024.

Definition block_end : Z := base + BLOCK_SIZE_IN_BYTES.

(** The keys of the five tuples; three of them are equal. *)
Definition keys : list Z := [2; 2; 1; 3; 2].

(** Five keys that are all different. *)
Definition distinct_keys : list Z := [2; 5; 1; 3; 4].

Definition tuple_bytes (k : nat) : list byte :=
  [x01] ++ le_encode 8 (block_end - 1 - Z.of_nat k) ++ [byte_of_Z (Z.of_nat k)].

Definition inline_bytes : list byte := flat_map tuple_bytes (seq 0 5).

Definition object_bytes (ks : list Z) : list byte := map byte_of_Z (rev ks).

(** The heap that holds the five tuples and, at the end of the block
    buffer, the one-byte objects [ks] their string refs lead to. *)
Definition heap_of (ks : list Z) : mem :=
  fun a =>
    if (base <=? a) && (a <? base + 50)
    then nth (Z.to_nat (a - base)) inline_bytes x00
    else if (block_end - 5 <=? a) && (a <? block_end)
    then nth (Z.to_nat (a - (block_end - 5))) (object_bytes ks) x00
    else x00.

Definition heap0 : mem := heap_of keys.

Definition heap1 : mem := heap_of distinct_keys.

Definition block : LargeTempTableBlock.t :=
  LargeTempTableBlock.mk 0 schema (Some base) (base + 50) (block_end - 5)
                         true false 5.

Definition first_field : Compare :=
  fun m t0 t1 =>
    Z_of_byte (m (load_ref m (tt_address t0 + 1)))
    <? Z_of_byte (m (load_ref m (tt_address t1 + 1))).

Definition sorter : LTTBlockSorter.t :=
  LTTBlockSorter.mk schema (mkTableTuple scratch schema) first_field.

(** The key of a tuple value: the object its string ref leads to in heap
    [m0]. *)
Definition key_in (m0 : mem) (t : list byte) : Z :=
  Z_of_byte (m0 (le_decode (firstn 8 (skipn 1 t)))).

Definition lt_in (m0 : mem) (t0 t1 : list byte) : bool :=
  key_in m0 t0 <? key_in m0 t1.

Definition key : list byte -> Z := key_in heap0.

Definition lt : list byte -> list byte -> bool := lt_in heap0.

(** Where the buffer lands when the block is loaded again. *)
Definition new_base : Z := 16777216.

Definition moved_heap : mem := fun a => heap0 (a - (new_base - base)).

(** An empty block at [new_base], the output of sort-and-repack. *)
Definition output : LargeTempTableBlock.t :=
  LargeTempTableBlock.mk 1 schema (Some new_base) new_base
                         (new_base + BLOCK_SIZE_IN_BYTES) true false 0.

End Demo.

(** ** Vocabulary of the specifications *)

(** Address [x] lies in the [n] bytes from [a] on. *)
Definition in_range (a n x : Z) : Prop := a <= x < a + n.

(** The byte ranges [a, a + n) and [b, b + k) do not meet. *)
Definition disjoint_ranges (a n b k : Z) : Prop := a + n <= b \/ b + k <= a.

(** A strict weak ordering: irreflexive, transitive, and with a transitive
    incomparability relation. *)
Definition StrictWeakOrder {A : Type} (lt : A -> A -> bool) : Prop :=
  (forall a, lt a a = false) /\
  (forall a b c, lt a b = true -> lt b c = true -> lt a c = true) /\
  (forall a b c, lt a b = false -> lt b a = false ->
                 lt b c = false -> lt c b = false ->
                 lt a c = false /\ lt c a = false).

(** The comparator [cmp] computes the relation [lt] on tuple values: on
    every heap that still holds the bytes of [m0] at the addresses in
    [fixed] (the objects string refs lead to), and for tuples among the
    admissible ones [adm], comparing the tuples at two addresses is
    comparing the bytes found there. *)
Definition comparator_of (cmp : Compare) (schema : TupleSchema) (len : nat)
    (lt : list byte -> list byte -> bool) (m0 : mem)
    (fixed : Z -> Prop) (adm : list byte -> Prop) : Prop :=
  forall m a b,
    (forall x, fixed x -> m x = m0 x) ->
    adm (tuple_at len m a) -> adm (tuple_at len m b) ->
    cmp m (toTableTuple a schema) (toTableTuple b schema)
    = lt (tuple_at len m a) (tuple_at len m b).

(** Consecutive tuples of the [n] tuples at [b] are in order for [lt]: no
    tuple is less than its predecessor. *)
Definition sorted_tuples (len : nat) (lt : list byte -> list byte -> bool)
    (m : mem) (b n : Z) : Prop :=
  forall k, 0 <= k -> k + 1 < n ->
    lt (tuple_at len m (b + (k + 1) * Z.of_nat len))
       (tuple_at len m (b + k * Z.of_nat len)) = false.

(** The range of [n] tuples at [b] and the sorter's scratch buffer at [tmp]
    are apart, inside the address space, and no larger than a block. *)
Definition region_ok (len : nat) (tmp b n : Z) : Prop :=
  0 <= n /\ 0 <= b /\ b + n * Z.of_nat len < 2 ^ 64 /\
  n * Z.of_nat len <= BLOCK_SIZE_IN_BYTES /\
  disjoint_ranges b (n * Z.of_nat len) tmp (Z.of_nat len).

(** Heap [m'] is a rearrangement of the [n] tuples that heap [m] holds at
    [b]: the two heaps agree outside the tuples and the scratch buffer, and
    the tuples of [m'] are a permutation of those of [m]. *)
Definition rearranged (len : nat) (tmp b n : Z) (m m' : mem) : Prop :=
  (forall x, ~ in_range b (n * Z.of_nat len) x ->
             ~ in_range tmp (Z.of_nat len) x -> m' x = m x) /\
  Permutation (tuples len m' b (Z.to_nat n)) (tuples len m b (Z.to_nat n)).

(** No address of [fixed] lies in the [n] tuples at [b] or in the scratch
    buffer. *)
Definition fixed_apart (len : nat) (tmp b n : Z) (fixed : Z -> Prop) : Prop :=
  forall x, fixed x ->
    ~ in_range b (n * Z.of_nat len) x /\ ~ in_range tmp (Z.of_nat len) x.

(** Heap [m] holds the bytes of [m0] at the addresses in [fixed], and its
    [n] tuples at [b] are admissible. *)
Definition valid_heap (len : nat) (m0 : mem) (fixed : Z -> Prop)
    (adm : list byte -> Prop) (m : mem) (b n : Z) : Prop :=
  (forall x, fixed x -> m x = m0 x) /\
  Forall adm (tuples len m b (Z.to_nat n)).

(** The sorter's comparator computes the strict weak ordering [lt]. *)
Definition compares_by (this : LTTBlockSorter.t) (len : nat)
    (lt : list byte -> list byte -> bool) (m0 : mem)
    (fixed : Z -> Prop) (adm : list byte -> Prop) : Prop :=
  comparator_of (LTTBlockSorter.m_compare this) (LTTBlockSorter.m_schema this)
                len lt m0 fixed adm /\
  StrictWeakOrder lt.

(** What the ordering results assume of a run of the sorter on the [n]
    tuples at [b], started from machine [st]. *)
Definition sort_guard (this : LTTBlockSorter.t) (len : nat) (tmp : Z)
    (lt : list byte -> list byte -> bool) (m0 : mem)
    (fixed : Z -> Prop) (adm : list byte -> Prop)
    (b n : Z) (st : LTTBlockSorter.machine) : Prop :=
  compares_by this len lt m0 fixed adm /\
  fixed_apart len tmp b n fixed /\
  valid_heap len m0 fixed adm (LTTBlockSorter.heap st) b n.

(** ** Blocks in the heap *)

(** The block is resident at [base] and satisfies the layout invariants:
    its buffer lies in the address space, its tuples have a positive length
    no larger than a block and fill [base, m_tupleInsertionPoint), and the
    two insertion points have not crossed. *)
Definition block_invariant (blk : LargeTempTableBlock.t) (base : Z) : Prop :=
  LargeTempTableBlock.m_storage blk = Some base /\
  LttBlockIterator.buffer_at base /\
  0 < TableTuple_tupleLength (LargeTempTableBlock.m_schema blk)
  <= BLOCK_SIZE_IN_BYTES /\
  0 <= LargeTempTableBlock.m_activeTupleCount blk /\
  LargeTempTableBlock.m_tupleInsertionPoint blk
  = base + LargeTempTableBlock.m_activeTupleCount blk
           * TableTuple_tupleLength (LargeTempTableBlock.m_schema blk) /\
  LargeTempTableBlock.m_tupleInsertionPoint blk
  <= LargeTempTableBlock.m_nonInlinedInsertionPoint blk /\
  LargeTempTableBlock.m_nonInlinedInsertionPoint blk
  <= base + BLOCK_SIZE_IN_BYTES.

(** The sorter was built for the block's schema, as
    [LTTBlockSorter(schema, compare)] does, and its scratch buffer is an
    allocation of its own, apart from the block's buffer. *)
Definition sorter_for (this : LTTBlockSorter.t) (blk : LargeTempTableBlock.t)
    (base : Z) : Prop :=
  LTTBlockSorter.m_schema this = LargeTempTableBlock.m_schema blk /\
  tt_schema (LTTBlockSorter.m_tempTuple this) = LTTBlockSorter.m_schema this /\
  disjoint_ranges base BLOCK_SIZE_IN_BYTES
                  (tt_address (LTTBlockSorter.m_tempTuple this))
                  (TableTuple_tupleLength (LTTBlockSorter.m_schema this)).

(** The block's non-inlined region. *)
Definition non_inlined_region (blk : LargeTempTableBlock.t) (base x : Z) : Prop :=
  LargeTempTableBlock.m_nonInlinedInsertionPoint blk <= x
  < base + BLOCK_SIZE_IN_BYTES.

(** The tuples a walk from [begin()] to [end()] visits, as values. *)
Definition block_tuples (blk : LargeTempTableBlock.t) (m : mem) : list (list byte) :=
  tuples (Z.to_nat (TableTuple_tupleLength (LargeTempTableBlock.m_schema blk)))
         m (LargeTempTableBlock.address blk)
         (Z.to_nat (LargeTempTableBlock.m_activeTupleCount blk)).

(** The address of [block[i]], that is of [begin()[i]]. *)
Definition block_at (blk : LargeTempTableBlock.t) (i : Z) : Z :=
  LttBlockIterator.index (LargeTempTableBlock.begin_ blk) i.

(** The sorter's comparator computes the strict weak ordering [lt] on the
    tuples of the block as heap [m] holds them. *)
Definition block_comparator (this : LTTBlockSorter.t)
    (blk : LargeTempTableBlock.t) (base : Z) (m : mem)
    (lt : list byte -> list byte -> bool) : Prop :=
  compares_by this
    (Z.to_nat (TableTuple_tupleLength (LargeTempTableBlock.m_schema blk)))
    lt m (non_inlined_region blk base)
    (fun t => In t (block_tuples blk m)).

(** ** String refs of a block *)

(** String-ref fields do not overlap. *)
Fixpoint offsets_apart (os : list Z) : Prop :=
  match os with
  | [] => True
  | o :: os' =>
      (forall o', In o' os' ->
         o + Z.of_nat STRING_REF_SIZE <= o' \/ o' + Z.of_nat STRING_REF_SIZE <= o)
      /\ offsets_apart os'
  end.

(** The string-ref fields of a schema lie inside the tuple, after the
    status byte, and do not overlap. *)
Definition schema_ok (schema : TupleSchema) : Prop :=
  (forall off, In off (stringRefOffsets schema) ->
     TUPLE_HEADER_SIZE <= off /\
     off + Z.of_nat STRING_REF_SIZE <= TableTuple_tupleLength schema) /\
  offsets_apart (stringRefOffsets schema).

(** "Every string-ref inside a tuple, when dereferenced, points into this
    block's own non-inlined region." *)
Definition refs_in_block (blk : LargeTempTableBlock.t) (base : Z) (m : mem) : Prop :=
  forall k off,
    0 <= k < LargeTempTableBlock.m_activeTupleCount blk ->
    In off (stringRefOffsets (LargeTempTableBlock.m_schema blk)) ->
    non_inlined_region blk base
      (load_ref m (base + k * TableTuple_tupleLength (LargeTempTableBlock.m_schema blk)
                   + off)).

(** Byte [x] of the block buffer (an offset from its base) belongs to a
    string-ref field of an active tuple. *)
Definition is_ref_byte (blk : LargeTempTableBlock.t) (x : Z) : Prop :=
  exists k off,
    0 <= k < LargeTempTableBlock.m_activeTupleCount blk /\
    In off (stringRefOffsets (LargeTempTableBlock.m_schema blk)) /\
    in_range (k * TableTuple_tupleLength (LargeTempTableBlock.m_schema blk) + off)
             (Z.of_nat STRING_REF_SIZE) x.

(** The object a string ref leads to: the bytes from its first byte to the
    end of the block buffer, which hold it whatever its codec. *)
Definition object_at (blk : LargeTempTableBlock.t) (m : mem) (p : Z) : list byte :=
  read_bytes m p
    (Z.to_nat (LargeTempTableBlock.address blk + BLOCK_SIZE_IN_BYTES - p)).

(** What a reader of tuple [k] of the block observes: the inline bytes that
    are not part of a string ref, and for each string-ref column the
    object read through the ref. *)
Definition inline_columns (blk : LargeTempTableBlock.t) (m : mem) (k : Z)
  : list (option byte) :=
  map (fun i =>
         if existsb (fun off => (off <=? i) && (i <? off + Z.of_nat STRING_REF_SIZE))
                    (stringRefOffsets (LargeTempTableBlock.m_schema blk))
         then None
         else Some (m (block_at blk k + i)))
      (map Z.of_nat
           (seq 0 (Z.to_nat (TableTuple_tupleLength
                               (LargeTempTableBlock.m_schema blk))))).

Definition string_columns (blk : LargeTempTableBlock.t) (m : mem) (k : Z)
  : list (list byte) :=
  map (fun off => object_at blk m (load_ref m (block_at blk k + off)))
      (stringRefOffsets (LargeTempTableBlock.m_schema blk)).

Definition observable (blk : LargeTempTableBlock.t) (m : mem) (k : Z)
  : list (option byte) * list (list byte) :=
  (inline_columns blk m k, string_columns blk m k).

(** The rows of a block, as a reader observes them from [begin()] to
    [end()]. *)
Definition block_rows (blk : LargeTempTableBlock.t) (m : mem)
  : list (list (option byte) * list (list byte)) :=
  map (fun k => observable blk m (Z.of_nat k))
      (seq 0 (Z.to_nat (LargeTempTableBlock.m_activeTupleCount blk))).

(** ** The two ways to sort a block *)

(** [lt] is a strict weak ordering of the elements of [l]. *)
Definition swo_on {A : Type} (l : list A) (lt : A -> A -> bool) : Prop :=
  (forall a, In a l -> lt a a = false) /\
  (forall a b c, In a l -> In b l -> In c l ->
     lt a b = true -> lt b c = true -> lt a c = true) /\
  (forall a b c, In a l -> In b l -> In c l ->
     lt a b = false -> lt b a = false -> lt b c = false -> lt c b = false ->
     lt a c = false /\ lt c a = false).

(** The contract of a general sort such as [std::sort]: given a comparator
    that is a strict weak ordering of the elements, the result is a
    permutation of the input in which no element is less than its
    predecessor.  The order of equivalent elements is not specified. *)
Definition general_sort {A : Type}
    (std_sort : (A -> A -> bool) -> list A -> list A) : Prop :=
  forall lt l,
    swo_on l lt ->
    Permutation (std_sort lt l) l /\
    Sorted (fun a b => lt b a = false) (std_sort lt l).

(** The rows of the block after the in-place sort. *)
Definition in_place_rows (this : LTTBlockSorter.t) (fuel : nat)
    (blk : LargeTempTableBlock.t) (m : mem)
  : option (list (list (option byte) * list (list byte))) :=
  option_map (fun st => block_rows blk (LTTBlockSorter.heap st))
    (LTTBlockSorter.sort this fuel (LargeTempTableBlock.begin_ blk)
       (LargeTempTableBlock.end_ blk) (LTTBlockSorter.start m)).

(** The rows of the output block after sort-and-repack. *)
Definition repack_rows
    (std_sort : (TableTuple -> TableTuple -> bool) -> list TableTuple -> list TableTuple)
    (this : LTTBlockSorter.t) (fuel : nat)
    (blockInput blockOutput : LargeTempTableBlock.t) (m : mem)
  : option (list (list (option byte) * list (list byte))) :=
  option_map (fun r => block_rows (fst r) (snd r))
    (sortTuplesStdSort std_sort (LTTBlockSorter.m_compare this)
       (LTTBlockSorter.m_schema this) fuel blockInput blockOutput m).

(** The output block of sort-and-repack: empty, resident at [outb], of the
    schema of the input block, its buffer apart from the input block's. *)
Definition output_for (blockOutput blockInput : LargeTempTableBlock.t)
    (outb inb : Z) : Prop :=
  block_invariant blockOutput outb /\
  LargeTempTableBlock.m_activeTupleCount blockOutput = 0 /\
  LargeTempTableBlock.m_nonInlinedInsertionPoint blockOutput
  = outb + BLOCK_SIZE_IN_BYTES /\
  LargeTempTableBlock.m_schema blockOutput = LargeTempTableBlock.m_schema blockInput /\
  disjoint_ranges inb BLOCK_SIZE_IN_BYTES outb BLOCK_SIZE_IN_BYTES.

(** No two distinct tuples of the block are equivalent for [lt]. *)
Definition no_ties (blk : LargeTempTableBlock.t) (m : mem)
    (lt : list byte -> list byte -> bool) : Prop :=
  forall a b, In a (block_tuples blk m) -> In b (block_tuples blk m) ->
    lt a b = false -> lt b a = false -> a = b.

(** The row a reader observes of a tuple value [t] whose string refs lead
    into block [blk] in heap [m]. *)
Definition row_of_value (blk : LargeTempTableBlock.t) (m : mem) (t : list byte)
  : list (option byte) * list (list byte) :=
  (map (fun i =>
          if existsb (fun off => (off <=? i) && (i <? off + Z.of_nat STRING_REF_SIZE))
                     (stringRefOffsets (LargeTempTableBlock.m_schema blk))
          then None
          else Some (nth (Z.to_nat i) t x00))
       (map Z.of_nat
            (seq 0 (Z.to_nat (TableTuple_tupleLength
                                (LargeTempTableBlock.m_schema blk))))),
   map (fun off =>
          object_at blk m
            (le_decode (firstn STRING_REF_SIZE (skipn (Z.to_nat off) t))))
       (stringRefOffsets (LargeTempTableBlock.m_schema blk))).

(** The output block of sort-and-repack after [j] insertions. *)
Definition repack_block (blkIn blkOut : LargeTempTableBlock.t) (inb outb j : Z)
  : LargeTempTableBlock.t :=
  LargeTempTableBlock.mk (LargeTempTableBlock.m_id blkOut)
    (LargeTempTableBlock.m_schema blkIn) (Some outb)
    (outb + j * TableTuple_tupleLength (LargeTempTableBlock.m_schema blkIn))
    (outb + (LargeTempTableBlock.m_nonInlinedInsertionPoint blkIn - inb))
    (LargeTempTableBlock.m_isPinned blkOut)
    (LargeTempTableBlock.m_isStored blkOut) j.

(** Tuple [k] of the output block in heap [mf] is a copy of the tuple at
    address [h] in heap [m], its string refs moved by the distance between
    the two buffers. *)
Definition repacked (blkIn : LargeTempTableBlock.t) (inb outb : Z) (m : mem)
    (k h : Z) (mf : mem) : Prop :=
  (forall off, In off (stringRefOffsets (LargeTempTableBlock.m_schema blkIn)) ->
     load_ref mf (outb + k * TableTuple_tupleLength (LargeTempTableBlock.m_schema blkIn)
                  + off)
     = load_ref m (h + off) + (outb - inb)) /\
  (forall y, 0 <= y < TableTuple_tupleLength (LargeTempTableBlock.m_schema blkIn) ->
     (forall off, In off (stringRefOffsets (LargeTempTableBlock.m_schema blkIn)) ->
        ~ in_range off (Z.of_nat STRING_REF_SIZE) y) ->
     mf (outb + k * TableTuple_tupleLength (LargeTempTableBlock.m_schema blkIn) + y)
     = m (h + y)).

(** ** More of the iterator, the block and the sorter *)

(** [operator++(int)] and [operator--(int)]: the value returned, and the
    iterator afterwards. *)
Definition post_increment (this : LttBlockIterator.t)
  : LttBlockIterator.t * LttBlockIterator.t :=
  let orig := this in (orig, LttBlockIterator.incr this).

Definition post_decrement (this : LttBlockIterator.t)
  : LttBlockIterator.t * LttBlockIterator.t :=
  let orig := this in (orig, LttBlockIterator.decr this).

(** The non-member [operator+(n, it)]. *)
Definition plus_left (n : Z) (it : LttBlockIterator.t) : LttBlockIterator.t :=
  LttBlockIterator.plus it n.

(** [unusedTupleBoundary()]: the tuple count, returned as [uint32_t]. *)
Definition unusedTupleBoundary (this : LargeTempTableBlock.t) : Z :=
  LargeTempTableBlock.m_activeTupleCount this mod 2 ^ 32.

(** [sort] again, with the call stack made explicit: a recursive call
    takes one of the [depth] frames that are left, a turn of
    [while (true)] takes none; [None] also stands for a run that needs
    more frames than there are. *)
Fixpoint sort_with_stack (this : LTTBlockSorter.t) (fuel depth : nat)
    (beginIt endIt : LttBlockIterator.t) (st : LTTBlockSorter.machine)
  : option LTTBlockSorter.machine :=
  match fuel with
  | O => None
  | S fuel' =>
      match LttBlockIterator.diff endIt beginIt with
      | None => None
      | Some numElems =>
          if (numElems =? 0) || (numElems =? 1) then Some st
          else if numElems =? 2
          then Some (LTTBlockSorter.insertionSort this 2 beginIt st)
          else if numElems =? 3
          then Some (LTTBlockSorter.insertionSort this 3 beginIt st)
          else if numElems =? 4
          then Some (LTTBlockSorter.insertionSort this 4 beginIt st)
          else
            let (st1, pivot) :=
              LTTBlockSorter.partition this beginIt endIt numElems st in
            match LttBlockIterator.diff pivot beginIt,
                  LttBlockIterator.diff endIt (LttBlockIterator.plus pivot 1) with
            | Some l, Some r =>
                match depth with
                | O => None
                | S depth' =>
                    if l >? r then
                      match sort_with_stack this fuel' depth'
                              (LttBlockIterator.plus pivot 1) endIt st1 with
                      | Some st2 =>
                          sort_with_stack this fuel' depth beginIt pivot st2
                      | None => None
                      end
                    else
                      match sort_with_stack this fuel' depth' beginIt pivot st1 with
                      | Some st2 =>
                          sort_with_stack this fuel' depth
                            (LttBlockIterator.plus pivot 1) endIt st2
                      | None => None
                      end
                end
            | _, _ => None
            end
      end
  end.

(** Between machine [st] and the later machine [st'] the comparator was
    called at most [k] times, and [swap] no more often than the
    comparator. *)
Definition spent (st st' : LTTBlockSorter.machine) (k : nat) : Prop :=
  (LTTBlockSorter.compare_calls st <= LTTBlockSorter.compare_calls st'
   <= LTTBlockSorter.compare_calls st + k)%nat /\
  (LTTBlockSorter.swap_calls st <= LTTBlockSorter.swap_calls st')%nat /\
  (LTTBlockSorter.swap_calls st' + LTTBlockSorter.compare_calls st
   <= LTTBlockSorter.compare_calls st' + LTTBlockSorter.swap_calls st)%nat.

(** [LttSortRun], as far as its comparator reads it: the current tuple of
    the run. *)
Record LttSortRun : Type := mkLttSortRun { m_curTuple : TableTuple }.

(** [currentTuple()] *)
Definition currentTuple (run : LttSortRun) : TableTuple := m_curTuple run.

(** [LttSortRunComparator::operator()], the ordering given to the priority
    queue of runs. *)
Definition LttSortRunComparator (m_tupleComparator : Compare) (m : mem)
    (run0 run1 : LttSortRun) : bool :=
  let tuple0 := currentTuple run0 in
  let tuple1 := currentTuple run1 in
  negb (m_tupleComparator m tuple0 tuple1).

(** * Properties *)

(** ** Machine integers *)

Lemma ptrdiff_small z :
  Word.PTRDIFF_MIN <= z <= Word.PTRDIFF_MAX -> Word.ptrdiff z = z.
Proof.
  unfold Word.ptrdiff, Word.wrap_signed, Word.PTRDIFF_MIN, Word.PTRDIFF_MAX.
  intros H. change (2 ^ (64 - 1)) with (2 ^ 63).
  rewrite Z.mod_small; lia.
Qed.

Lemma int_small z : - 2 ^ 31 <= z < 2 ^ 31 -> Word.int z = z.
Proof.
  unfold Word.int, Word.wrap_signed. intros H.
  change (2 ^ (32 - 1)) with (2 ^ 31).
  rewrite Z.mod_small; lia.
Qed.

Lemma ptr_small a : Word.is_ptr a -> Word.ptr a = a.
Proof. unfold Word.is_ptr, Word.ptr. intros H. apply Z.mod_small. exact H. Qed.

(** Adding and then subtracting the same offset is the identity on
    addresses, whatever the sum wraps to. *)
Lemma ptr_add_sub a d : Word.is_ptr a -> Word.ptr (Word.ptr (a + d) - d) = a.
Proof.
  intros H. unfold Word.ptr.
  rewrite Zminus_mod, Zmod_mod, <- Zminus_mod.
  replace (a + d - d) with a by lia.
  apply Z.mod_small. exact H.
Qed.

(** ** Iterators *)

Section IteratorFacts.

Import LttBlockIterator.

Variables (len base : Z).
Hypothesis len_pos : 0 < len.
Hypothesis base_ok : buffer_at base.

Lemma block_size_value : BLOCK_SIZE_IN_BYTES = 8388608.
Proof. reflexivity. Qed.

Lemma diff_over_block i j :
  0 <= i -> i * len <= BLOCK_SIZE_IN_BYTES ->
  0 <= j -> j * len <= BLOCK_SIZE_IN_BYTES ->
  diff (at_index len base i) (at_index len base j) = Some (i - j).
Proof.
  intros Hi Hib Hj Hjb. unfold diff, at_index. cbn [m_tupleLength m_tupleAddress].
  pose proof block_size_value as HB.
  replace (base + i * len - (base + j * len)) with ((i - j) * len) by lia.
  rewrite ptrdiff_small
    by (unfold Word.PTRDIFF_MIN, Word.PTRDIFF_MAX; nia).
  destruct (Z.eqb_spec len 0); [lia|].
  destruct (Z.eqb_spec len (-1)); [lia|].
  rewrite andb_false_r. f_equal.
  apply Z.quot_mul. lia.
Qed.

End IteratorFacts.

(** C6: the random-access laws of the block iterator.  For every iterator
    [it] whose address is a machine address and every integer [n],
    [(it + n) - n == it] and [it[n]] is [*(it + n)]; for two iterators [a],
    [b] over the same block (one positive tuple length, whole tuples from
    the block's base), [a < b] exactly when [b - a] is defined and
    positive, and [b - a] is the byte distance divided by the tuple
    length. *)
Theorem iterator_random_access_laws :
  (forall it n, Word.is_ptr (LttBlockIterator.m_tupleAddress it) ->
     LttBlockIterator.eqb
       (LttBlockIterator.minus (LttBlockIterator.plus it n) n) it = true) /\
  (forall it n,
     LttBlockIterator.index it n
     = LttBlockIterator.deref (LttBlockIterator.plus it n)) /\
  (forall len base a b,
     0 < len -> LttBlockIterator.buffer_at base ->
     LttBlockIterator.over_block len base a ->
     LttBlockIterator.over_block len base b ->
     LttBlockIterator.diff b a
     = Some ((LttBlockIterator.m_tupleAddress b
              - LttBlockIterator.m_tupleAddress a) / len) /\
     (LttBlockIterator.ltb a b = true <->
      exists d, LttBlockIterator.diff b a = Some d /\ d > 0)).
Proof.
  split; [|split].
  - intros [l a] n Ha. unfold LttBlockIterator.eqb, LttBlockIterator.minus,
      LttBlockIterator.plus, LttBlockIterator.sub_assign,
      LttBlockIterator.add_assign.
    cbn [LttBlockIterator.m_tupleLength LttBlockIterator.m_tupleAddress] in *.
    rewrite ptr_add_sub by exact Ha. apply Z.eqb_refl.
  - reflexivity.
  - intros len base a b Hlen Hbase (i & Hi & Hib & ->) (j & Hj & Hjb & ->).
    rewrite (diff_over_block len base Hlen j i) by assumption.
    unfold LttBlockIterator.ltb, LttBlockIterator.at_index.
    cbn [LttBlockIterator.m_tupleAddress].
    split.
    + f_equal. replace (base + j * len - (base + i * len)) with ((j - i) * len) by lia.
      rewrite Z.div_mul by lia. reflexivity.
    + rewrite Z.ltb_lt. split.
      * intros H. exists (j - i). split; [reflexivity|nia].
      * intros (d & Hd & Hpos). injection Hd as <-. nia.
Qed.

Lemma iterator_random_access_laws_witness :
  LttBlockIterator.eqb
    (LttBlockIterator.minus
       (LttBlockIterator.plus (LttBlockIterator.of_length 65 4096) 3) 3)
    (LttBlockIterator.of_length 65 4096) = true /\
  (LttBlockIterator.ltb (LttBlockIterator.at_index 65 4096 1)
                        (LttBlockIterator.at_index 65 4096 4) = true <->
   exists d, LttBlockIterator.diff (LttBlockIterator.at_index 65 4096 4)
                                   (LttBlockIterator.at_index 65 4096 1) = Some d
             /\ d > 0).
Proof.
  destruct iterator_random_access_laws as (H1 & _ & H3).
  split.
  - apply H1. unfold Word.is_ptr. cbn. lia.
  - apply (H3 65 4096).
    + lia.
    + unfold LttBlockIterator.buffer_at, BLOCK_SIZE_IN_BYTES. lia.
    + exists 1. unfold BLOCK_SIZE_IN_BYTES. repeat split; lia.
    + exists 4. unfold BLOCK_SIZE_IN_BYTES. repeat split; lia.
Defined.

(** C10: the difference of two iterators divides the wrapped address
    difference by the left operand's tuple length.  Between
    default-constructed iterators the divisor is zero and the difference
    has no value; between two iterators made with the same positive tuple
    length over the same block it is defined and is the distance in
    tuples. *)
Theorem iterator_difference_precondition :
  (forall this that,
     LttBlockIterator.diff this that = None \/
     LttBlockIterator.diff this that
     = Some (Z.quot (Word.ptrdiff (LttBlockIterator.m_tupleAddress this
                                   - LttBlockIterator.m_tupleAddress that))
                    (LttBlockIterator.m_tupleLength this))) /\
  LttBlockIterator.diff LttBlockIterator.default LttBlockIterator.default = None /\
  (forall this that,
     LttBlockIterator.m_tupleLength this = 0 ->
     LttBlockIterator.diff this that = None) /\
  (forall len base i j,
     0 < len -> LttBlockIterator.buffer_at base ->
     0 <= i -> i * len <= BLOCK_SIZE_IN_BYTES ->
     0 <= j -> j * len <= BLOCK_SIZE_IN_BYTES ->
     LttBlockIterator.diff (LttBlockIterator.of_length len (base + i * len))
                           (LttBlockIterator.of_length len (base + j * len))
     = Some (i - j)).
Proof.
  split; [|split; [|split]].
  - intros this that. unfold LttBlockIterator.diff.
    destruct (_ =? 0); [now left|].
    destruct (_ && _); [now left|now right].
  - reflexivity.
  - intros this that H. unfold LttBlockIterator.diff. rewrite H. reflexivity.
  - intros len base i j Hlen Hbase Hi Hib Hj Hjb.
    apply (diff_over_block len base Hlen i j); assumption.
Qed.

Lemma iterator_difference_precondition_witness :
  LttBlockIterator.diff (LttBlockIterator.of_length 0 4096)
                        (LttBlockIterator.of_length 0 4096) = None /\
  LttBlockIterator.diff (LttBlockIterator.of_length 65 (4096 + 4 * 65))
                        (LttBlockIterator.of_length 65 (4096 + 1 * 65))
  = Some (4 - 1).
Proof.
  destruct iterator_difference_precondition as (_ & _ & H0 & H).
  split.
  - apply H0. reflexivity.
  - apply (H 65 4096 4 1); unfold LttBlockIterator.buffer_at, BLOCK_SIZE_IN_BYTES; lia.
Defined.

(** ** Pinning *)

(** C7: [pin()] on a pinned block and [unpin()] on an unpinned block fail
    their assertion; otherwise [pin] returns the block with the pinned flag
    set and [unpin] returns it with the flag cleared, all other fields as
    they were. *)
Theorem pin_unpin_assertions :
  forall b : LargeTempTableBlock.t,
    (LargeTempTableBlock.isPinned b = true ->
       LargeTempTableBlock.pin b = LargeTempTableBlock.AssertionFailed) /\
    (LargeTempTableBlock.isPinned b = false ->
       LargeTempTableBlock.unpin b = LargeTempTableBlock.AssertionFailed) /\
    (LargeTempTableBlock.isPinned b = false ->
       exists b', LargeTempTableBlock.pin b = LargeTempTableBlock.Returned b' /\
                  LargeTempTableBlock.isPinned b' = true /\
                  b' = LargeTempTableBlock.set_isPinned b true) /\
    (LargeTempTableBlock.isPinned b = true ->
       exists b', LargeTempTableBlock.unpin b = LargeTempTableBlock.Returned b' /\
                  LargeTempTableBlock.isPinned b' = false /\
                  b' = LargeTempTableBlock.set_isPinned b false).
Proof.
  intros b. unfold LargeTempTableBlock.pin, LargeTempTableBlock.unpin,
    LargeTempTableBlock.isPinned.
  repeat split; intros H; rewrite H; cbn; eauto.
Qed.

(** ** The heap and tuple values *)

Lemma read_bytes_length m a n : length (read_bytes m a n) = n.
Proof. unfold read_bytes. now rewrite length_map, length_seq. Qed.

Lemma read_bytes_ext m m' a a' n :
  (forall x, 0 <= x < Z.of_nat n -> m (a + x) = m' (a' + x)) ->
  read_bytes m a n = read_bytes m' a' n.
Proof.
  intros H. unfold read_bytes. apply map_ext_in.
  intros i Hi. apply in_seq in Hi. apply H. lia.
Qed.

Lemma tuple_at_ext len m m' a a' :
  (forall x, in_range a (Z.of_nat len) x -> m x = m' (a' + (x - a))) ->
  tuple_at len m a = tuple_at len m' a'.
Proof.
  intros H. unfold tuple_at. apply read_bytes_ext.
  intros x Hx. rewrite H by (unfold in_range; lia). f_equal. lia.
Qed.

Lemma tuple_at_same len m m' a :
  (forall x, in_range a (Z.of_nat len) x -> m x = m' x) ->
  tuple_at len m a = tuple_at len m' a.
Proof.
  intros H. apply tuple_at_ext. intros x Hx. rewrite H by exact Hx.
  f_equal. lia.
Qed.

Lemma tuples_length len m a n : length (tuples len m a n) = n.
Proof. unfold tuples. now rewrite length_map, length_seq. Qed.

Lemma tuples_same len m m' a n :
  (forall x, in_range a (Z.of_nat n * Z.of_nat len) x -> m x = m' x) ->
  tuples len m a n = tuples len m' a n.
Proof.
  intros H. unfold tuples. apply map_ext_in. intros k Hk. apply in_seq in Hk.
  apply tuple_at_same. intros x Hx. apply H. unfold in_range in *. nia.
Qed.

Lemma seq_from s n : seq s n = map (Nat.add s) (seq 0 n).
Proof.
  induction s as [|s IH].
  - symmetry. erewrite map_ext; [apply map_id|]. reflexivity.
  - rewrite <- seq_shift, IH, map_map. reflexivity.
Qed.

Lemma tuples_app len m a n1 n2 :
  tuples len m a (n1 + n2)
  = tuples len m a n1 ++ tuples len m (a + Z.of_nat n1 * Z.of_nat len) n2.
Proof.
  unfold tuples. rewrite seq_app, map_app. f_equal.
  cbn [Nat.add]. rewrite (seq_from n1), map_map.
  apply map_ext. intros k. f_equal. lia.
Qed.

(** Exchanging two entries of an enumerated list permutes it. *)
Lemma map_seq_swap_perm {A : Type} (f g : nat -> A) (n i j : nat) :
  (i < n)%nat -> (j < n)%nat ->
  g i = f j -> g j = f i ->
  (forall k, (k < n)%nat -> k <> i -> k <> j -> g k = f k) ->
  Permutation (map g (seq 0 n)) (map f (seq 0 n)).
Proof.
  intros Hi Hj Hgi Hgj Hk.
  set (s := fun k => if Nat.eqb k i then j else if Nat.eqb k j then i else k).
  assert (Hs : forall k, (k < n)%nat -> g k = f (s k)).
  { intros k Hlt. unfold s.
    destruct (Nat.eqb_spec k i) as [->|Hki]; [exact Hgi|].
    destruct (Nat.eqb_spec k j) as [->|Hkj]; [exact Hgj|].
    apply Hk; assumption. }
  rewrite (map_ext_in g (fun k => f (s k))).
  2:{ intros k Hin. apply in_seq in Hin. apply Hs. lia. }
  rewrite <- map_map. apply Permutation_map.
  assert (Hinv : forall k, s (s k) = k).
  { intros k. unfold s.
    destruct (Nat.eqb_spec k i) as [->|Hki];
      [|destruct (Nat.eqb_spec k j) as [->|Hkj]];
    repeat match goal with
           | |- context [Nat.eqb ?a ?b] => destruct (Nat.eqb_spec a b)
           end; lia. }
  assert (Hrange : forall k, (k < n)%nat -> (s k < n)%nat).
  { intros k Hlt. unfold s.
    destruct (Nat.eqb_spec k i); [lia|]. destruct (Nat.eqb_spec k j); lia. }
  apply NoDup_Permutation.
  - apply Finite.Injective_map_NoDup; [|apply seq_NoDup].
    intros x y Hxy. rewrite <- (Hinv x), <- (Hinv y). now f_equal.
  - apply seq_NoDup.
  - intros x. rewrite in_map_iff. split.
    + intros (k & <- & Hin). apply in_seq in Hin. apply in_seq.
      specialize (Hrange k). lia.
    + intros Hin. apply in_seq in Hin. exists (s x). split; [apply Hinv|].
      apply in_seq. specialize (Hrange x). lia.
Qed.

(** ** The sorter's [swap] *)

Lemma memcpy_in m dst src n x :
  in_range dst n x -> memcpy m dst src n x = m (src + (x - dst)).
Proof.
  unfold in_range, memcpy. intros H.
  destruct (Z.leb_spec dst x); [|lia].
  destruct (Z.ltb_spec x (dst + n)); [|lia]. reflexivity.
Qed.

Lemma memcpy_out m dst src n x :
  ~ in_range dst n x -> memcpy m dst src n x = m x.
Proof.
  unfold in_range, memcpy. intros H.
  destruct (Z.leb_spec dst x); [|reflexivity].
  destruct (Z.ltb_spec x (dst + n)); [lia|reflexivity].
Qed.

Section SwapFacts.

Import LTTBlockSorter.

Variable this : LTTBlockSorter.t.
Variable len : nat.
Variable tmp : Z.
Hypothesis len_pos : (0 < len)%nat.
Hypothesis sorter_length :
  TableTuple_tupleLength (tt_schema (m_tempTuple this)) = Z.of_nat len.
Hypothesis sorter_temp : tt_address (m_tempTuple this) = tmp.

Local Notation "'L'" := (Z.of_nat len).

Lemma swap_same st t : heap (swap this st t t) = heap st.
Proof. unfold swap. rewrite Z.eqb_refl. reflexivity. Qed.

Lemma swap_counters st t0 t1 :
  compare_calls (swap this st t0 t1) = compare_calls st /\
  swap_calls (swap this st t0 t1) = S (swap_calls st).
Proof. unfold swap. destruct (negb _); split; reflexivity. Qed.

(** The three copies of [swap], byte by byte. *)
Lemma swap_heap st t0 t1 :
  disjoint_ranges t0 L t1 L ->
  disjoint_ranges t0 L tmp L ->
  disjoint_ranges t1 L tmp L ->
  forall x,
    (in_range t0 L x -> heap (swap this st t0 t1) x = heap st (t1 + (x - t0))) /\
    (in_range t1 L x -> heap (swap this st t0 t1) x = heap st (t0 + (x - t1))) /\
    (~ in_range t0 L x -> ~ in_range t1 L x -> ~ in_range tmp L x ->
     heap (swap this st t0 t1) x = heap st x).
Proof.
  unfold disjoint_ranges. intros H01 H0t H1t x.
  unfold swap. destruct (Z.eqb_spec t0 t1) as [->|Hne]; [lia|].
  cbn [negb heap]. rewrite sorter_length, sorter_temp.
  repeat split.
  - intros Hx.
    rewrite memcpy_out by (unfold in_range in *; lia).
    rewrite memcpy_in by exact Hx.
    rewrite memcpy_out by (unfold in_range in *; lia).
    reflexivity.
  - intros Hx.
    rewrite memcpy_in by exact Hx.
    rewrite memcpy_out by (unfold in_range in *; lia).
    rewrite memcpy_in by (unfold in_range in *; lia).
    f_equal. lia.
  - intros H0 H1 Ht.
    rewrite !memcpy_out by assumption. reflexivity.
Qed.

(** [swap] exchanges the two tuples and leaves every other tuple alone. *)
Lemma swap_tuple_at st t0 t1 :
  disjoint_ranges t0 L t1 L ->
  disjoint_ranges t0 L tmp L ->
  disjoint_ranges t1 L tmp L ->
  tuple_at len (heap (swap this st t0 t1)) t0 = tuple_at len (heap st) t1 /\
  tuple_at len (heap (swap this st t0 t1)) t1 = tuple_at len (heap st) t0 /\
  (forall a, disjoint_ranges a L t0 L -> disjoint_ranges a L t1 L ->
             disjoint_ranges a L tmp L ->
     tuple_at len (heap (swap this st t0 t1)) a = tuple_at len (heap st) a).
Proof.
  intros H01 H0t H1t.
  pose proof (swap_heap st t0 t1 H01 H0t H1t) as Hh.
  repeat split.
  - apply tuple_at_ext. intros x Hx. apply (Hh x). exact Hx.
  - apply tuple_at_ext. intros x Hx. apply (Hh x). exact Hx.
  - intros a Ha0 Ha1 Hat. apply tuple_at_same. intros x Hx.
    apply (Hh x); unfold disjoint_ranges, in_range in *; lia.
Qed.

(** The same on the [n] tuples at [b], by index; [i = j] is allowed. *)
Lemma swap_index b n st i j :
  region_ok len tmp b n -> 0 <= i < n -> 0 <= j < n ->
  let T := fun m k => tuple_at len m (b + k * L) in
  let st' := swap this st (b + i * L) (b + j * L) in
  T (heap st') i = T (heap st) j /\
  T (heap st') j = T (heap st) i /\
  (forall k, 0 <= k < n -> k <> i -> k <> j -> T (heap st') k = T (heap st) k) /\
  (forall x, ~ in_range (b + i * L) L x -> ~ in_range (b + j * L) L x ->
             ~ in_range tmp L x -> heap st' x = heap st x) /\
  Permutation (tuples len (heap st') b (Z.to_nat n))
              (tuples len (heap st) b (Z.to_nat n)).
Proof.
  intros (Hn & Hb & Hend & Hsize & Htmp) Hi Hj T st'.
  destruct (Z.eq_dec i j) as [<-|Hij].
  - subst st'. rewrite swap_same. repeat split; auto.
  - assert (H01 : disjoint_ranges (b + i * L) L (b + j * L) L)
      by (unfold disjoint_ranges; nia).
    assert (H0t : disjoint_ranges (b + i * L) L tmp L)
      by (unfold disjoint_ranges in *; nia).
    assert (H1t : disjoint_ranges (b + j * L) L tmp L)
      by (unfold disjoint_ranges in *; nia).
    destruct (swap_tuple_at st _ _ H01 H0t H1t) as (Ha & Hb' & Hc).
    assert (Hothers : forall k, 0 <= k < n -> k <> i -> k <> j ->
                                T (heap st') k = T (heap st) k).
    { intros k Hk Hki Hkj. apply Hc; unfold disjoint_ranges in *; nia. }
    repeat split; auto.
    + intros x Hx0 Hx1 Hxt.
      apply (swap_heap st _ _ H01 H0t H1t x); assumption.
    + unfold tuples.
      apply (map_seq_swap_perm _ _ (Z.to_nat n) (Z.to_nat i) (Z.to_nat j));
        try lia.
      * rewrite !Z2Nat.id by lia. exact Ha.
      * rewrite !Z2Nat.id by lia. exact Hb'.
      * intros k Hk Hki Hkj. apply Hothers; lia.
Qed.

End SwapFacts.

(** ** Ranges of tuples *)

Section RegionFacts.

Variable len : nat.
Variable tmp : Z.
Hypothesis len_pos : (0 < len)%nat.

Local Notation "'L'" := (Z.of_nat len).

Lemma region_ok_sub b n lo k :
  region_ok len tmp b n -> 0 <= lo -> 0 <= k -> lo + k <= n ->
  region_ok len tmp (b + lo * L) k.
Proof.
  unfold region_ok, disjoint_ranges.
  intros (Hn & Hb & Hend & Hsize & Htmp) Hlo Hk Hle.
  repeat split; try nia.
Qed.

Lemma region_ok_prefix b n k :
  region_ok len tmp b n -> 0 <= k <= n -> region_ok len tmp b k.
Proof.
  intros H Hk. replace b with (b + 0 * L) by lia.
  apply (region_ok_sub b n 0 k); try lia. exact H.
Qed.

Lemma Forall_tuples (P : list byte -> Prop) m b n :
  0 <= n ->
  Forall P (tuples len m b (Z.to_nat n)) <->
  (forall k, 0 <= k < n -> P (tuple_at len m (b + k * L))).
Proof.
  intros Hn. unfold tuples. rewrite Forall_map, Forall_forall. split.
  - intros H k Hk. specialize (H (Z.to_nat k)).
    rewrite Z2Nat.id in H by lia. apply H. apply in_seq. lia.
  - intros H k Hk. apply in_seq in Hk. apply H. lia.
Qed.

Lemma In_tuples m b n k :
  0 <= k < n ->
  In (tuple_at len m (b + k * L)) (tuples len m b (Z.to_nat n)).
Proof.
  intros Hk. unfold tuples. apply in_map_iff. exists (Z.to_nat k).
  split; [now rewrite Z2Nat.id by lia|]. apply in_seq. lia.
Qed.

(** Three consecutive ranges of tuples. *)
Lemma tuples_split3 m b n lo k :
  0 <= lo -> 0 <= k -> lo + k <= n ->
  tuples len m b (Z.to_nat n)
  = tuples len m b (Z.to_nat lo)
    ++ tuples len m (b + lo * L) (Z.to_nat k)
    ++ tuples len m (b + (lo + k) * L) (Z.to_nat (n - lo - k)).
Proof.
  intros Hlo Hk Hle.
  replace (Z.to_nat n)
    with (Z.to_nat lo + (Z.to_nat k + Z.to_nat (n - lo - k)))%nat by lia.
  rewrite !tuples_app. rewrite !Z2Nat.id by lia.
  do 3 f_equal. lia.
Qed.

Lemma rearranged_refl b n m : rearranged len tmp b n m m.
Proof. split; [reflexivity|apply Permutation_refl]. Qed.

Lemma rearranged_trans b n m1 m2 m3 :
  rearranged len tmp b n m1 m2 -> rearranged len tmp b n m2 m3 ->
  rearranged len tmp b n m1 m3.
Proof.
  intros (F1 & P1) (F2 & P2). split.
  - intros x Hx Ht. rewrite F2, F1; auto.
  - eapply Permutation_trans; eassumption.
Qed.

(** A rearrangement of a part of a range is one of the whole range. *)
Lemma rearranged_sub b n lo k m m' :
  region_ok len tmp b n -> 0 <= lo -> 0 <= k -> lo + k <= n ->
  rearranged len tmp (b + lo * L) k m m' ->
  rearranged len tmp b n m m'.
Proof.
  intros Hreg Hlo Hk Hle (F & P).
  destruct Hreg as (Hn & Hb & Hend & Hsize & Htmp).
  unfold disjoint_ranges in Htmp.
  split.
  - intros x Hx Ht. apply F; [|exact Ht]. unfold in_range in *. nia.
  - rewrite (tuples_split3 m' b n lo k), (tuples_split3 m b n lo k) by lia.
    rewrite (tuples_same len m' m b).
    2:{ intros x Hx. apply F; unfold in_range in *; rewrite ?Z2Nat.id in * by lia; nia. }
    rewrite (tuples_same len m' m (b + (lo + k) * L)).
    2:{ intros x Hx. apply F; unfold in_range in *; rewrite ?Z2Nat.id in * by lia; nia. }
    apply Permutation_app_head, Permutation_app_tail. exact P.
Qed.

(** A rearrangement keeps the tuples outside the rearranged part. *)
Lemma rearranged_tuple_outside b n m m' a :
  rearranged len tmp b n m m' ->
  disjoint_ranges a L b (n * L) -> disjoint_ranges a L tmp L ->
  tuple_at len m' a = tuple_at len m a.
Proof.
  intros (F & _) Hb Ht. apply tuple_at_same. intros x Hx.
  apply F; unfold disjoint_ranges, in_range in *; lia.
Qed.

Lemma rearranged_Forall (P : list byte -> Prop) b n m m' :
  rearranged len tmp b n m m' ->
  Forall P (tuples len m b (Z.to_nat n)) ->
  Forall P (tuples len m' b (Z.to_nat n)).
Proof.
  intros (_ & Hp) H. rewrite Forall_forall in *. intros x Hx.
  apply H. eapply Permutation_in; eassumption.
Qed.

Lemma valid_heap_rearranged m0 fixed adm b n m m' :
  fixed_apart len tmp b n fixed ->
  rearranged len tmp b n m m' ->
  valid_heap len m0 fixed adm m b n -> valid_heap len m0 fixed adm m' b n.
Proof.
  intros Hf Hr (Hv & Ha). split.
  - intros x Hx. destruct (Hf x Hx) as (H1 & H2).
    destruct Hr as (F & _). rewrite F by assumption. auto.
  - eapply rearranged_Forall; eassumption.
Qed.

Lemma fixed_apart_sub b n lo k fixed :
  0 <= lo -> 0 <= k -> lo + k <= n ->
  fixed_apart len tmp b n fixed -> fixed_apart len tmp (b + lo * L) k fixed.
Proof.
  intros Hlo Hk Hle H x Hx. destruct (H x Hx) as (H1 & H2).
  split; [|exact H2]. unfold in_range in *. nia.
Qed.

Lemma valid_heap_sub m0 fixed adm b n lo k m :
  0 <= lo -> 0 <= k -> lo + k <= n ->
  valid_heap len m0 fixed adm m b n ->
  valid_heap len m0 fixed adm m (b + lo * L) k.
Proof.
  intros Hlo Hk Hle (Hv & Ha). split; [exact Hv|].
  rewrite (tuples_split3 m b n lo k) in Ha by lia.
  apply Forall_app in Ha. destruct Ha as (_ & Ha).
  apply Forall_app in Ha. apply Ha.
Qed.

End RegionFacts.

(** ** Iterators inside a range of tuples *)

Section RangeIterators.

Import LttBlockIterator.

Variable len : nat.
Variable tmp : Z.
Hypothesis len_pos : (0 < len)%nat.

Local Notation "'L'" := (Z.of_nat len).

Lemma it_plus b n k :
  region_ok len tmp b n -> 0 <= k <= n ->
  plus (mk L b) k = mk L (b + k * L).
Proof.
  intros (Hn & Hb & Hend & Hsize & _) Hk.
  pose proof block_size_value as HB.
  unfold plus, add_assign. cbn [m_tupleLength m_tupleAddress]. f_equal.
  rewrite ptrdiff_small
    by (unfold Word.PTRDIFF_MIN, Word.PTRDIFF_MAX; nia).
  apply ptr_small. unfold Word.is_ptr. nia.
Qed.

Lemma it_index b n k :
  region_ok len tmp b n -> 0 <= k <= n ->
  index (mk L b) k = b + k * L.
Proof.
  intros Hreg Hk. unfold index. rewrite (it_plus b n k) by assumption.
  reflexivity.
Qed.

Lemma it_minus_1 b n :
  region_ok len tmp b n -> 1 <= n ->
  minus (mk L (b + n * L)) 1 = mk L (b + (n - 1) * L).
Proof.
  intros (Hn & Hb & Hend & Hsize & _) Hk.
  pose proof block_size_value as HB.
  unfold minus, sub_assign. cbn [m_tupleLength m_tupleAddress]. f_equal.
  rewrite ptrdiff_small
    by (unfold Word.PTRDIFF_MIN, Word.PTRDIFF_MAX; nia).
  rewrite ptr_small; [lia|]. unfold Word.is_ptr. nia.
Qed.

Lemma it_diff b n :
  region_ok len tmp b n ->
  diff (mk L (b + n * L)) (mk L b) = Some n.
Proof.
  intros (Hn & Hb & Hend & Hsize & _).
  pose proof block_size_value as HB.
  unfold diff. cbn [m_tupleLength m_tupleAddress].
  replace (b + n * L - b) with (n * L) by lia.
  rewrite ptrdiff_small
    by (unfold Word.PTRDIFF_MIN, Word.PTRDIFF_MAX; nia).
  destruct (Z.eqb_spec L 0); [lia|].
  destruct (Z.eqb_spec L (-1)); [lia|].
  rewrite andb_false_r. f_equal. apply Z.quot_mul. lia.
Qed.

End RangeIterators.

(** ** Orderings *)

Section OrderFacts.

Context {A : Type}.
Variable lt : A -> A -> bool.
Hypothesis swo : StrictWeakOrder lt.

Lemma swo_irrefl a : lt a a = false.
Proof. apply swo. Qed.

Lemma swo_trans a b c : lt a b = true -> lt b c = true -> lt a c = true.
Proof. apply swo. Qed.

Lemma swo_asym a b : lt a b = true -> lt b a = false.
Proof.
  intros H. destruct (lt b a) eqn:E; [|reflexivity].
  rewrite <- (swo_irrefl a). symmetry. eapply swo_trans; eassumption.
Qed.

(** Negative transitivity: "not less than" composes. *)
Lemma swo_negtrans a b c : lt a b = false -> lt b c = false -> lt a c = false.
Proof.
  intros Hab Hbc. destruct (lt a c) eqn:Hac; [|reflexivity].
  destruct swo as (_ & _ & Hinc).
  destruct (lt b a) eqn:Hba.
  - rewrite (swo_trans b a c Hba Hac) in Hbc. discriminate.
  - destruct (lt c b) eqn:Hcb.
    + rewrite (swo_trans a c b Hac Hcb) in Hab. discriminate.
    + destruct (Hinc a b c Hab Hba Hbc Hcb) as (H & _). congruence.
Qed.

End OrderFacts.

(** ** Insertion sort *)

Section SorterFacts.

Import LTTBlockSorter.

Variable this : LTTBlockSorter.t.
Variable len : nat.
Variable tmp : Z.
Hypothesis len_pos : (0 < len)%nat.
Hypothesis sorter_length :
  TableTuple_tupleLength (tt_schema (m_tempTuple this)) = Z.of_nat len.
Hypothesis sorter_temp : tt_address (m_tempTuple this) = tmp.

Variable lt : list byte -> list byte -> bool.
Variable m0 : mem.
Variable fixed : Z -> Prop.
Variable adm : list byte -> Prop.

Local Notation "'L'" := (Z.of_nat len).
Local Abbreviation T b m k := (tuple_at len m (b + k * L)).
Local Abbreviation begin_at b := (LttBlockIterator.mk L b).

Local Abbreviation guard b n st := (sort_guard this len tmp lt m0 fixed adm b n st).

Lemma guard_rearranged b n st st' :
  rearranged len tmp b n (heap st) (heap st') ->
  guard b n st -> guard b n st'.
Proof.
  intros Hr (Hc & Hf & Hv). split; [exact Hc|]. split; [exact Hf|].
  eapply valid_heap_rearranged; eassumption.
Qed.

Lemma compare_value b n st i j :
  guard b n st -> 0 <= i < n -> 0 <= j < n ->
  m_compare this (heap st) (toTableTuple (b + i * L) (m_schema this))
                           (toTableTuple (b + j * L) (m_schema this))
  = lt (T b (heap st) i) (T b (heap st) j).
Proof.
  intros ((Hc & _) & _ & (Hv & Ha)) Hi Hj.
  rewrite Forall_tuples in Ha by lia.
  apply Hc; auto.
Qed.

Lemma insertionSort_while_spec b n :
  region_ok len tmp b n ->
  forall j st, Z.of_nat j < n ->
    let st' := insertionSort_while this (begin_at b) j st in
    rearranged len tmp b n (heap st) (heap st') /\
    (guard b n st ->
     forall i, Z.of_nat j <= i < n ->
       (forall k, 0 <= k -> k + 1 < Z.of_nat j ->
          lt (T b (heap st) (k + 1)) (T b (heap st) k) = false) ->
       (forall k, Z.of_nat j < k -> k + 1 <= i ->
          lt (T b (heap st) (k + 1)) (T b (heap st) k) = false) ->
       (Z.of_nat j < i ->
          lt (T b (heap st) (Z.of_nat j)) (T b (heap st) (Z.of_nat j + 1)) = true) ->
       (0 < Z.of_nat j < i ->
          lt (T b (heap st) (Z.of_nat j + 1)) (T b (heap st) (Z.of_nat j - 1)) = false) ->
       sorted_tuples len lt (heap st') b (i + 1)).
Proof.
  intros Hreg. induction j as [|j IH]; intros st Hj st'.
  - subst st'. cbn. split; [apply rearranged_refl|].
    intros G i Hi Ha Hb Hc Hd k Hk0 Hk1.
    destruct G as ((_ & Hswo) & _).
    destruct (Z.eq_dec k 0) as [->|Hne].
    + apply (swo_asym lt Hswo). apply Hc. lia.
    + apply Hb; lia.
  - subst st'. cbn [insertionSort_while].
    rewrite !(it_index len tmp len_pos b n) by (assumption || lia).
    unfold compare.
    set (c := m_compare this (heap st) _ _).
    set (st1 := mkMachine (heap st) _ _).
    assert (Hc_val : guard b n st ->
              c = lt (T b (heap st) (Z.of_nat (S j)))
                     (T b (heap st) (Z.of_nat (S j) - 1))).
    { intros G. apply (compare_value b n st); (assumption || lia). }
    pose proof (swap_index this len tmp len_pos sorter_length sorter_temp
                  b n st1 (Z.of_nat (S j) - 1) (Z.of_nat (S j)) Hreg
                  ltac:(lia) ltac:(lia)) as Hsw.
    cbv zeta in Hsw.
    set (st2 := swap this st1 _ _) in *.
    destruct Hsw as (Hs1 & Hs2 & Hs3 & Hs4 & Hs5).
    change (heap st1) with (heap st) in *.
    assert (Hr12 : rearranged len tmp b n (heap st) (heap st2)).
    { split; [|exact Hs5]. intros x Hx Ht. apply Hs4; [| |exact Ht];
        unfold in_range in *; destruct Hreg as (? & ? & ? & ? & ?); nia. }
    destruct (IH st2 ltac:(lia)) as (IHr & IHs). cbv zeta in IHr, IHs.
    destruct c.
    + split.
      * eapply rearranged_trans; eassumption.
      * intros G i Hi Ha Hb Hc Hd.
        specialize (Hc_val G). symmetry in Hc_val.
        apply (IHs (guard_rearranged b n st st2 Hr12 G) i); try lia.
        -- intros k Hk0 Hk1.
           rewrite !Hs3 by lia. apply Ha; lia.
        -- intros k Hk0 Hk1.
           destruct (Z.eq_dec k (Z.of_nat (S j))) as [->|Hne].
           ++ rewrite Hs2. rewrite Hs3 by lia.
              replace (Z.of_nat (S j) - 1) with (Z.of_nat j) in * by lia.
              apply Hd. lia.
           ++ rewrite !Hs3 by lia. apply Hb; lia.
        -- intros Hlt.
           replace (Z.of_nat j) with (Z.of_nat (S j) - 1) by lia.
           rewrite Hs1.
           replace (Z.of_nat (S j) - 1 + 1) with (Z.of_nat (S j)) by lia.
           rewrite Hs2. exact Hc_val.
        -- intros Hlt.
           replace (Z.of_nat j + 1) with (Z.of_nat (S j)) by lia.
           rewrite Hs2. rewrite Hs3 by lia.
           replace (Z.of_nat (S j) - 1) with (Z.of_nat j - 1 + 1) by lia.
           apply Ha; lia.
    + split; [apply rearranged_refl|].
      intros G i Hi Ha Hb Hc Hd k Hk0 Hk1.
      specialize (Hc_val G). symmetry in Hc_val.
      destruct G as ((_ & Hswo) & _).
      change (heap st1) with (heap st).
      destruct (Z.lt_trichotomy (k + 1) (Z.of_nat (S j))) as [Hlt|[Heq|Hgt]].
      * apply Ha; lia.
      * replace (k + 1) with (Z.of_nat (S j)) by lia.
        replace k with (Z.of_nat (S j) - 1) by lia. exact Hc_val.
      * destruct (Z.eq_dec k (Z.of_nat (S j))) as [->|Hne].
        -- apply (swo_asym lt Hswo). apply Hc. lia.
        -- apply Hb; lia.
Qed.

Lemma rearranged_prefix b n k m m' :
  region_ok len tmp b n -> 0 <= k <= n ->
  rearranged len tmp b k m m' -> rearranged len tmp b n m m'.
Proof.
  intros Hreg Hk Hr.
  apply (rearranged_sub len tmp len_pos b n 0 k); try lia; try assumption.
  replace (b + 0 * L) with b by lia. exact Hr.
Qed.

Lemma insertionSort_spec b n :
  region_ok len tmp b n ->
  forall (N : nat) st, Z.of_nat N <= n ->
    let st' := insertionSort this N (begin_at b) st in
    rearranged len tmp b n (heap st) (heap st') /\
    (guard b n st -> sorted_tuples len lt (heap st') b (Z.of_nat N)).
Proof.
  intros Hreg. unfold insertionSort.
  induction N as [|N IH]; intros st HN.
  - cbn. split; [apply rearranged_refl|]. intros _ k Hk0 Hk1. lia.
  - rewrite seq_S, fold_left_app. cbn [fold_left Nat.add].
    destruct (IH st ltac:(lia)) as (IHr & IHs). cbv zeta in IHr, IHs.
    set (stN := fold_left _ (seq 0 N) st) in *.
    destruct (insertionSort_while_spec b n Hreg N stN ltac:(lia)) as (Wr & Ws).
    cbv zeta in Wr, Ws. split.
    + eapply rearranged_trans; eassumption.
    + intros G.
      replace (Z.of_nat (S N)) with (Z.of_nat N + 1) by lia.
      apply (Ws (guard_rearranged b n st stN IHr G) (Z.of_nat N)); try lia.
      intros k Hk0 Hk1. apply (IHs G); lia.
Qed.

(** ** Partition *)

Lemma partition_loop_spec b n st :
  region_ok len tmp b n -> 1 <= n ->
  forall c : nat, Z.of_nat c <= n - 1 ->
    let r := fold_left
               (partition_step this (begin_at b) (begin_at (b + (n - 1) * L)))
               (map Z.of_nat (seq 0 c)) (st, -1) in
    -1 <= snd r < Z.of_nat c /\
    rearranged len tmp b (n - 1) (heap st) (heap (fst r)) /\
    (guard b n st ->
     (forall k, 0 <= k <= snd r ->
        lt (T b (heap (fst r)) k) (T b (heap st) (n - 1)) = true) /\
     (forall k, snd r < k < Z.of_nat c ->
        lt (T b (heap (fst r)) k) (T b (heap st) (n - 1)) = false)).
Proof.
  intros Hreg Hn.
  assert (Hreg1 : region_ok len tmp b (n - 1))
    by (apply (region_ok_prefix len tmp len_pos b n); (assumption || lia)).
  induction c as [|c IH]; intros Hc.
  - cbn. split; [lia|]. split; [apply rearranged_refl|].
    intros _. split; intros k Hk; lia.
  - rewrite seq_S, map_app, fold_left_app. cbn [fold_left map Nat.add].
    destruct (IH ltac:(lia)) as (Hi & Hr & Hg). cbv zeta in Hi, Hr, Hg.
    destruct (fold_left _ (map Z.of_nat (seq 0 c)) (st, -1)) as (stc, i).
    cbn [fst snd] in *.
    unfold partition_step.
    rewrite (it_plus len tmp len_pos b n) by (assumption || lia).
    rewrite (it_index len tmp len_pos b n) by (assumption || lia).
    unfold compare, LttBlockIterator.deref.
    cbn [LttBlockIterator.m_tupleAddress].
    set (c0 := m_compare this (heap stc) _ _).
    set (st1 := mkMachine (heap stc) _ _).
    assert (Hpiv : T b (heap stc) (n - 1) = T b (heap st) (n - 1)).
    { apply (rearranged_tuple_outside len tmp len_pos b (n - 1) _ _ _ Hr);
        destruct Hreg as (? & ? & ? & ? & ?); unfold disjoint_ranges in *; nia. }
    assert (Hrn : rearranged len tmp b n (heap st) (heap stc))
      by (apply (rearranged_prefix b n (n - 1)); (assumption || lia)).
    assert (Hc0 : guard b n st ->
              c0 = lt (T b (heap stc) (Z.of_nat c)) (T b (heap st) (n - 1))).
    { intros G. rewrite <- Hpiv.
      apply (compare_value b n stc); try lia.
      eapply guard_rearranged; eassumption. }
    pose proof (swap_index this len tmp len_pos sorter_length sorter_temp
                  b (n - 1) st1 (Z.of_nat c) (i + 1) Hreg1
                  ltac:(lia) ltac:(lia)) as Hsw.
    cbv zeta in Hsw.
    set (st2 := swap this st1 _ _) in *.
    destruct Hsw as (Hs1 & Hs2 & Hs3 & Hs4 & Hs5).
    change (heap st1) with (heap stc) in *.
    destruct c0; cbn [fst snd].
    + split; [lia|]. split.
      * eapply rearranged_trans; [exact Hr|]. split; [|exact Hs5].
        intros x Hx Ht. apply Hs4; [| |exact Ht];
          unfold in_range in *; destruct Hreg as (? & ? & ? & ? & ?); nia.
      * intros G. specialize (Hc0 G). symmetry in Hc0.
        destruct (Hg G) as (Hlo & Hhi). split.
        -- intros k Hk. destruct (Z.eq_dec k (i + 1)) as [->|Hne].
           ++ rewrite Hs2. exact Hc0.
           ++ destruct (Z.eq_dec k (Z.of_nat c)) as [->|Hne'].
              ** lia.
              ** rewrite Hs3 by lia. apply Hlo. lia.
        -- intros k Hk. destruct (Z.eq_dec k (Z.of_nat c)) as [->|Hne].
           ++ rewrite Hs1. apply Hhi. lia.
           ++ rewrite Hs3 by lia. apply Hhi. lia.
    + split; [lia|]. split; [exact Hr|].
      intros G. specialize (Hc0 G). symmetry in Hc0.
      destruct (Hg G) as (Hlo & Hhi). split.
      * intros k Hk. apply Hlo. lia.
      * intros k Hk. destruct (Z.eq_dec k (Z.of_nat c)) as [->|Hne].
        -- exact Hc0.
        -- apply Hhi. lia.
Qed.

Lemma partition_spec b n st :
  region_ok len tmp b n -> 1 <= n ->
  exists st' i,
    partition this (begin_at b) (begin_at (b + n * L)) n st
    = (st', begin_at (b + i * L)) /\
    0 <= i <= n - 1 /\
    rearranged len tmp b n (heap st) (heap st') /\
    (guard b n st ->
     (forall k, 0 <= k < i ->
        lt (T b (heap st') i) (T b (heap st') k) = false) /\
     (forall k, i < k < n ->
        lt (T b (heap st') k) (T b (heap st') i) = false)).
Proof.
  intros Hreg Hn.
  assert (Hreg1 : region_ok len tmp b (n - 1))
    by (apply (region_ok_prefix len tmp len_pos b n); (assumption || lia)).
  unfold partition.
  rewrite (it_minus_1 len tmp len_pos b n) by assumption.
  unfold partition_loop.
  destruct (partition_loop_spec b n st Hreg Hn (Z.to_nat (n - 1)) ltac:(lia))
    as (Hi & Hr & Hg).
  cbv zeta in Hi, Hr, Hg.
  destruct (fold_left _ (map Z.of_nat (seq 0 (Z.to_nat (n - 1)))) (st, -1))
    as (st1, i0).
  cbn [fst snd] in *. rewrite Z2Nat.id in * by lia.
  rewrite (it_plus len tmp len_pos b n) by (assumption || lia).
  rewrite (it_index len tmp len_pos b n) by (assumption || lia).
  unfold compare, LttBlockIterator.deref.
  cbn [LttBlockIterator.m_tupleAddress].
  set (c := m_compare this (heap st1) _ _).
  set (st2 := mkMachine (heap st1) _ _).
  assert (Hpiv : T b (heap st1) (n - 1) = T b (heap st) (n - 1)).
  { apply (rearranged_tuple_outside len tmp len_pos b (n - 1) _ _ _ Hr);
      destruct Hreg as (? & ? & ? & ? & ?); unfold disjoint_ranges in *; nia. }
  assert (Hrn : rearranged len tmp b n (heap st) (heap st1))
    by (apply (rearranged_prefix b n (n - 1)); (assumption || lia)).
  assert (Hc : guard b n st ->
            c = lt (T b (heap st1) (n - 1)) (T b (heap st1) (i0 + 1))).
  { intros G. apply (compare_value b n st1); try lia.
    eapply guard_rearranged; eassumption. }
  pose proof (swap_index this len tmp len_pos sorter_length sorter_temp
                b n st2 (n - 1) (i0 + 1) Hreg ltac:(lia) ltac:(lia)) as Hsw.
  cbv zeta in Hsw.
  set (st3 := swap this st2 _ _) in *.
  destruct Hsw as (Hs1 & Hs2 & Hs3 & Hs4 & Hs5).
  change (heap st2) with (heap st1) in *.
  exists (if c then st3 else st2), (i0 + 1).
  split; [reflexivity|]. split; [lia|].
  destruct c.
  - split.
    + eapply rearranged_trans; [exact Hrn|]. split; [|exact Hs5].
      intros x Hx Ht. apply Hs4; [| |exact Ht];
        unfold in_range in *; destruct Hreg as (? & ? & ? & ? & ?); nia.
    + intros G. specialize (Hc G). symmetry in Hc.
      destruct (Hg G) as (Hlo & Hhi).
      pose proof G as ((_ & Hswo) & _).
      assert (Hne : i0 + 1 <> n - 1).
      { intros E. rewrite E in Hc. rewrite (swo_irrefl lt Hswo) in Hc.
        discriminate. }
      rewrite Hs2, Hpiv. split.
      * intros k Hk. rewrite Hs3 by lia.
        apply (swo_asym lt Hswo). apply Hlo. lia.
      * intros k Hk. destruct (Z.eq_dec k (n - 1)) as [->|Hne'].
        -- rewrite Hs1. apply Hhi. lia.
        -- rewrite Hs3 by lia. apply Hhi. lia.
  - split; [exact Hrn|].
    change (heap st2) with (heap st1).
    intros G. specialize (Hc G). symmetry in Hc.
    destruct (Hg G) as (Hlo & Hhi).
    pose proof G as ((_ & Hswo) & _).
    assert (Hpp : lt (T b (heap st1) (i0 + 1)) (T b (heap st1) (n - 1)) = false).
    { destruct (Z.eq_dec (i0 + 1) (n - 1)) as [->|Hne].
      - apply (swo_irrefl lt Hswo).
      - rewrite Hpiv. apply Hhi. lia. }
    split.
    + intros k Hk.
      destruct (lt (T b (heap st1) (i0 + 1)) (T b (heap st1) k)) eqn:E;
        [|reflexivity].
      rewrite <- Hpp. symmetry.
      apply (swo_trans lt Hswo _ (T b (heap st1) k)); [exact E|].
      rewrite Hpiv. apply Hlo. lia.
    + intros k Hk. destruct (Z.eq_dec k (n - 1)) as [->|Hne'].
      * exact Hc.
      * apply (swo_negtrans lt Hswo _ (T b (heap st1) (n - 1))); [|exact Hc].
        rewrite Hpiv. apply Hhi. lia.
Qed.

(** ** Quicksort *)

Lemma sorted_tuples_same m m' b n :
  0 <= n ->
  (forall x, in_range b (n * L) x -> m' x = m x) ->
  sorted_tuples len lt m b n -> sorted_tuples len lt m' b n.
Proof.
  intros Hn E Hs k Hk0 Hk1.
  rewrite (tuple_at_same len m' m (b + (k + 1) * L)),
          (tuple_at_same len m' m (b + k * L)).
  - apply Hs; lia.
  - intros x Hx. apply E. unfold in_range in *. nia.
  - intros x Hx. apply E. unfold in_range in *. nia.
Qed.

Lemma guard_sub b n lo k st :
  0 <= lo -> 0 <= k -> lo + k <= n ->
  guard b n st -> guard (b + lo * L) k st.
Proof.
  intros Hlo Hk Hle (Hc & Hf & Hv). split; [exact Hc|]. split.
  - apply (fixed_apart_sub len tmp len_pos b n); assumption.
  - apply (valid_heap_sub len len_pos m0 fixed adm b n); assumption.
Qed.

(** Two runs, one after the other, on two parts of a range that do not
    overlap. *)
Lemma two_sorts b n lox kx loy ky st1 st2 st3 :
  region_ok len tmp b n ->
  0 <= lox -> 0 <= kx -> lox + kx <= n ->
  0 <= loy -> 0 <= ky -> loy + ky <= n ->
  lox + kx <= loy \/ loy + ky <= lox ->
  rearranged len tmp (b + lox * L) kx (heap st1) (heap st2) ->
  (guard (b + lox * L) kx st1 ->
   sorted_tuples len lt (heap st2) (b + lox * L) kx) ->
  rearranged len tmp (b + loy * L) ky (heap st2) (heap st3) ->
  (guard (b + loy * L) ky st2 ->
   sorted_tuples len lt (heap st3) (b + loy * L) ky) ->
  rearranged len tmp b n (heap st1) (heap st3) /\
  (forall x, ~ in_range (b + lox * L) (kx * L) x ->
             ~ in_range (b + loy * L) (ky * L) x ->
             ~ in_range tmp L x -> heap st3 x = heap st1 x) /\
  Permutation (tuples len (heap st3) (b + lox * L) (Z.to_nat kx))
              (tuples len (heap st1) (b + lox * L) (Z.to_nat kx)) /\
  Permutation (tuples len (heap st3) (b + loy * L) (Z.to_nat ky))
              (tuples len (heap st1) (b + loy * L) (Z.to_nat ky)) /\
  (guard b n st1 ->
   sorted_tuples len lt (heap st3) (b + lox * L) kx /\
   sorted_tuples len lt (heap st3) (b + loy * L) ky).
Proof.
  intros Hreg Hlox Hkx Hlex Hloy Hky Hley Hdisj Hrx Hsx Hry Hsy.
  assert (Hrx' : rearranged len tmp b n (heap st1) (heap st2))
    by (apply (rearranged_sub len tmp len_pos b n lox kx); assumption).
  assert (Hry' : rearranged len tmp b n (heap st2) (heap st3))
    by (apply (rearranged_sub len tmp len_pos b n loy ky); assumption).
  pose proof Hreg as (Hn & Hb & Hend & Hsize & Htmp).
  unfold disjoint_ranges in Htmp.
  assert (Ex : forall x, in_range (b + lox * L) (kx * L) x ->
                         heap st3 x = heap st2 x).
  { intros x Hx. apply Hry; unfold in_range in *; nia. }
  assert (Ey : forall x, in_range (b + loy * L) (ky * L) x ->
                         heap st2 x = heap st1 x).
  { intros x Hx. apply Hrx; unfold in_range in *; nia. }
  split; [eapply rearranged_trans; eassumption|].
  split.
  { intros x Hx Hy Ht. destruct Hrx as (Fx & _), Hry as (Fy & _).
    rewrite Fy, Fx; auto. }
  split.
  { rewrite (tuples_same len (heap st3) (heap st2)).
    - apply Hrx.
    - intros x Hx. apply Ex. rewrite Z2Nat.id in Hx by lia. exact Hx. }
  split.
  { rewrite <- (tuples_same len (heap st2) (heap st1)).
    - apply Hry.
    - intros x Hx. apply Ey. rewrite Z2Nat.id in Hx by lia. exact Hx. }
  intros G. split.
  - apply (sorted_tuples_same (heap st2)); [lia|exact Ex|].
    apply Hsx. apply (guard_sub b n); assumption.
  - apply Hsy. apply (guard_sub b n); try assumption.
    eapply guard_rearranged; eassumption.
Qed.

(** Sorted parts on both sides of a pivot that separates them make a
    sorted whole. *)
Lemma sorted_join b n i m1 m3 :
  region_ok len tmp b n -> 0 <= i <= n - 1 ->
  (forall x, in_range (b + i * L) L x -> m3 x = m1 x) ->
  Permutation (tuples len m3 b (Z.to_nat i)) (tuples len m1 b (Z.to_nat i)) ->
  Permutation (tuples len m3 (b + (i + 1) * L) (Z.to_nat (n - i - 1)))
              (tuples len m1 (b + (i + 1) * L) (Z.to_nat (n - i - 1))) ->
  sorted_tuples len lt m3 b i ->
  sorted_tuples len lt m3 (b + (i + 1) * L) (n - i - 1) ->
  (forall k, 0 <= k < i -> lt (T b m1 i) (T b m1 k) = false) ->
  (forall k, i < k < n -> lt (T b m1 k) (T b m1 i) = false) ->
  sorted_tuples len lt m3 b n.
Proof.
  intros Hreg Hi Hp Hpl Hpr Hsl Hsr Hlo Hhi.
  assert (Epiv : T b m3 i = T b m1 i) by (apply tuple_at_same; exact Hp).
  assert (Hlo3 : forall k, 0 <= k < i -> lt (T b m1 i) (T b m3 k) = false).
  { apply (Forall_tuples len len_pos (fun x => lt (T b m1 i) x = false));
      [lia|].
    eapply Permutation_Forall; [apply Permutation_sym; exact Hpl|].
    apply (Forall_tuples len len_pos (fun x => lt (T b m1 i) x = false));
      [lia|exact Hlo]. }
  assert (Hhi3 : forall j, 0 <= j < n - i - 1 ->
            lt (T (b + (i + 1) * L) m3 j) (T b m1 i) = false).
  { apply (Forall_tuples len len_pos (fun x => lt x (T b m1 i) = false));
      [lia|].
    eapply Permutation_Forall; [apply Permutation_sym; exact Hpr|].
    apply (Forall_tuples len len_pos (fun x => lt x (T b m1 i) = false));
      [lia|].
    intros j Hj.
    replace (b + (i + 1) * L + j * L) with (b + (i + 1 + j) * L) by lia.
    apply Hhi. lia. }
  intros k Hk0 Hk1.
  destruct (Z.lt_trichotomy (k + 1) i) as [Hlt|[Heq|Hgt]].
  - apply Hsl; lia.
  - rewrite Heq, Epiv. apply Hlo3. lia.
  - destruct (Z.eq_dec k i) as [->|Hne].
    + rewrite Epiv. specialize (Hhi3 0 ltac:(lia)).
      replace (b + (i + 1) * L + 0 * L) with (b + (i + 1) * L) in Hhi3 by lia.
      exact Hhi3.
    + specialize (Hsr (k - i - 1) ltac:(lia) ltac:(lia)).
      replace (b + (i + 1) * L + (k - i - 1 + 1) * L)
        with (b + (k + 1) * L) in Hsr by lia.
      replace (b + (i + 1) * L + (k - i - 1) * L)
        with (b + k * L) in Hsr by lia.
      exact Hsr.
Qed.

(** The sorter returns on every range of tuples when given more fuel than
    there are tuples; it rearranges the tuples of the range and touches
    nothing else but its scratch buffer; under a comparator that computes a
    strict weak ordering, it leaves them in order. *)
Lemma sort_spec :
  forall fuel b n st,
    region_ok len tmp b n -> (Z.to_nat n < fuel)%nat ->
    exists st',
      sort this fuel (begin_at b) (begin_at (b + n * L)) st = Some st' /\
      rearranged len tmp b n (heap st) (heap st') /\
      (guard b n st -> sorted_tuples len lt (heap st') b n).
Proof.
  induction fuel as [|fuel IH]; intros b n st Hreg Hfuel; [lia|].
  cbn [sort]. rewrite (it_diff len tmp len_pos b n Hreg).
  pose proof Hreg as (Hn & _).
  destruct (Z.eqb_spec n 0) as [->|H0].
  { exists st. split; [reflexivity|]. split; [apply rearranged_refl|].
    intros _ k Hk0 Hk1. lia. }
  destruct (Z.eqb_spec n 1) as [->|H1].
  { exists st. split; [reflexivity|]. split; [apply rearranged_refl|].
    intros _ k Hk0 Hk1. lia. }
  cbn [orb].
  destruct (Z.eqb_spec n 2) as [->|H2].
  { eexists. split; [reflexivity|].
    apply (insertionSort_spec b 2 Hreg 2%nat st). lia. }
  destruct (Z.eqb_spec n 3) as [->|H3].
  { eexists. split; [reflexivity|].
    apply (insertionSort_spec b 3 Hreg 3%nat st). lia. }
  destruct (Z.eqb_spec n 4) as [->|H4].
  { eexists. split; [reflexivity|].
    apply (insertionSort_spec b 4 Hreg 4%nat st). lia. }
  destruct (partition_spec b n st Hreg ltac:(lia))
    as (st1 & i & Hpart & Hi & Hr1 & Hg1).
  rewrite Hpart.
  assert (HregL : region_ok len tmp b i)
    by (apply (region_ok_prefix len tmp len_pos b n); (assumption || lia)).
  assert (HregR : region_ok len tmp (b + (i + 1) * L) (n - i - 1))
    by (apply (region_ok_sub len tmp len_pos b n); (assumption || lia)).
  assert (HregP : region_ok len tmp (b + i * L) (n - i))
    by (apply (region_ok_sub len tmp len_pos b n); (assumption || lia)).
  rewrite (it_diff len tmp len_pos b i HregL).
  rewrite (it_plus len tmp len_pos (b + i * L) (n - i) 1 HregP) by lia.
  replace (b + i * L + 1 * L) with (b + (i + 1) * L) by lia.
  replace (b + n * L) with (b + (i + 1) * L + (n - i - 1) * L) by lia.
  rewrite (it_diff len tmp len_pos _ _ HregR).
  assert (Hfinish : forall st3,
    rearranged len tmp b n (heap st1) (heap st3) ->
    (forall x, in_range (b + i * L) L x -> heap st3 x = heap st1 x) ->
    Permutation (tuples len (heap st3) b (Z.to_nat i))
                (tuples len (heap st1) b (Z.to_nat i)) ->
    Permutation (tuples len (heap st3) (b + (i + 1) * L) (Z.to_nat (n - i - 1)))
                (tuples len (heap st1) (b + (i + 1) * L) (Z.to_nat (n - i - 1))) ->
    (guard b n st1 ->
     sorted_tuples len lt (heap st3) b i /\
     sorted_tuples len lt (heap st3) (b + (i + 1) * L) (n - i - 1)) ->
    rearranged len tmp b n (heap st) (heap st3) /\
    (guard b n st -> sorted_tuples len lt (heap st3) b n)).
  { intros st3 Hr3 Hp Hpl Hpr Hs. split.
    - eapply rearranged_trans; eassumption.
    - intros G.
      assert (G1 : guard b n st1) by (eapply guard_rearranged; eassumption).
      destruct (Hs G1) as (Hsl & Hsr). destruct (Hg1 G) as (Hlo & Hhi).
      apply (sorted_join b n i (heap st1) (heap st3)); assumption. }
  assert (Hpivot_apart : forall x, in_range (b + i * L) L x ->
            ~ in_range b (i * L) x /\
            ~ in_range (b + (i + 1) * L) ((n - i - 1) * L) x /\
            ~ in_range tmp L x).
  { intros x Hx. destruct Hreg as (? & ? & ? & ? & Htmp).
    unfold disjoint_ranges, in_range in *. repeat split; nia. }
  assert (Hb0 : b + 0 * L = b) by lia.
  destruct (i >? n - i - 1).
  - destruct (IH (b + (i + 1) * L) (n - i - 1) st1 HregR ltac:(lia))
      as (st2 & E2 & Hr2 & Hs2).
    rewrite E2.
    destruct (IH b i st2 HregL ltac:(lia)) as (st3 & E3 & Hr3 & Hs3).
    exists st3. split; [exact E3|].
    rewrite <- Hb0 in Hr3, Hs3.
    destruct (two_sorts b n (i + 1) (n - i - 1) 0 i st1 st2 st3 Hreg
                ltac:(lia) ltac:(lia) ltac:(lia) ltac:(lia) ltac:(lia)
                ltac:(lia) ltac:(lia) Hr2 Hs2 Hr3 Hs3)
      as (Ha & Hb & Hc & Hd & He).
    rewrite Hb0 in *.
    apply Hfinish; try assumption.
    + intros x Hx. destruct (Hpivot_apart x Hx) as (? & ? & ?).
      apply Hb; assumption.
    + intros G. destruct (He G). split; assumption.
  - destruct (IH b i st1 HregL ltac:(lia)) as (st2 & E2 & Hr2 & Hs2).
    rewrite E2.
    destruct (IH (b + (i + 1) * L) (n - i - 1) st2 HregR ltac:(lia))
      as (st3 & E3 & Hr3 & Hs3).
    exists st3. split; [exact E3|].
    rewrite <- Hb0 in Hr2, Hs2.
    destruct (two_sorts b n 0 i (i + 1) (n - i - 1) st1 st2 st3 Hreg
                ltac:(lia) ltac:(lia) ltac:(lia) ltac:(lia) ltac:(lia)
                ltac:(lia) ltac:(lia) Hr2 Hs2 Hr3 Hs3)
      as (Ha & Hb & Hc & Hd & He).
    rewrite Hb0 in *.
    apply Hfinish; try assumption.
    + intros x Hx. destruct (Hpivot_apart x Hx) as (? & ? & ?).
      apply Hb; assumption.
Qed.

End SorterFacts.

(** ** Sorting a block *)

Lemma of_schema_block blk base a :
  block_invariant blk base ->
  LttBlockIterator.of_schema (LargeTempTableBlock.m_schema blk) a
  = LttBlockIterator.mk (TableTuple_tupleLength (LargeTempTableBlock.m_schema blk)) a.
Proof.
  intros (_ & _ & Hl & _). pose proof block_size_value as HB.
  unfold LttBlockIterator.of_schema.
  change (tupleLength (LargeTempTableBlock.m_schema blk) + TUPLE_HEADER_SIZE)
    with (TableTuple_tupleLength (LargeTempTableBlock.m_schema blk)).
  rewrite int_small by lia. reflexivity.
Qed.

Section BlockSort.

Import LTTBlockSorter.

Variable this : LTTBlockSorter.t.
Variable blk : LargeTempTableBlock.t.
Variable base : Z.
Hypothesis Hblk : block_invariant blk base.
Hypothesis Hsorter : sorter_for this blk base.

Local Abbreviation len :=
  (Z.to_nat (TableTuple_tupleLength (LargeTempTableBlock.m_schema blk))).
Local Abbreviation tmp := (tt_address (m_tempTuple this)).
Local Abbreviation count := (LargeTempTableBlock.m_activeTupleCount blk).

Lemma block_len_pos : (0 < len)%nat.
Proof. destruct Hblk as (_ & _ & H & _). lia. Qed.

Lemma block_len : Z.of_nat len = TableTuple_tupleLength (LargeTempTableBlock.m_schema blk).
Proof. destruct Hblk as (_ & _ & H & _). lia. Qed.

Lemma block_sorter_length :
  TableTuple_tupleLength (tt_schema (m_tempTuple this)) = Z.of_nat len.
Proof.
  destruct Hsorter as (H1 & H2 & _). rewrite H2, H1. symmetry. apply block_len.
Qed.

Lemma block_region : region_ok len tmp base count.
Proof.
  destruct Hblk as (Hs & (Hb0 & Hb1) & Hl & Hc & Htip & Hle & Hnip).
  destruct Hsorter as (H1 & H2 & Hd).
  rewrite H1 in Hd. unfold region_ok, disjoint_ranges in *.
  rewrite block_len. repeat split; try lia.
Qed.

Lemma block_begin :
  LargeTempTableBlock.begin_ blk = LttBlockIterator.mk (Z.of_nat len) base.
Proof.
  unfold LargeTempTableBlock.begin_, LargeTempTableBlock.address.
  rewrite (of_schema_block blk base _ Hblk).
  destruct Hblk as (-> & _). rewrite block_len. reflexivity.
Qed.

Lemma block_end :
  LargeTempTableBlock.end_ blk
  = LttBlockIterator.mk (Z.of_nat len) (base + count * Z.of_nat len).
Proof.
  unfold LargeTempTableBlock.end_.
  rewrite (of_schema_block blk base _ Hblk).
  destruct Hblk as (_ & _ & _ & _ & -> & _). rewrite block_len. reflexivity.
Qed.

Lemma block_at_address i :
  0 <= i <= count -> block_at blk i = base + i * Z.of_nat len.
Proof.
  intros Hi. unfold block_at. rewrite block_begin.
  apply (it_index len tmp block_len_pos base count); [apply block_region|exact Hi].
Qed.

Lemma block_tuples_eq m : block_tuples blk m = tuples len m base (Z.to_nat count).
Proof.
  unfold block_tuples, LargeTempTableBlock.address.
  destruct Hblk as (-> & _). reflexivity.
Qed.

Lemma block_fixed_apart :
  fixed_apart len tmp base count (non_inlined_region blk base).
Proof.
  destruct Hblk as (Hs & (Hb0 & Hb1) & Hl & Hc & Htip & Hle & Hnip).
  destruct Hsorter as (H1 & H2 & Hd). rewrite H1 in Hd.
  intros x Hx. unfold non_inlined_region, in_range, disjoint_ranges in *.
  rewrite block_len. split; lia.
Qed.

(** The run of the sorter over [begin()..end()]: it returns, rearranges the
    block's tuples, and orders them when the comparator computes a strict
    weak ordering. *)
Lemma block_sort_run m lt fuel :
  (Z.to_nat count < fuel)%nat ->
  exists st',
    sort this fuel (LargeTempTableBlock.begin_ blk)
         (LargeTempTableBlock.end_ blk) (start m) = Some st' /\
    rearranged len tmp base count m (heap st') /\
    (block_comparator this blk base m lt ->
     sorted_tuples len lt (heap st') base count /\
     valid_heap len m (non_inlined_region blk base)
                (fun t => In t (block_tuples blk m)) (heap st') base count).
Proof.
  intros Hfuel. rewrite block_begin, block_end.
  destruct (sort_spec this len tmp block_len_pos block_sorter_length eq_refl
              lt m (non_inlined_region blk base)
              (fun t => In t (block_tuples blk m))
              fuel base count (start m) block_region Hfuel)
    as (st' & E & Hr & Hs).
  exists st'. split; [exact E|]. split; [exact Hr|].
  intros Hcmp.
  assert (Hv : valid_heap len m (non_inlined_region blk base)
                 (fun t => In t (block_tuples blk m)) m base count).
  { split; [reflexivity|]. rewrite block_tuples_eq.
    apply Forall_forall. auto. }
  split.
  - apply Hs. split; [exact Hcmp|]. split; [apply block_fixed_apart|exact Hv].
  - eapply valid_heap_rearranged; [apply block_fixed_apart|exact Hr|exact Hv].
Qed.

End BlockSort.

(** C1: sorting a block in place from [begin()] to [end()] under a
    comparator that is a strict weak ordering returns and leaves every two
    consecutive tuples in order: for all [0 <= i < active_tuple_count - 1],
    the comparator does not hold of ([block[i+1]], [block[i]]). *)
Theorem sort_leaves_block_sorted :
  forall this blk base m lt fuel,
    block_invariant blk base ->
    sorter_for this blk base ->
    block_comparator this blk base m lt ->
    (Z.to_nat (LargeTempTableBlock.activeTupleCount blk) < fuel)%nat ->
    exists st',
      LTTBlockSorter.sort this fuel (LargeTempTableBlock.begin_ blk)
        (LargeTempTableBlock.end_ blk) (LTTBlockSorter.start m) = Some st' /\
      forall i, 0 <= i < LargeTempTableBlock.activeTupleCount blk - 1 ->
        LTTBlockSorter.m_compare this (LTTBlockSorter.heap st')
          (toTableTuple (block_at blk (i + 1)) (LTTBlockSorter.m_schema this))
          (toTableTuple (block_at blk i) (LTTBlockSorter.m_schema this))
        = false.
Proof.
  intros this blk base m lt fuel Hblk Hsorter Hcmp Hfuel.
  unfold LargeTempTableBlock.activeTupleCount in *.
  destruct (block_sort_run this blk base Hblk Hsorter m lt fuel Hfuel)
    as (st' & E & Hr & Hs).
  exists st'. split; [exact E|].
  intros i Hi. destruct (Hs Hcmp) as (Hsorted & (Hfix & Hadm)).
  rewrite !(block_at_address this blk base Hblk Hsorter) by lia.
  destruct Hcmp as (Hof & _).
  rewrite Forall_tuples in Hadm
    by (try apply (block_len_pos blk base Hblk); destruct Hblk; lia).
  rewrite Hof.
  - apply Hsorted; lia.
  - exact Hfix.
  - apply Hadm. lia.
  - apply Hadm. lia.
Qed.

(** C2: for any comparator, the in-place sort of a block returns and is a
    rearrangement: the tuples of the block afterwards are a permutation of
    those before, and there are as many of them. *)
Theorem sort_permutes_block :
  forall this blk base m fuel,
    block_invariant blk base ->
    sorter_for this blk base ->
    (Z.to_nat (LargeTempTableBlock.activeTupleCount blk) < fuel)%nat ->
    exists st',
      LTTBlockSorter.sort this fuel (LargeTempTableBlock.begin_ blk)
        (LargeTempTableBlock.end_ blk) (LTTBlockSorter.start m) = Some st' /\
      Permutation (block_tuples blk (LTTBlockSorter.heap st'))
                  (block_tuples blk m) /\
      length (block_tuples blk (LTTBlockSorter.heap st'))
      = length (block_tuples blk m) /\
      Z.of_nat (length (block_tuples blk (LTTBlockSorter.heap st')))
      = LargeTempTableBlock.activeTupleCount blk.
Proof.
  intros this blk base m fuel Hblk Hsorter Hfuel.
  unfold LargeTempTableBlock.activeTupleCount in *.
  destruct (block_sort_run this blk base Hblk Hsorter m
              (fun _ _ => false) fuel Hfuel) as (st' & E & (_ & Hp) & _).
  exists st'. split; [exact E|].
  rewrite !(block_tuples_eq blk base Hblk).
  split; [exact Hp|]. split.
  - apply Permutation_length. exact Hp.
  - rewrite tuples_length. destruct Hblk as (_ & _ & _ & Hc & _). lia.
Qed.

(** C9: [swap] exchanges the two tuples it is given, [tupleLength] bytes
    each, through the scratch tuple and writes nowhere else; so for any
    comparator the sort of a block leaves the whole non-inlined region byte
    for byte as it was, and every tuple of the sorted block is, byte for
    byte, a tuple of the block before the sort, string refs included. *)
Theorem sort_keeps_non_inlined_data :
  forall this blk base m fuel,
    block_invariant blk base ->
    sorter_for this blk base ->
    (Z.to_nat (LargeTempTableBlock.activeTupleCount blk) < fuel)%nat ->
    let len := Z.to_nat (TableTuple_tupleLength (LargeTempTableBlock.m_schema blk)) in
    let tmp := tt_address (LTTBlockSorter.m_tempTuple this) in
    (forall st t0 t1,
       disjoint_ranges t0 (Z.of_nat len) t1 (Z.of_nat len) ->
       disjoint_ranges t0 (Z.of_nat len) tmp (Z.of_nat len) ->
       disjoint_ranges t1 (Z.of_nat len) tmp (Z.of_nat len) ->
       let st' := LTTBlockSorter.swap this st t0 t1 in
       tuple_at len (LTTBlockSorter.heap st') t0
       = tuple_at len (LTTBlockSorter.heap st) t1 /\
       tuple_at len (LTTBlockSorter.heap st') t1
       = tuple_at len (LTTBlockSorter.heap st) t0 /\
       (forall x, ~ in_range t0 (Z.of_nat len) x ->
                  ~ in_range t1 (Z.of_nat len) x ->
                  ~ in_range tmp (Z.of_nat len) x ->
          LTTBlockSorter.heap st' x = LTTBlockSorter.heap st x)) /\
    exists st',
      LTTBlockSorter.sort this fuel (LargeTempTableBlock.begin_ blk)
        (LargeTempTableBlock.end_ blk) (LTTBlockSorter.start m) = Some st' /\
      (forall x, non_inlined_region blk base x ->
         LTTBlockSorter.heap st' x = m x) /\
      (forall i, 0 <= i < LargeTempTableBlock.activeTupleCount blk ->
         exists j, 0 <= j < LargeTempTableBlock.activeTupleCount blk /\
           tuple_at len (LTTBlockSorter.heap st') (block_at blk i)
           = tuple_at len m (block_at blk j)).
Proof.
  intros this blk base m fuel Hblk Hsorter Hfuel len tmp.
  unfold LargeTempTableBlock.activeTupleCount in *.
  pose proof (block_len_pos blk base Hblk) as Hlen.
  pose proof (block_sorter_length this blk base Hblk Hsorter) as Hsl.
  split.
  - intros st t0 t1 H01 H0t H1t.
    destruct (swap_tuple_at this len tmp Hlen Hsl eq_refl st t0 t1 H01 H0t H1t)
      as (Ha & Hb & _).
    split; [exact Ha|]. split; [exact Hb|].
    intros x Hx0 Hx1 Hxt.
    apply (swap_heap this len tmp Hlen Hsl eq_refl st t0 t1 H01 H0t H1t x);
      assumption.
  - destruct (block_sort_run this blk base Hblk Hsorter m
                (fun _ _ => false) fuel Hfuel) as (st' & E & (Hf & Hp) & _).
    exists st'. split; [exact E|]. split.
    + intros x Hx.
      destruct (block_fixed_apart this blk base Hblk Hsorter x Hx).
      apply Hf; assumption.
    + intros i Hi.
      pose proof (In_tuples len Hlen (LTTBlockSorter.heap st') base _ i Hi) as Hin.
      apply (Permutation_in _ Hp) in Hin.
      unfold tuples in Hin. apply in_map_iff in Hin.
      destruct Hin as (k & Hk & Hks). apply in_seq in Hks.
      exists (Z.of_nat k). split; [lia|].
      rewrite !(block_at_address this blk base Hblk Hsorter) by lia.
      symmetry. exact Hk.
Qed.

(** C8: a range of 0 or 1 tuples is returned as it is, with no call of the
    comparator and none of [swap]; a range of 2 tuples costs exactly one
    call of the comparator; ranges of 3 and 4 tuples are sorted by
    [insertionSort<3>] and [insertionSort<4>], the partition is not run. *)
Theorem sort_small_ranges :
  forall this fuel beginIt endIt st n,
    LttBlockIterator.diff endIt beginIt = Some n ->
    (n = 0 \/ n = 1 ->
       LTTBlockSorter.sort this (S fuel) beginIt endIt st = Some st) /\
    (n = 2 ->
       exists st',
         LTTBlockSorter.sort this (S fuel) beginIt endIt st = Some st' /\
         st' = LTTBlockSorter.insertionSort this 2 beginIt st /\
         LTTBlockSorter.compare_calls st'
         = S (LTTBlockSorter.compare_calls st)) /\
    (n = 3 ->
       LTTBlockSorter.sort this (S fuel) beginIt endIt st
       = Some (LTTBlockSorter.insertionSort this 3 beginIt st)) /\
    (n = 4 ->
       LTTBlockSorter.sort this (S fuel) beginIt endIt st
       = Some (LTTBlockSorter.insertionSort this 4 beginIt st)).
Proof.
  intros this fuel beginIt endIt st n Hd.
  cbn [LTTBlockSorter.sort]. rewrite Hd.
  split; [|split; [|split]].
  - intros [-> | ->]; reflexivity.
  - intros ->. cbn. eexists. split; [reflexivity|]. split; [reflexivity|].
    destruct (LTTBlockSorter.m_compare this _ _ _); cbn.
    + apply (swap_counters this).
    + reflexivity.
  - intros ->. reflexivity.
  - intros ->. reflexivity.
Qed.

(** ** The small block meets the hypotheses *)

Lemma swo_of_key {A : Type} (key : A -> Z) :
  StrictWeakOrder (fun a b => key a <? key b).
Proof.
  repeat split; intros; rewrite ?Z.ltb_lt, ?Z.ltb_ge in *; lia.
Qed.

Lemma read_bytes_app m a n1 n2 :
  read_bytes m a (n1 + n2)
  = read_bytes m a n1 ++ read_bytes m (a + Z.of_nat n1) n2.
Proof.
  unfold read_bytes. rewrite seq_app, map_app. f_equal.
  cbn [Nat.add]. rewrite (seq_from n1), map_map.
  apply map_ext. intros i. f_equal. lia.
Qed.

Lemma read_bytes_sub m a n off k :
  (off + k <= n)%nat ->
  firstn k (skipn off (read_bytes m a n)) = read_bytes m (a + Z.of_nat off) k.
Proof.
  intros H. replace n with (off + (k + (n - off - k)))%nat by lia.
  rewrite !read_bytes_app.
  rewrite skipn_app, skipn_all2 by (rewrite read_bytes_length; lia).
  rewrite read_bytes_length, Nat.sub_diag. cbn [skipn app].
  rewrite firstn_app, firstn_all2 by (rewrite read_bytes_length; lia).
  rewrite read_bytes_length, Nat.sub_diag. cbn [firstn].
  apply app_nil_r.
Qed.

Lemma demo_block_invariant : block_invariant Demo.block Demo.base.
Proof.
  unfold block_invariant, LttBlockIterator.buffer_at. cbn.
  unfold Demo.base, Demo.block_end, BLOCK_SIZE_IN_BYTES, TableTuple_tupleLength,
    TUPLE_HEADER_SIZE. cbn. repeat split; lia.
Qed.

Lemma demo_sorter_for : sorter_for Demo.sorter Demo.block Demo.base.
Proof.
  unfold sorter_for, disjoint_ranges. cbn.
  unfold Demo.base, Demo.scratch, BLOCK_SIZE_IN_BYTES, TableTuple_tupleLength,
    TUPLE_HEADER_SIZE. cbn. repeat split; lia.
Qed.

Lemma demo_schema_ok : schema_ok Demo.schema.
Proof.
  split.
  - intros off [<- | []]. unfold TUPLE_HEADER_SIZE, STRING_REF_SIZE. cbn. lia.
  - cbn. split; [intros o []|exact I].
Qed.

Lemma demo_output_for :
  output_for Demo.output Demo.block Demo.new_base Demo.base.
Proof.
  unfold output_for, block_invariant, LttBlockIterator.buffer_at,
    disjoint_ranges. cbn.
  unfold Demo.new_base, Demo.base, BLOCK_SIZE_IN_BYTES, TableTuple_tupleLength,
    TUPLE_HEADER_SIZE. cbn. repeat split; lia.
Qed.

Lemma demo_refs_in_block ks :
  length ks = 5%nat -> refs_in_block Demo.block Demo.base (Demo.heap_of ks).
Proof.
  intros Hks k off Hk [<- | []].
  assert (Hload : forall j, 0 <= j < 5 ->
            load_ref (Demo.heap_of ks)
              (Demo.base + j * TableTuple_tupleLength
                                 (LargeTempTableBlock.m_schema Demo.block) + 1)
            = Demo.block_end - 1 - j).
  { intros j Hj.
    assert (Hc : j = 0 \/ j = 1 \/ j = 2 \/ j = 3 \/ j = 4) by lia.
    destruct Hc as [-> | [-> | [-> | [-> | ->]]]]; vm_compute; reflexivity. }
  cbn [LargeTempTableBlock.m_activeTupleCount Demo.block] in Hk.
  rewrite (Hload k Hk).
  unfold non_inlined_region, Demo.block, Demo.block_end, Demo.base,
    BLOCK_SIZE_IN_BYTES.
  cbn [LargeTempTableBlock.m_nonInlinedInsertionPoint]. lia.
Qed.

Lemma demo_block_tuples ks :
  block_tuples Demo.block (Demo.heap_of ks) = map Demo.tuple_bytes (seq 0 5).
Proof. vm_compute. reflexivity. Qed.

Lemma demo_refs ks t :
  In t (block_tuples Demo.block (Demo.heap_of ks)) ->
  non_inlined_region Demo.block Demo.base (le_decode (firstn 8 (skipn 1 t))).
Proof.
  rewrite demo_block_tuples. intros H. cbn [map seq] in H.
  unfold non_inlined_region.
  repeat (destruct H as [<- | H];
          [split; [apply Z.leb_le | apply Z.ltb_lt]; vm_compute; reflexivity|]).
  destruct H.
Qed.

Lemma demo_comparator_of ks :
  block_comparator Demo.sorter Demo.block Demo.base (Demo.heap_of ks)
                   (Demo.lt_in (Demo.heap_of ks)).
Proof.
  split; [|apply swo_of_key].
  intros m a b Hfix Ha Hb.
  unfold Demo.sorter, Demo.first_field, Demo.lt_in, Demo.key_in, toTableTuple.
  cbn [LTTBlockSorter.m_compare tt_address].
  change (Z.to_nat (TableTuple_tupleLength
                      (LargeTempTableBlock.m_schema Demo.block))) with 10%nat
    in *.
  unfold tuple_at in *.
  pose proof (demo_refs ks _ Ha) as Ra. pose proof (demo_refs ks _ Hb) as Rb.
  rewrite !(read_bytes_sub m _ 10 1 8) in * by lia.
  change (Z.of_nat 1) with 1 in *.
  unfold load_ref, STRING_REF_SIZE.
  rewrite (Hfix _ Ra), (Hfix _ Rb). reflexivity.
Qed.

Lemma demo_comparator :
  block_comparator Demo.sorter Demo.block Demo.base Demo.heap0 Demo.lt.
Proof. exact (demo_comparator_of Demo.keys). Qed.

Lemma demo_no_ties :
  no_ties Demo.block Demo.heap1 (Demo.lt_in Demo.heap1).
Proof.
  intros a b Ha Hb.
  unfold Demo.heap1 in Ha, Hb. rewrite demo_block_tuples in Ha, Hb.
  cbn [map seq] in Ha, Hb.
  repeat (destruct Ha as [<- | Ha];
          [repeat (destruct Hb as [<- | Hb];
                   [first [ reflexivity
                          | intros H1 H2; vm_compute in H1, H2; discriminate ]|]);
           destruct Hb|]).
  destruct Ha.
Qed.

Lemma sort_leaves_block_sorted_witness :
  exists st',
    LTTBlockSorter.sort Demo.sorter 6 (LargeTempTableBlock.begin_ Demo.block)
      (LargeTempTableBlock.end_ Demo.block) (LTTBlockSorter.start Demo.heap0)
    = Some st' /\
    forall i, 0 <= i < LargeTempTableBlock.activeTupleCount Demo.block - 1 ->
      LTTBlockSorter.m_compare Demo.sorter (LTTBlockSorter.heap st')
        (toTableTuple (block_at Demo.block (i + 1))
                      (LTTBlockSorter.m_schema Demo.sorter))
        (toTableTuple (block_at Demo.block i)
                      (LTTBlockSorter.m_schema Demo.sorter))
      = false.
Proof.
  apply (sort_leaves_block_sorted Demo.sorter Demo.block Demo.base Demo.heap0
           Demo.lt 6).
  - exact demo_block_invariant.
  - exact demo_sorter_for.
  - exact demo_comparator.
  - cbn. lia.
Defined.

Lemma sort_permutes_block_witness :
  exists st',
    LTTBlockSorter.sort Demo.sorter 6 (LargeTempTableBlock.begin_ Demo.block)
      (LargeTempTableBlock.end_ Demo.block) (LTTBlockSorter.start Demo.heap0)
    = Some st' /\
    Permutation (block_tuples Demo.block (LTTBlockSorter.heap st'))
                (block_tuples Demo.block Demo.heap0) /\
    length (block_tuples Demo.block (LTTBlockSorter.heap st'))
    = length (block_tuples Demo.block Demo.heap0) /\
    Z.of_nat (length (block_tuples Demo.block (LTTBlockSorter.heap st')))
    = LargeTempTableBlock.activeTupleCount Demo.block.
Proof.
  apply (sort_permutes_block Demo.sorter Demo.block Demo.base Demo.heap0 6).
  - exact demo_block_invariant.
  - exact demo_sorter_for.
  - cbn. lia.
Defined.

Lemma sort_keeps_non_inlined_data_witness :
  exists st',
    LTTBlockSorter.sort Demo.sorter 6 (LargeTempTableBlock.begin_ Demo.block)
      (LargeTempTableBlock.end_ Demo.block) (LTTBlockSorter.start Demo.heap0)
    = Some st' /\
    (forall x, non_inlined_region Demo.block Demo.base x ->
       LTTBlockSorter.heap st' x = Demo.heap0 x) /\
    (forall i, 0 <= i < LargeTempTableBlock.activeTupleCount Demo.block ->
       exists j, 0 <= j < LargeTempTableBlock.activeTupleCount Demo.block /\
         tuple_at 10 (LTTBlockSorter.heap st') (block_at Demo.block i)
         = tuple_at 10 Demo.heap0 (block_at Demo.block j)).
Proof.
  apply (sort_keeps_non_inlined_data Demo.sorter Demo.block Demo.base
           Demo.heap0 6).
  - exact demo_block_invariant.
  - exact demo_sorter_for.
  - cbn. lia.
Defined.

Lemma sort_small_ranges_witness :
  exists st',
    LTTBlockSorter.sort Demo.sorter 1 (LttBlockIterator.of_schema Demo.schema 4096)
      (LttBlockIterator.of_schema Demo.schema 4116)
      (LTTBlockSorter.start Demo.heap0) = Some st' /\
    st' = LTTBlockSorter.insertionSort Demo.sorter 2
            (LttBlockIterator.of_schema Demo.schema 4096)
            (LTTBlockSorter.start Demo.heap0) /\
    LTTBlockSorter.compare_calls st' = 1%nat.
Proof.
  apply (sort_small_ranges Demo.sorter 0
           (LttBlockIterator.of_schema Demo.schema 4096)
           (LttBlockIterator.of_schema Demo.schema 4116)
           (LTTBlockSorter.start Demo.heap0) 2).
  - reflexivity.
  - reflexivity.
Defined.

(** ** Inserting a tuple *)

(** C5: [insertTuple] returns false exactly when the gap between the two
    insertion points is smaller than the tuple, status byte included, plus
    its non-inlined objects; and then the block and the heap are as they
    were. *)
Theorem insertTuple_capacity :
  forall object_size this m source,
    let gap := LargeTempTableBlock.m_nonInlinedInsertionPoint this
               - LargeTempTableBlock.m_tupleInsertionPoint this in
    let needed := TableTuple_tupleLength (LargeTempTableBlock.m_schema this)
                  + LargeTempTableBlock.nonInlinedMemorySize object_size m source in
    let r := LargeTempTableBlock.insertTuple object_size this m source in
    (fst (fst r) = false <-> gap < needed) /\
    (fst (fst r) = false -> snd (fst r) = this /\ snd r = m).
Proof.
  intros object_size this m source gap needed r.
  subst gap needed r. unfold LargeTempTableBlock.insertTuple.
  destruct (Z.ltb_spec
              (LargeTempTableBlock.m_nonInlinedInsertionPoint this
               - LargeTempTableBlock.m_tupleInsertionPoint this)
              (TableTuple_tupleLength (LargeTempTableBlock.m_schema this)
               + LargeTempTableBlock.nonInlinedMemorySize object_size m source))
    as [Hlt | Hge].
  - cbn. split; [split; auto|auto].
  - destruct (fold_left _ _ _) as [[blk1 m1] refs]. cbn.
    split; [split; [discriminate|lia]|discriminate].
Qed.

(** ** Little-endian string refs *)

Lemma Z_of_byte_of_Z z : Z_of_byte (byte_of_Z z) = z mod 256.
Proof.
  unfold Z_of_byte, byte_of_Z.
  pose proof (Z.mod_pos_bound z 256 eq_refl) as Hb.
  destruct (Byte.of_N (Z.to_N (z mod 256))) as [b|] eqn:E.
  - apply Byte.to_of_N in E. rewrite E. lia.
  - apply Byte.of_N_None_iff in E. lia.
Qed.

Lemma le_encode_length n z : length (le_encode n z) = n.
Proof. revert z. induction n; intros z; cbn; [reflexivity|now rewrite IHn]. Qed.

Lemma le_decode_encode n z : le_decode (le_encode n z) = z mod 256 ^ Z.of_nat n.
Proof.
  revert z. induction n as [|n IH]; intros z.
  - cbn. now rewrite Z.mod_1_r.
  - cbn [le_encode le_decode]. rewrite IH, Z_of_byte_of_Z.
    rewrite Nat2Z.inj_succ, Z.pow_succ_r by lia.
    rewrite Z.rem_mul_r by lia. reflexivity.
Qed.

Lemma write_bytes_in m a l x :
  in_range a (Z.of_nat (length l)) x ->
  write_bytes m a l x = nth (Z.to_nat (x - a)) l x00.
Proof.
  unfold in_range, write_bytes. intros H.
  destruct (Z.leb_spec a x); [|lia].
  destruct (Z.ltb_spec x (a + Z.of_nat (length l))); [|lia]. reflexivity.
Qed.

Lemma write_bytes_out m a l x :
  ~ in_range a (Z.of_nat (length l)) x -> write_bytes m a l x = m x.
Proof.
  unfold in_range, write_bytes. intros H.
  destruct (Z.leb_spec a x); [|reflexivity].
  destruct (Z.ltb_spec x (a + Z.of_nat (length l))); [lia|reflexivity].
Qed.

Lemma read_write_bytes m a l : read_bytes (write_bytes m a l) a (length l) = l.
Proof.
  apply (nth_ext _ _ x00 x00).
  - apply read_bytes_length.
  - intros i Hi. rewrite read_bytes_length in Hi. unfold read_bytes.
    rewrite (nth_indep _ x00 (write_bytes m a l (a + Z.of_nat 0)))
      by (rewrite length_map, length_seq; exact Hi).
    rewrite (map_nth (fun i => write_bytes m a l (a + Z.of_nat i))).
    rewrite seq_nth by exact Hi. cbn [Nat.add].
    rewrite write_bytes_in by (unfold in_range; lia).
    f_equal. lia.
Qed.

Lemma store_ref_out m a v x :
  ~ in_range a (Z.of_nat STRING_REF_SIZE) x -> store_ref m a v x = m x.
Proof.
  intros H. unfold store_ref. apply write_bytes_out.
  now rewrite le_encode_length.
Qed.

Lemma load_store_ref m a v : load_ref (store_ref m a v) a = v mod 2 ^ 64.
Proof.
  unfold load_ref, store_ref.
  rewrite <- (le_encode_length STRING_REF_SIZE v) at 2.
  rewrite read_write_bytes, le_decode_encode. reflexivity.
Qed.

Lemma load_ref_ext m m' a a' :
  (forall x, 0 <= x < Z.of_nat STRING_REF_SIZE -> m (a + x) = m' (a' + x)) ->
  load_ref m a = load_ref m' a'.
Proof. intros H. unfold load_ref. f_equal. apply read_bytes_ext. exact H. Qed.

Lemma load_store_ref_other m a v b :
  disjoint_ranges a (Z.of_nat STRING_REF_SIZE) b (Z.of_nat STRING_REF_SIZE) ->
  load_ref (store_ref m a v) b = load_ref m b.
Proof.
  intros H. apply load_ref_ext. intros x Hx. apply store_ref_out.
  unfold disjoint_ranges, in_range in *. lia.
Qed.

(** ** Relocation *)

Lemma block_at_addr blk base k :
  block_invariant blk base ->
  0 <= k <= LargeTempTableBlock.m_activeTupleCount blk ->
  block_at blk k
  = base + k * TableTuple_tupleLength (LargeTempTableBlock.m_schema blk).
Proof.
  intros Hblk Hk.
  pose proof Hblk as (Hs & (Hb0 & Hb1) & Hl & Hc & Htip & Hle & Hnip).
  unfold block_at, LargeTempTableBlock.begin_, LargeTempTableBlock.address.
  rewrite (of_schema_block blk base _ Hblk), Hs.
  set (L1 := TableTuple_tupleLength (LargeTempTableBlock.m_schema blk)) in *.
  rewrite <- (Z2Nat.id L1) by lia.
  apply (it_index (Z.to_nat L1) (base + BLOCK_SIZE_IN_BYTES) ltac:(lia)
           base (LargeTempTableBlock.m_activeTupleCount blk)); [|exact Hk].
  unfold region_ok, disjoint_ranges. rewrite Z2Nat.id by lia.
  repeat split; lia.
Qed.

Section Relocation.

Variable delta : Z.

Local Abbreviation W := (Z.of_nat STRING_REF_SIZE).

(** Relocating the string refs of one tuple: each ref moves by [delta], no
    other byte changes. *)
Lemma relocate_fields_spec a :
  forall os m,
    offsets_apart os ->
    let m1 := fold_left (fun m off => LargeTempTableBlock.relocate_ref delta m (a + off))
                        os m in
    (forall off, In off os ->
       load_ref m1 (a + off) = (load_ref m (a + off) + delta) mod 2 ^ 64) /\
    (forall x, (forall off, In off os -> ~ in_range (a + off) W x) ->
       m1 x = m x).
Proof.
  induction os as [|o os IH]; intros m Hap m1.
  - split; [intros off []|reflexivity].
  - destruct Hap as (Ho & Hap). subst m1. cbn [fold_left].
    set (m' := LargeTempTableBlock.relocate_ref delta m (a + o)).
    destruct (IH m' Hap) as (IHl & IHf). cbv zeta in IHl, IHf.
    split.
    + intros off [<- | Hin].
      * rewrite (load_ref_ext _ m' (a + o) (a + o)).
        -- apply load_store_ref.
        -- intros x Hx. apply IHf. intros off Hoff.
           specialize (Ho off Hoff). unfold in_range. lia.
      * rewrite (IHl off Hin). f_equal. f_equal.
        apply load_store_ref_other. specialize (Ho off Hin).
        unfold disjoint_ranges. lia.
    + intros x Hx. rewrite IHf.
      * apply store_ref_out. apply Hx. now left.
      * intros off Hoff. apply Hx. now right.
Qed.

Variable schema : TupleSchema.
Hypothesis Hschema : schema_ok schema.

Local Abbreviation L1 := (TableTuple_tupleLength schema).
Local Abbreviation os := (stringRefOffsets schema).

(** Relocating the string refs of the first [c] tuples at [b]. *)
Lemma relocate_tuples_spec b m :
  forall c : nat,
    let mc := fold_left
                (fun m k => LargeTempTableBlock.relocate_tuple schema delta m
                              (b + Z.of_nat k * L1))
                (seq 0 c) m in
    (forall k off, 0 <= k < Z.of_nat c -> In off os ->
       load_ref mc (b + k * L1 + off)
       = (load_ref m (b + k * L1 + off) + delta) mod 2 ^ 64) /\
    (forall x, (forall k off, 0 <= k < Z.of_nat c -> In off os ->
                  ~ in_range (b + k * L1 + off) W x) ->
       mc x = m x).
Proof.
  destruct Hschema as (Hin & Hap).
  induction c as [|c IH]; intros mc.
  - split; [intros; lia|reflexivity].
  - subst mc. rewrite seq_S, fold_left_app. cbn [fold_left Nat.add].
    destruct IH as (IHl & IHf).
    set (mc := fold_left _ (seq 0 c) m) in *.
    unfold LargeTempTableBlock.relocate_tuple.
    destruct (relocate_fields_spec (b + Z.of_nat c * L1) os mc Hap) as (Rl & Rf).
    cbv zeta in Rl, Rf.
    split.
    + intros k off Hk Hoff. pose proof (Hin off Hoff) as Hb.
      unfold TUPLE_HEADER_SIZE in Hb.
      destruct (Z.eq_dec k (Z.of_nat c)) as [->|Hne].
      * rewrite (Rl off Hoff). f_equal. f_equal.
        apply load_ref_ext. intros x Hx. apply IHf.
        intros k' off' Hk' Hoff'. pose proof (Hin off' Hoff') as Hb'.
        unfold TUPLE_HEADER_SIZE in Hb'. unfold in_range. nia.
      * rewrite <- (IHl k off) by (assumption || lia).
        apply load_ref_ext. intros x Hx. apply Rf.
        intros off' Hoff'. pose proof (Hin off' Hoff') as Hb'.
        unfold TUPLE_HEADER_SIZE in Hb'. unfold in_range. nia.
    + intros x Hx. rewrite Rf.
      * apply IHf. intros k off Hk Hoff. apply Hx; (assumption || lia).
      * intros off Hoff. apply Hx; (assumption || lia).
Qed.

End Relocation.

(** C4: a resident block is released and its buffer comes back, byte for
    byte, at address [new]; after [setData(orig, new)] the block is resident
    at [new] with the same tuples: every tuple shows the same column values
    (inline bytes, and objects read through its string refs), every string
    ref is the old one shifted by [new - orig], and every byte of the buffer
    outside the string-ref fields is the byte of the original buffer. *)
Theorem release_then_set_data :
  forall blk orig new m m',
    block_invariant blk orig ->
    schema_ok (LargeTempTableBlock.m_schema blk) ->
    refs_in_block blk orig m ->
    LttBlockIterator.buffer_at new ->
    (forall x, 0 <= x < BLOCK_SIZE_IN_BYTES -> m' (new + x) = m (orig + x)) ->
    let released := LargeTempTableBlock.releaseData blk in
    let reloaded := LargeTempTableBlock.setData (fst released) orig new m' in
    let blk2 := fst reloaded in
    let m2 := snd reloaded in
    snd released = Some orig /\
    LargeTempTableBlock.isResident (fst released) = false /\
    LargeTempTableBlock.isStored (fst released) = true /\
    block_invariant blk2 new /\
    LargeTempTableBlock.activeTupleCount blk2
    = LargeTempTableBlock.activeTupleCount blk /\
    (forall k, 0 <= k < LargeTempTableBlock.activeTupleCount blk ->
       observable blk2 m2 k = observable blk m k) /\
    (forall k off,
       0 <= k < LargeTempTableBlock.activeTupleCount blk ->
       In off (stringRefOffsets (LargeTempTableBlock.m_schema blk)) ->
       load_ref m2 (block_at blk2 k + off)
       = load_ref m (block_at blk k + off) + (new - orig)) /\
    (forall x, 0 <= x < BLOCK_SIZE_IN_BYTES -> ~ is_ref_byte blk x ->
       m2 (new + x) = m (orig + x)).
Proof.
  intros blk orig new m m' Hblk Hschema Hrefs Hnew Hcopy released reloaded blk2 m2.
  pose proof Hblk as (Hs & (Hb0 & Hb1) & Hl & Hc & Htip & Hle & Hnip).
  pose proof Hnew as (Hn0 & Hn1).
  pose proof Hschema as (Hin & Hap).
  pose proof block_size_value as HB.
  unfold LargeTempTableBlock.activeTupleCount in *.
  set (L1 := TableTuple_tupleLength (LargeTempTableBlock.m_schema blk)) in *.
  set (count := LargeTempTableBlock.m_activeTupleCount blk) in *.
  assert (Hblk2 : block_invariant blk2 new).
  { unfold block_invariant, LttBlockIterator.buffer_at.
    subst blk2 reloaded released L1 count.
    unfold TableTuple_tupleLength, TUPLE_HEADER_SIZE in *. cbn.
    repeat split; lia. }
  assert (Hcount2 : LargeTempTableBlock.m_activeTupleCount blk2 = count)
    by reflexivity.
  assert (Hschema2 : LargeTempTableBlock.m_schema blk2
                     = LargeTempTableBlock.m_schema blk) by reflexivity.
  assert (Haddr2 : LargeTempTableBlock.address blk2 = new) by reflexivity.
  assert (Haddr : LargeTempTableBlock.address blk = orig)
    by (unfold LargeTempTableBlock.address; now rewrite Hs).
  assert (Hm2 : m2 = fold_left
                  (fun m k => LargeTempTableBlock.relocate_tuple
                                (LargeTempTableBlock.m_schema blk) (new - orig) m
                                (new + Z.of_nat k * L1))
                  (seq 0 (Z.to_nat count)) m') by reflexivity.
  destruct (relocate_tuples_spec (new - orig) (LargeTempTableBlock.m_schema blk)
              Hschema new m' (Z.to_nat count)) as (Rl & Rf).
  cbv zeta in Rl, Rf. fold L1 in Rl, Rf. rewrite <- Hm2 in Rl, Rf.
  rewrite Z2Nat.id in Rl, Rf by lia.
  (* the string refs *)
  assert (Hload : forall k off, 0 <= k < count ->
            In off (stringRefOffsets (LargeTempTableBlock.m_schema blk)) ->
            load_ref m' (new + k * L1 + off) = load_ref m (orig + k * L1 + off)).
  { intros k off Hk Hoff. pose proof (Hin off Hoff) as Hb.
    unfold TUPLE_HEADER_SIZE in Hb. fold L1 in Hb.
    apply load_ref_ext. intros x Hx.
    replace (new + k * L1 + off + x) with (new + (k * L1 + off + x)) by lia.
    replace (orig + k * L1 + off + x) with (orig + (k * L1 + off + x)) by lia.
    apply Hcopy. unfold STRING_REF_SIZE in *. nia. }
  assert (Hshift : forall k off, 0 <= k < count ->
            In off (stringRefOffsets (LargeTempTableBlock.m_schema blk)) ->
            load_ref m2 (new + k * L1 + off)
            = load_ref m (orig + k * L1 + off) + (new - orig)).
  { intros k off Hk Hoff. rewrite (Rl k off Hk Hoff), (Hload k off Hk Hoff).
    pose proof (Hrefs k off Hk Hoff) as Hp. unfold non_inlined_region in Hp.
    fold L1 in Hp. apply Z.mod_small. lia. }
  (* the other bytes *)
  assert (Hother : forall x, 0 <= x < BLOCK_SIZE_IN_BYTES -> ~ is_ref_byte blk x ->
            m2 (new + x) = m (orig + x)).
  { intros x Hx Hnot. rewrite Rf; [apply Hcopy; exact Hx|].
    intros k off Hk Hoff Hr. apply Hnot. exists k, off.
    fold count L1. repeat split; try assumption; unfold in_range in *; lia. }
  assert (Hat2 : forall k, 0 <= k < count -> block_at blk2 k = new + k * L1).
  { intros k Hk. rewrite (block_at_addr blk2 new k Hblk2) by (rewrite Hcount2; lia).
    rewrite Hschema2. reflexivity. }
  assert (Hat : forall k, 0 <= k < count -> block_at blk k = orig + k * L1).
  { intros k Hk. apply (block_at_addr blk orig k Hblk). fold count. lia. }
  split; [exact Hs|]. split; [reflexivity|]. split; [reflexivity|].
  split; [exact Hblk2|]. split; [reflexivity|].
  split; [|split; [|exact Hother]].
  - intros k Hk. unfold observable. f_equal.
    + unfold inline_columns. rewrite Hschema2. fold L1.
      apply map_ext_in. intros i Hi.
      apply in_map_iff in Hi. destruct Hi as (j & <- & Hj). apply in_seq in Hj.
      destruct (existsb _ _) eqn:E; [reflexivity|]. f_equal.
      rewrite (Hat2 k Hk), (Hat k Hk), <- !Z.add_assoc.
      apply Hother; [nia|].
      intros (k' & off' & Hk' & Hoff' & Hr). fold L1 count in Hk', Hr.
      pose proof (Hin off' Hoff') as Hb. unfold TUPLE_HEADER_SIZE in Hb.
      fold L1 in Hb.
      assert (k' = k) by (unfold in_range, STRING_REF_SIZE in *; nia). subst k'.
      exfalso. apply Bool.diff_true_false.
      rewrite <- E. symmetry. apply existsb_exists. exists off'.
      split; [exact Hoff'|].
      unfold in_range in Hr. apply andb_true_intro.
      split; [apply Z.leb_le|apply Z.ltb_lt]; lia.
    + unfold string_columns. rewrite Hschema2.
      apply map_ext_in. intros off Hoff.
      rewrite (Hat2 k Hk), (Hat k Hk), (Hshift k off Hk Hoff).
      pose proof (Hrefs k off Hk Hoff) as Hp. unfold non_inlined_region in Hp.
      fold L1 in Hp.
      set (p := load_ref m (orig + k * L1 + off)) in *.
      unfold object_at. rewrite Haddr2, Haddr.
      replace (new + BLOCK_SIZE_IN_BYTES - (p + (new - orig)))
        with (orig + BLOCK_SIZE_IN_BYTES - p) by lia.
      apply read_bytes_ext. intros y Hy. rewrite Z2Nat.id in Hy by lia.
      replace (p + (new - orig) + y) with (new + (p - orig + y)) by lia.
      replace (p + y) with (orig + (p - orig + y)) by lia.
      apply Hother; [lia|].
      intros (k' & off' & Hk' & Hoff' & Hr). fold L1 count in Hk', Hr.
      pose proof (Hin off' Hoff') as Hb. unfold TUPLE_HEADER_SIZE in Hb.
      fold L1 in Hb. unfold in_range, STRING_REF_SIZE in *. nia.
  - intros k off Hk Hoff.
    rewrite (Hat2 k Hk), (Hat k Hk). apply Hshift; assumption.
Qed.

(** ** Sort and repack against sort in place *)

(** A stable insertion sort meets the contract of a general sort. *)
Lemma sorted_insert_perm {A : Type} (lt : A -> A -> bool) x l :
  Permutation (sorted_insert lt x l) (x :: l).
Proof.
  induction l as [|y l IH]; cbn; [apply Permutation_refl|].
  destruct (lt y x); [|apply Permutation_refl].
  eapply Permutation_trans; [apply perm_skip, IH|apply perm_swap].
Qed.

Lemma insertion_sort_perm {A : Type} (lt : A -> A -> bool) l :
  Permutation (insertion_sort lt l) l.
Proof.
  induction l as [|x l IH]; cbn; [apply perm_nil|].
  eapply Permutation_trans; [apply sorted_insert_perm|apply perm_skip, IH].
Qed.

Lemma sorted_insert_sorted {A : Type} (lt : A -> A -> bool) x l :
  (forall y, In y l -> lt y x = true -> lt x y = false) ->
  Sorted (fun a b => lt b a = false) l ->
  Sorted (fun a b => lt b a = false) (sorted_insert lt x l).
Proof.
  intros Hasym Hs. induction l as [|y l IH]; cbn.
  - repeat constructor.
  - destruct (lt y x) eqn:E.
    + inversion Hs as [|? ? Hs' Hd]; subst. constructor.
      * apply IH; [|exact Hs']. intros z Hz. apply Hasym. now right.
      * destruct l as [|z l]; cbn.
        -- constructor. apply Hasym; [now left|exact E].
        -- destruct (lt z x).
           ++ inversion Hd; subst. constructor. assumption.
           ++ constructor. apply Hasym; [now left|exact E].
    + constructor; [exact Hs|]. constructor. exact E.
Qed.

Lemma insertion_sort_general {A : Type} :
  general_sort (@insertion_sort A).
Proof.
  intros lt l (Hirr & Htr & _). split; [apply insertion_sort_perm|].
  induction l as [|x l IH]; cbn; [constructor|].
  apply sorted_insert_sorted.
  - intros y Hy Hyx.
    assert (Hyl : In y (x :: l)).
    { right. eapply Permutation_in; [apply insertion_sort_perm|exact Hy]. }
    destruct (lt x y) eqn:E; [|reflexivity].
    rewrite <- (Hirr y Hyl). symmetry.
    apply (Htr y x y); auto. now left.
  - apply IH.
    + intros a Ha. apply Hirr. now right.
    + intros a b c Ha Hb Hc. apply Htr; now right.
Qed.

(** C3, as stated, fails: on the small block, whose comparator has ties,
    the in-place sort and sort-and-repack with a stable general sort leave
    the tuples in different orders. *)
Lemma phase1_strategies_differ :
  in_place_rows Demo.sorter 6 Demo.block Demo.heap0
  <> repack_rows insertion_sort Demo.sorter 6 Demo.block Demo.output Demo.heap0.
Proof.
  intros H.
  assert (E : option_map (map fst) (in_place_rows Demo.sorter 6 Demo.block Demo.heap0)
              = option_map (map fst)
                  (repack_rows insertion_sort Demo.sorter 6 Demo.block
                               Demo.output Demo.heap0))
    by (rewrite H; reflexivity).
  vm_compute in E. discriminate E.
Qed.

Lemma nth_read_bytes m a n i :
  (i < n)%nat -> nth i (read_bytes m a n) x00 = m (a + Z.of_nat i).
Proof.
  intros Hi. unfold read_bytes.
  rewrite (nth_indep _ x00 (m (a + Z.of_nat 0)))
    by (rewrite length_map, length_seq; exact Hi).
  rewrite (map_nth (fun i => m (a + Z.of_nat i))).
  now rewrite seq_nth by exact Hi.
Qed.

(** Consecutive order, from indices to lists. *)
Lemma Sorted_map_seq {A : Type} (R : A -> A -> Prop) (f : nat -> A) :
  forall n s,
    (forall k, (s <= k)%nat -> (S k < s + n)%nat -> R (f k) (f (S k))) ->
    Sorted R (map f (seq s n)).
Proof.
  induction n as [|n IH]; intros s H; cbn; [constructor|].
  constructor.
  - apply IH. intros k Hk1 Hk2. apply H; lia.
  - destruct n; cbn; constructor. apply H; lia.
Qed.

Lemma Sorted_map_in {A B : Type} (R : A -> A -> Prop) (R' : B -> B -> Prop)
    (f : A -> B) (l : list A) :
  (forall a b, In a l -> In b l -> R a b -> R' (f a) (f b)) ->
  Sorted R l -> Sorted R' (map f l).
Proof.
  intros H Hs. induction Hs as [|a l Hs IH Hd]; cbn; [constructor|].
  constructor.
  - apply IH. intros x y Hx Hy. apply H; now right.
  - destruct Hd as [|b l' Hab]; cbn; constructor.
    apply H; [now left|right; now left|exact Hab].
Qed.

(** Under a strict weak ordering without ties on the elements, a sorted
    permutation is unique. *)
Lemma sorted_perm_unique {A : Type} (lt : A -> A -> bool) :
  StrictWeakOrder lt ->
  forall l1 l2,
    (forall a b, In a l1 -> In b l1 ->
       lt a b = false -> lt b a = false -> a = b) ->
    Permutation l1 l2 ->
    Sorted (fun a b => lt b a = false) l1 ->
    Sorted (fun a b => lt b a = false) l2 ->
    l1 = l2.
Proof.
  intros Hswo.
  assert (Htrans : Relations_1.Transitive (fun a b : A => lt b a = false)).
  { intros a b c Hab Hbc. apply (swo_negtrans lt Hswo c b a); assumption. }
  induction l1 as [|a l1 IH]; intros l2 Hties Hp Hs1 Hs2.
  - apply Permutation_nil in Hp. now subst.
  - destruct l2 as [|b l2].
    { apply Permutation_sym, Permutation_nil in Hp. discriminate. }
    apply Sorted_StronglySorted in Hs1; [|exact Htrans].
    apply Sorted_StronglySorted in Hs2; [|exact Htrans].
    inversion Hs1 as [|? ? Hs1' Ha]; subst.
    inversion Hs2 as [|? ? Hs2' Hb]; subst.
    rewrite Forall_forall in Ha, Hb.
    assert (Hab : a = b).
    { assert (Hbin : In b (a :: l1))
        by (eapply Permutation_in; [apply Permutation_sym; exact Hp|now left]).
      assert (Hain : In a (b :: l2))
        by (eapply Permutation_in; [exact Hp|now left]).
      apply Hties; [now left|exact Hbin| |].
      - destruct Hain as [->|Hain]; [apply (swo_irrefl lt Hswo)|].
        apply Hb. exact Hain.
      - destruct Hbin as [->|Hbin]; [apply (swo_irrefl lt Hswo)|].
        apply Ha. exact Hbin. }
    subst b. f_equal. apply IH.
    + intros x y Hx Hy. apply Hties; now right.
    + eapply Permutation_cons_inv. exact Hp.
    + apply StronglySorted_Sorted. exact Hs1'.
    + apply StronglySorted_Sorted. exact Hs2'.
Qed.

(** ** The output block of sort and repack *)

Section Repack.

Variables blkIn blkOut : LargeTempTableBlock.t.
Variables inb outb : Z.
Variable m : mem.
Hypothesis HIn : block_invariant blkIn inb.
Hypothesis HOut : output_for blkOut blkIn outb inb.
Hypothesis Hschema : schema_ok (LargeTempTableBlock.m_schema blkIn).
Hypothesis Hrefs : refs_in_block blkIn inb m.

Local Abbreviation sch := (LargeTempTableBlock.m_schema blkIn).
Local Abbreviation L1 := (TableTuple_tupleLength (LargeTempTableBlock.m_schema blkIn)).
Local Abbreviation n := (LargeTempTableBlock.m_activeTupleCount blkIn).
Local Abbreviation nip := (LargeTempTableBlock.m_nonInlinedInsertionPoint blkIn).
Local Abbreviation os := (stringRefOffsets (LargeTempTableBlock.m_schema blkIn)).
Local Abbreviation W := (Z.of_nat STRING_REF_SIZE).

(** [BOOST_FOREACH] over the input block visits its tuples in order. *)
Lemma foreach_from :
  forall (r : nat) (k : Z) (fuel : nat),
    0 <= k -> k + Z.of_nat r = n -> (r <= fuel)%nat ->
    foreach_tuple fuel (LttBlockIterator.mk L1 (inb + k * L1))
                       (LttBlockIterator.mk L1 (inb + n * L1))
    = map (fun i => inb + Z.of_nat i * L1) (seq (Z.to_nat k) r).
Proof.
  pose proof HIn as (Hs & (Hb0 & Hb1) & Hl & Hc & Htip & Hle & Hnip).
  pose proof block_size_value as HB.
  induction r as [|r IH]; intros k fuel Hk Hkr Hfuel.
  - replace k with n by lia. destruct fuel; [reflexivity|].
    cbn. unfold LttBlockIterator.neqb. cbn. now rewrite Z.eqb_refl.
  - destruct fuel as [|fuel]; [lia|]. cbn [foreach_tuple].
    unfold LttBlockIterator.neqb, LttBlockIterator.deref, LttBlockIterator.incr.
    cbn [LttBlockIterator.m_tupleAddress LttBlockIterator.m_tupleLength].
    destruct (Z.eqb_spec (inb + k * L1) (inb + n * L1)) as [E|_]; [nia|].
    cbn [negb seq map]. rewrite Z2Nat.id by lia. f_equal.
    rewrite ptr_small by (unfold Word.is_ptr; nia).
    replace (inb + k * L1 + L1) with (inb + (k + 1) * L1) by lia.
    rewrite (IH (k + 1) fuel) by lia.
    replace (Z.to_nat (k + 1)) with (S (Z.to_nat k)) by lia. reflexivity.
Qed.

Lemma foreach_block fuel :
  (Z.to_nat n <= fuel)%nat ->
  foreach_tuple fuel (LargeTempTableBlock.begin_ blkIn)
                     (LargeTempTableBlock.end_ blkIn)
  = map (fun i => inb + Z.of_nat i * L1) (seq 0 (Z.to_nat n)).
Proof.
  intros Hfuel.
  pose proof HIn as (Hs & _ & _ & Hc & Htip & _).
  unfold LargeTempTableBlock.begin_, LargeTempTableBlock.end_,
    LargeTempTableBlock.address.
  rewrite !(of_schema_block blkIn inb _ HIn), Hs, Htip.
  replace inb with (inb + 0 * L1) at 1 by lia.
  apply (foreach_from (Z.to_nat n) 0 fuel); lia.
Qed.

(** The heap after [copyNonInlinedData]. *)
Lemma copy_non_inlined_heap :
  let m1 := snd (LargeTempTableBlock.copyNonInlinedData blkOut blkIn m) in
  (forall x, nip - inb <= x < BLOCK_SIZE_IN_BYTES -> m1 (outb + x) = m (inb + x)) /\
  (forall y, ~ in_range (outb + (nip - inb)) (inb + BLOCK_SIZE_IN_BYTES - nip) y ->
     m1 y = m y).
Proof.
  pose proof HIn as (Hs & _).
  pose proof HOut as ((Hso & _) & _).
  unfold LargeTempTableBlock.copyNonInlinedData, LargeTempTableBlock.address.
  rewrite Hs, Hso. cbn [snd].
  split.
  - intros x Hx. rewrite memcpy_in by (unfold in_range; lia). f_equal. lia.
  - intros y Hy. apply memcpy_out. unfold in_range in *. lia.
Qed.

Local Abbreviation out_at j := (repack_block blkIn blkOut inb outb j).

Lemma copy_non_inlined_block :
  fst (LargeTempTableBlock.copyNonInlinedData blkOut blkIn m) = out_at 0.
Proof.
  pose proof HIn as (Hs & _).
  destruct HOut as ((Hso & _ & _ & _ & Htip & _) & Hcount & Hnip & Hsch & _).
  unfold LargeTempTableBlock.copyNonInlinedData, LargeTempTableBlock.address,
    LargeTempTableBlock.set_layout, repack_block.
  rewrite Hs, Hso, Hsch, Htip, Hcount. cbn [fst]. f_equal; lia.
Qed.

Local Abbreviation copied k h mf := (repacked blkIn inb outb m k h mf).

Local Abbreviation m1 := (snd (LargeTempTableBlock.copyNonInlinedData blkOut blkIn m)).

Lemma input_byte_kept mj j x :
  0 <= j <= n ->
  (forall y, ~ in_range outb (j * L1) y -> mj y = m1 y) ->
  in_range inb BLOCK_SIZE_IN_BYTES x -> mj x = m x.
Proof.
  intros Hj Hinv Hx.
  pose proof HIn as (Hs & (Hb0 & Hb1) & Hl & Hc & Htip & Hle & Hnip).
  destruct HOut as (_ & _ & _ & _ & Hd).
  pose proof copy_non_inlined_heap as (_ & Hout). cbv zeta in Hout.
  unfold disjoint_ranges, in_range in *.
  rewrite Hinv by nia. apply Hout. lia.
Qed.

Lemma insert_relocated j mj k :
  0 <= j < n -> 0 <= k < n ->
  (forall y, ~ in_range outb (j * L1) y -> mj y = m1 y) ->
  exists mj',
    LargeTempTableBlock.insertTupleRelocateNonInlinedFields
      (out_at j) mj (toTableTuple (inb + k * L1) sch) inb
    = (true, out_at (j + 1), mj') /\
    (forall y, ~ in_range (outb + j * L1) L1 y -> mj' y = mj y) /\
    copied j (inb + k * L1) mj'.
Proof.
  intros Hj Hk Hinv.
  pose proof HIn as (Hs & (Hb0 & Hb1) & Hl & Hc & Htip & Hle & Hnip).
  pose proof HOut as ((Hso & (Ho0 & Ho1) & _) & _ & _ & _ & Hd).
  pose proof Hschema as (Hin & Hap).
  pose proof block_size_value as HB.
  unfold LargeTempTableBlock.insertTupleRelocateNonInlinedFields.
  cbn [repack_block LargeTempTableBlock.m_nonInlinedInsertionPoint
       LargeTempTableBlock.m_tupleInsertionPoint LargeTempTableBlock.m_schema
       LargeTempTableBlock.address LargeTempTableBlock.m_storage
       toTableTuple tt_address].
  destruct (Z.ltb_spec (outb + (nip - inb) - (outb + j * L1)) L1) as [Hlt|_];
    [nia|].
  unfold LargeTempTableBlock.relocate_tuple.
  set (mc := memcpy mj (outb + j * L1) (inb + k * L1) L1).
  destruct (relocate_fields_spec (outb - inb) (outb + j * L1) os mc Hap)
    as (Rl & Rf).
  cbv zeta in Rl, Rf.
  eexists. split; [|split].
  - f_equal. f_equal. unfold LargeTempTableBlock.set_layout, repack_block. cbn.
    f_equal. lia.
  - intros y Hy. rewrite Rf.
    + apply memcpy_out. exact Hy.
    + intros off Hoff Hr. apply Hy. pose proof (Hin off Hoff) as Hb.
      unfold TUPLE_HEADER_SIZE, in_range, STRING_REF_SIZE in *. lia.
  - assert (Hbyte : forall y, 0 <= y < L1 ->
              mc (outb + j * L1 + y) = m (inb + k * L1 + y)).
    { intros y Hy. unfold mc. rewrite memcpy_in by (unfold in_range; lia).
      replace (inb + k * L1 + (outb + j * L1 + y - (outb + j * L1)))
        with (inb + k * L1 + y) by lia.
      apply (input_byte_kept mj j); [lia|exact Hinv|].
      unfold in_range. nia. }
    split.
    + intros off Hoff. pose proof (Hin off Hoff) as Hb.
      unfold TUPLE_HEADER_SIZE in Hb.
      rewrite (Rl off Hoff).
      rewrite (load_ref_ext mc m (outb + j * L1 + off) (inb + k * L1 + off)).
      * pose proof (Hrefs k off Hk Hoff) as Hp. unfold non_inlined_region in Hp.
        apply Z.mod_small. unfold disjoint_ranges in Hd. lia.
      * intros x Hx.
        replace (outb + j * L1 + off + x) with (outb + j * L1 + (off + x)) by lia.
        replace (inb + k * L1 + off + x) with (inb + k * L1 + (off + x)) by lia.
        apply Hbyte. unfold STRING_REF_SIZE in *. lia.
    + intros y Hy Hnot. rewrite Rf.
      * apply Hbyte. exact Hy.
      * intros off Hoff Hr. apply (Hnot off Hoff). unfold in_range in *. lia.
Qed.

Lemma repacked_same k h mf mf' :
  0 <= k ->
  (forall y, in_range (outb + k * L1) L1 y -> mf y = mf' y) ->
  copied k h mf' -> copied k h mf.
Proof.
  intros Hk E (Hl & Hb).
  pose proof Hschema as (Hin & _).
  split.
  - intros off Hoff. rewrite <- (Hl off Hoff).
    apply load_ref_ext. intros x Hx. apply E.
    pose proof (Hin off Hoff) as Hbd.
    unfold TUPLE_HEADER_SIZE, in_range, STRING_REF_SIZE in *. lia.
  - intros y Hy Hnot. rewrite <- (Hb y Hy Hnot). apply E.
    unfold in_range. lia.
Qed.

(** The loop that fills the output block. *)
Lemma repack_loop :
  forall (hs : list TableTuple) j mj,
    0 <= j -> j + Z.of_nat (length hs) <= n ->
    (forall h, In h hs ->
       exists k, 0 <= k < n /\ h = toTableTuple (inb + k * L1) sch) ->
    (forall y, ~ in_range outb (j * L1) y -> mj y = m1 y) ->
    exists mf,
      fold_left (repack_step inb) hs (Some (out_at j, mj))
      = Some (out_at (j + Z.of_nat (length hs)), mf) /\
      (forall y, ~ in_range (outb + j * L1) (Z.of_nat (length hs) * L1) y ->
         mf y = mj y) /\
      (forall i h, nth_error hs i = Some h ->
         copied (j + Z.of_nat i) (tt_address h) mf).
Proof.
  pose proof HIn as (Hs & (Hb0 & Hb1) & Hl & Hc & Htip & Hle & Hnip).
  induction hs as [|h hs IH]; intros j mj Hj Hlen Hh Hinv.
  - exists mj. cbn [fold_left length]. replace (j + Z.of_nat 0) with j by lia.
    split; [reflexivity|]. split; [reflexivity|].
    intros [|i] h' E; discriminate E.
  - destruct (Hh h (or_introl eq_refl)) as (k & Hk & ->).
    cbn [length] in Hlen.
    destruct (insert_relocated j mj k ltac:(lia) Hk Hinv)
      as (mj' & E & Hf & Hcp).
    cbn [fold_left repack_step]. rewrite E.
    destruct (IH (j + 1) mj' ltac:(lia) ltac:(lia)) as (mf & Ef & Hff & Hcf).
    { intros h' Hh'. apply Hh. now right. }
    { intros y Hy. rewrite Hf by (unfold in_range in *; nia).
      apply Hinv. unfold in_range in *. nia. }
    exists mf. cbn [length].
    replace (j + Z.of_nat (S (length hs)))
      with (j + 1 + Z.of_nat (length hs)) by lia.
    split; [exact Ef|]. split.
    + intros y Hy. rewrite Hff by (unfold in_range in *; nia).
      apply Hf. unfold in_range in *. nia.
    + intros [|i] h' Eh; cbn [nth_error] in Eh.
      * injection Eh as <-. replace (j + Z.of_nat 0) with j by lia.
        apply (repacked_same j _ mf mj'); [lia| |exact Hcp].
        intros y Hy. apply Hff. unfold in_range in *. nia.
      * replace (j + Z.of_nat (S i)) with (j + 1 + Z.of_nat i) by lia.
        apply Hcf. exact Eh.
Qed.

Lemma repack_block_invariant j :
  0 <= j <= n -> block_invariant (out_at j) outb.
Proof.
  intros Hj.
  pose proof HIn as (Hs & (Hb0 & Hb1) & Hl & Hc & Htip & Hle & Hnip).
  pose proof HOut as ((Hso & Hbo & _) & _).
  unfold block_invariant, repack_block.
  cbn [LargeTempTableBlock.m_storage LargeTempTableBlock.m_schema
       LargeTempTableBlock.m_activeTupleCount
       LargeTempTableBlock.m_tupleInsertionPoint
       LargeTempTableBlock.m_nonInlinedInsertionPoint].
  split; [reflexivity|]. split; [exact Hbo|].
  repeat split; try lia; nia.
Qed.

(** What a reader observes of a repacked tuple is what the tuple value at
    its handle shows in the input block. *)
Lemma observable_repacked k k' mf :
  0 <= k < n -> 0 <= k' < n ->
  copied k (inb + k' * L1) mf ->
  (forall y, ~ in_range outb (n * L1) y -> mf y = m1 y) ->
  observable (out_at n) mf k
  = row_of_value blkIn m (tuple_at (Z.to_nat L1) m (inb + k' * L1)).
Proof.
  intros Hk Hk' (Hcl & Hcb) Hframe.
  pose proof HIn as (Hs & (Hb0 & Hb1) & Hl & Hc & Htip & Hle & Hnip).
  pose proof Hschema as (Hin & _).
  pose proof copy_non_inlined_heap as (Hcopy & _). cbv zeta in Hcopy.
  assert (Hat : block_at (out_at n) k = outb + k * L1).
  { rewrite (block_at_addr (out_at n) outb k (repack_block_invariant n ltac:(lia)));
      [reflexivity|]. cbn. lia. }
  unfold observable, row_of_value. f_equal.
  - unfold inline_columns.
    change (LargeTempTableBlock.m_schema (out_at n)) with sch.
    apply map_ext_in. intros i Hi.
    apply in_map_iff in Hi. destruct Hi as (i0 & <- & Hi0). apply in_seq in Hi0.
    destruct (existsb _ _) eqn:E; [reflexivity|]. f_equal.
    rewrite Hat, Nat2Z.id. unfold tuple_at.
    rewrite nth_read_bytes by lia.
    apply Hcb; [lia|].
    intros off Hoff Hr. apply Bool.diff_true_false. rewrite <- E.
    symmetry. apply existsb_exists. exists off. split; [exact Hoff|].
    unfold in_range in Hr. apply andb_true_intro.
    split; [apply Z.leb_le|apply Z.ltb_lt]; lia.
  - unfold string_columns.
    change (LargeTempTableBlock.m_schema (out_at n)) with sch.
    apply map_ext_in. intros off Hoff.
    pose proof (Hin off Hoff) as Hbd. unfold TUPLE_HEADER_SIZE in Hbd.
    rewrite Hat, (Hcl off Hoff). unfold tuple_at.
    rewrite (read_bytes_sub m _ (Z.to_nat L1) (Z.to_nat off) STRING_REF_SIZE)
      by (unfold STRING_REF_SIZE in *; lia).
    rewrite Z2Nat.id by lia.
    change (le_decode (read_bytes m (inb + k' * L1 + off) STRING_REF_SIZE))
      with (load_ref m (inb + k' * L1 + off)).
    pose proof (Hrefs k' off Hk' Hoff) as Hp. unfold non_inlined_region in Hp.
    remember (load_ref m (inb + k' * L1 + off)) as p eqn:Ep. clear Ep.
    unfold object_at, LargeTempTableBlock.address. rewrite Hs.
    cbn [repack_block LargeTempTableBlock.m_storage].
    replace (outb + BLOCK_SIZE_IN_BYTES - (p + (outb - inb)))
      with (inb + BLOCK_SIZE_IN_BYTES - p) by lia.
    apply read_bytes_ext. intros y Hy. rewrite Z2Nat.id in Hy by lia.
    rewrite Hframe by (unfold in_range; nia).
    replace (p + (outb - inb) + y) with (outb + (p - inb + y)) by lia.
    rewrite Hcopy by lia. f_equal. lia.
Qed.

End Repack.

Lemma map_seq_nth_error {A B : Type} (f : nat -> B) (g : A -> B) (l : list A) :
  forall s,
    (forall i a, nth_error l i = Some a -> f (s + i)%nat = g a) ->
    map f (seq s (length l)) = map g l.
Proof.
  induction l as [|a l IH]; intros s H; cbn; [reflexivity|]. f_equal.
  - rewrite <- (H 0%nat a eq_refl). f_equal. lia.
  - apply IH. intros i b Hb. rewrite <- (H (S i) b Hb). f_equal. lia.
Qed.

(** What a reader observes of a tuple of a rearranged block is what its
    value shows in the block before. *)
Lemma observable_in_place blk base m m' k :
  block_invariant blk base ->
  schema_ok (LargeTempTableBlock.m_schema blk) ->
  refs_in_block blk base m ->
  (forall x, non_inlined_region blk base x -> m' x = m x) ->
  0 <= k < LargeTempTableBlock.m_activeTupleCount blk ->
  let len := Z.to_nat (TableTuple_tupleLength (LargeTempTableBlock.m_schema blk)) in
  let a := base + k * TableTuple_tupleLength (LargeTempTableBlock.m_schema blk) in
  In (tuple_at len m' a) (block_tuples blk m) ->
  observable blk m' k = row_of_value blk m (tuple_at len m' a).
Proof.
  intros Hblk Hschema Hrefs Hfix Hk len a Hin.
  pose proof Hblk as (Hs & (Hb0 & Hb1) & Hl & Hc & Htip & Hle & Hnip).
  pose proof Hschema as (Hoffs & _).
  assert (Hat : block_at blk k = a)
    by (apply (block_at_addr blk base k Hblk); lia).
  assert (HlenL : Z.of_nat len
                  = TableTuple_tupleLength (LargeTempTableBlock.m_schema blk))
    by (subst len; lia).
  unfold observable, row_of_value. f_equal.
  - unfold inline_columns. apply map_ext_in. intros i Hi.
    apply in_map_iff in Hi. destruct Hi as (i0 & <- & Hi0). apply in_seq in Hi0.
    destruct (existsb _ _); [reflexivity|]. f_equal.
    rewrite Hat, Nat2Z.id. unfold tuple_at.
    rewrite nth_read_bytes by (subst len; lia). reflexivity.
  - unfold string_columns. apply map_ext_in. intros off Hoff.
    pose proof (Hoffs off Hoff) as Hbd. unfold TUPLE_HEADER_SIZE in Hbd.
    rewrite Hat.
    assert (Hdec : forall mm aa,
              le_decode (firstn STRING_REF_SIZE
                           (skipn (Z.to_nat off) (tuple_at len mm aa)))
              = load_ref mm (aa + off)).
    { intros mm aa. unfold tuple_at.
      rewrite (read_bytes_sub mm aa len (Z.to_nat off) STRING_REF_SIZE)
        by (subst len; unfold STRING_REF_SIZE in *; lia).
      rewrite Z2Nat.id by lia. reflexivity. }
    assert (Hp : non_inlined_region blk base (load_ref m' (a + off))).
    { rewrite <- Hdec.
      rewrite (block_tuples_eq blk base Hblk) in Hin.
      unfold tuples in Hin. apply in_map_iff in Hin.
      destruct Hin as (j & Hj & Hjs). apply in_seq in Hjs.
      fold len in Hj. rewrite <- Hj, Hdec.
      rewrite HlenL. apply Hrefs; [lia|exact Hoff]. }
    rewrite Hdec.
    remember (load_ref m' (a + off)) as p eqn:Ep. clear Ep.
    unfold non_inlined_region in Hp.
    unfold object_at. apply read_bytes_ext. intros y Hy.
    unfold LargeTempTableBlock.address in Hy. rewrite Hs in Hy.
    rewrite Z2Nat.id in Hy by lia.
    apply Hfix. unfold non_inlined_region. lia.
Qed.

(** C3, amended: under a comparator that is a strict weak ordering with no
    two distinct tuples of the block equivalent, and with a general sort
    that meets its contract, sorting the block in place and sort-and-repack
    into an empty block both return, and a reader sees the same rows in the
    same order in the sorted block and in the output block. *)
Theorem phase1_strategies_agree_without_ties :
  forall std_sort this blockInput blockOutput inb outb m lt fuel,
    general_sort std_sort ->
    block_invariant blockInput inb ->
    output_for blockOutput blockInput outb inb ->
    sorter_for this blockInput inb ->
    schema_ok (LargeTempTableBlock.m_schema blockInput) ->
    refs_in_block blockInput inb m ->
    block_comparator this blockInput inb m lt ->
    no_ties blockInput m lt ->
    (Z.to_nat (LargeTempTableBlock.activeTupleCount blockInput) < fuel)%nat ->
    exists rows,
      in_place_rows this fuel blockInput m = Some rows /\
      repack_rows std_sort this fuel blockInput blockOutput m = Some rows.
Proof.
  intros std_sort this blkIn blkOut inb outb m lt fuel
         Hgen HIn HOut Hsorter Hschema Hrefs Hcmp Hties Hfuel.
  unfold LargeTempTableBlock.activeTupleCount in Hfuel.
  pose proof HIn as (Hs & (Hb0 & Hb1) & Hl & Hc & Htip & Hle & Hnip).
  pose proof Hsorter as (Hsch & _).
  pose proof Hcmp as (Hof & Hswo).
  set (L1 := TableTuple_tupleLength (LargeTempTableBlock.m_schema blkIn)) in *.
  set (n := LargeTempTableBlock.m_activeTupleCount blkIn) in *.
  set (len := Z.to_nat L1) in *.
  assert (HlenL : Z.of_nat len = L1) by (subst len; lia).
  assert (Hlenpos : (0 < len)%nat) by lia.
  set (row := row_of_value blkIn m).
  set (val := fun h : TableTuple => tuple_at len m (tt_address h)).
  (* in place *)
  destruct (block_sort_run this blkIn inb HIn Hsorter m lt fuel Hfuel)
    as (st' & E1 & Hr & Hs1).
  destruct (Hs1 Hcmp) as (Hsorted & _).
  fold L1 n len in Hr, Hsorted.
  set (V1 := tuples len (LTTBlockSorter.heap st') inb (Z.to_nat n)).
  set (V0 := tuples len m inb (Z.to_nat n)).
  assert (HV0 : block_tuples blkIn m = V0) by apply (block_tuples_eq blkIn inb HIn).
  assert (Hp1 : Permutation V1 V0) by apply Hr.
  assert (Hsorted1 : Sorted (fun a b => lt b a = false) V1).
  { unfold V1, tuples. apply Sorted_map_seq. intros k _ Hk.
    replace (Z.of_nat (S k)) with (Z.of_nat k + 1) by lia.
    apply Hsorted; lia. }
  assert (Hrows1 : block_rows blkIn (LTTBlockSorter.heap st') = map row V1).
  { unfold block_rows, V1, tuples. rewrite map_map. fold n.
    apply map_ext_in. intros k Hk. apply in_seq in Hk.
    rewrite HlenL.
    apply (observable_in_place blkIn inb m _ (Z.of_nat k) HIn Hschema Hrefs).
    - intros x Hx.
      destruct (block_fixed_apart this blkIn inb HIn Hsorter x Hx).
      apply Hr; assumption.
    - fold n. lia.
    - rewrite HV0. fold L1 len. apply (Permutation_in _ Hp1).
      unfold V1. rewrite <- HlenL.
      apply (In_tuples len Hlenpos). lia. }
  (* sort and repack *)
  set (handles := map (fun a => toTableTuple a (LTTBlockSorter.m_schema this))
               (map (fun i => inb + Z.of_nat i * L1) (seq 0 (Z.to_nat n)))).
  assert (HvalH0 : map val handles = V0).
  { unfold handles, V0, tuples. rewrite !map_map. apply map_ext. intros i.
    unfold val. cbn. rewrite HlenL. reflexivity. }
  assert (HH0 : forall h, In h handles ->
            exists k, 0 <= k < n /\
              h = toTableTuple (inb + k * L1) (LargeTempTableBlock.m_schema blkIn)).
  { intros h Hh. unfold handles in Hh. rewrite map_map in Hh.
    apply in_map_iff in Hh. destruct Hh as (i & <- & Hi). apply in_seq in Hi.
    exists (Z.of_nat i). rewrite Hsch. split; [lia|reflexivity]. }
  assert (Hcmpval : forall a b, In a handles -> In b handles ->
            LTTBlockSorter.m_compare this m a b = lt (val a) (val b)).
  { intros a b Ha Hb.
    destruct (HH0 a Ha) as (ka & Hka & ->). destruct (HH0 b Hb) as (kb & Hkb & ->).
    rewrite <- Hsch. unfold val. cbn [toTableTuple tt_address].
    apply Hof; [reflexivity| |]; rewrite HV0; fold L1 len; rewrite <- HlenL;
      apply (In_tuples len Hlenpos); lia. }
  assert (Hswo0 : swo_on handles (LTTBlockSorter.m_compare this m)).
  { split; [|split]; [| |intros a b c Ha Hb Hc' Hab Hba Hbc Hcb; split].
    - intros a Ha. rewrite Hcmpval by assumption. apply (swo_irrefl lt Hswo).
    - intros a b c Ha Hb Hc'. rewrite !Hcmpval by assumption.
      apply (swo_trans lt Hswo).
    - rewrite !Hcmpval in * by assumption.
      destruct Hswo as (_ & _ & Hinc). eapply Hinc; eassumption.
    - rewrite !Hcmpval in * by assumption.
      destruct Hswo as (_ & _ & Hinc). eapply Hinc; eassumption. }
  destruct (Hgen (LTTBlockSorter.m_compare this m) handles Hswo0) as (Hp2 & Hsorted2).
  set (hs := std_sort (LTTBlockSorter.m_compare this m) handles) in *.
  set (V2 := map val hs).
  assert (HpV2 : Permutation V2 V0).
  { rewrite <- HvalH0. apply Permutation_map. exact Hp2. }
  assert (HsV2 : Sorted (fun a b => lt b a = false) V2).
  { apply (Sorted_map_in
             (fun a b => LTTBlockSorter.m_compare this m b a = false)
             (fun a b => lt b a = false) val hs); [|exact Hsorted2].
    intros a b Ha Hb.
    rewrite Hcmpval; [auto|apply (Permutation_in _ Hp2 Hb)
                          |apply (Permutation_in _ Hp2 Ha)]. }
  assert (HV : V1 = V2).
  { apply (sorted_perm_unique lt Hswo); try assumption.
    - intros a b Ha Hb.
      apply Hties; rewrite HV0;
        [apply (Permutation_in _ Hp1 Ha)|apply (Permutation_in _ Hp1 Hb)].
    - eapply Permutation_trans; [exact Hp1|apply Permutation_sym; exact HpV2]. }
  assert (Hlen_hs : length hs = Z.to_nat n).
  { rewrite (Permutation_length Hp2). unfold handles.
    now rewrite !length_map, length_seq. }
  destruct (repack_loop blkIn blkOut inb outb m HIn HOut Hschema Hrefs hs 0
              (snd (LargeTempTableBlock.copyNonInlinedData blkOut blkIn m)))
    as (mf & Eloop & Hframe & Hcopied).
  { lia. }
  { fold n. lia. }
  { intros h Hh. apply HH0. apply (Permutation_in _ Hp2 Hh). }
  { reflexivity. }
  fold L1 n in Eloop, Hframe, Hcopied.
  replace (0 + Z.of_nat (length hs)) with n in Eloop by lia.
  exists (map row V1). split.
  - unfold in_place_rows. rewrite E1. cbn [option_map]. now rewrite Hrows1.
  - unfold repack_rows, sortTuplesStdSort.
    rewrite (foreach_block blkIn inb HIn fuel) by (fold n; lia).
    fold L1 n handles hs.
    pose proof (copy_non_inlined_block blkIn blkOut inb outb m HIn HOut) as Hcb.
    assert (Haddr : LargeTempTableBlock.address blkIn = inb)
      by (unfold LargeTempTableBlock.address; now rewrite Hs).
    rewrite Haddr.
    destruct (LargeTempTableBlock.copyNonInlinedData blkOut blkIn m)
      as [out mc] eqn:Ecp.
    cbn [fst snd] in Hcb, Eloop, Hframe. subst out.
    transitivity
      (option_map
         (fun r : LargeTempTableBlock.t * mem => block_rows (fst r) (snd r))
         (Some (repack_block blkIn blkOut inb outb n, mf)));
      [f_equal; exact Eloop|].
    cbn [option_map fst snd]. f_equal.
    rewrite HV. unfold V2. rewrite map_map.
    unfold block_rows.
    cbn [repack_block LargeTempTableBlock.m_activeTupleCount].
    rewrite <- Hlen_hs.
    apply (map_seq_nth_error _ _ hs 0). intros i h Hi.
    cbn [Nat.add].
    assert (Hilt : (i < length hs)%nat) by (apply nth_error_Some; congruence).
    destruct (HH0 h) as (k' & Hk' & Eh).
    { eapply Permutation_in; [exact Hp2|]. eapply nth_error_In. exact Hi. }
    specialize (Hcopied i h Hi). rewrite Eh in Hcopied |- *.
    cbn [toTableTuple tt_address] in Hcopied. unfold row, val.
    cbn [toTableTuple tt_address].
    apply (observable_repacked blkIn blkOut inb outb m HIn HOut Hschema Hrefs
             (Z.of_nat i) k' mf); try (fold n; lia).
    + replace (0 + Z.of_nat i) with (Z.of_nat i) in Hcopied by lia. exact Hcopied.
    + intros y Hy. rewrite Ecp. cbn [snd]. apply Hframe.
      replace (outb + 0 * L1) with outb by lia.
      rewrite Hlen_hs, Z2Nat.id by lia. exact Hy.
Qed.

Lemma phase1_strategies_agree_without_ties_witness :
  exists rows,
    in_place_rows Demo.sorter 6 Demo.block Demo.heap1 = Some rows /\
    repack_rows insertion_sort Demo.sorter 6 Demo.block Demo.output Demo.heap1
    = Some rows.
Proof.
  apply (phase1_strategies_agree_without_ties insertion_sort Demo.sorter
           Demo.block Demo.output Demo.base Demo.new_base Demo.heap1
           (Demo.lt_in Demo.heap1) 6).
  - exact insertion_sort_general.
  - exact demo_block_invariant.
  - exact demo_output_for.
  - exact demo_sorter_for.
  - exact demo_schema_ok.
  - exact (demo_refs_in_block Demo.distinct_keys eq_refl).
  - exact (demo_comparator_of Demo.distinct_keys).
  - exact demo_no_ties.
  - cbn. lia.
Defined.

Lemma release_then_set_data_witness :
  let reloaded :=
    LargeTempTableBlock.setData
      (fst (LargeTempTableBlock.releaseData Demo.block))
      Demo.base Demo.new_base Demo.moved_heap in
  block_invariant (fst reloaded) Demo.new_base /\
  (forall k, 0 <= k < LargeTempTableBlock.activeTupleCount Demo.block ->
     observable (fst reloaded) (snd reloaded) k
     = observable Demo.block Demo.heap0 k) /\
  (forall x, 0 <= x < BLOCK_SIZE_IN_BYTES -> ~ is_ref_byte Demo.block x ->
     snd reloaded (Demo.new_base + x) = Demo.heap0 (Demo.base + x)).
Proof.
  destruct (release_then_set_data Demo.block Demo.base Demo.new_base
              Demo.heap0 Demo.moved_heap)
    as (_ & _ & _ & Hinv & _ & Hobs & _ & Hbytes).
  - exact demo_block_invariant.
  - exact demo_schema_ok.
  - exact (demo_refs_in_block Demo.keys eq_refl).
  - unfold LttBlockIterator.buffer_at, Demo.new_base, BLOCK_SIZE_IN_BYTES. lia.
  - intros x Hx. unfold Demo.moved_heap. f_equal. lia.
  - intros reloaded. subst reloaded.
    split; [exact Hinv|]. split; [exact Hobs|exact Hbytes].
Defined.

(** * More properties of the iterator and of the block *)

Lemma ptr_sub_add a d : Word.is_ptr a -> Word.ptr (Word.ptr (a - d) + d) = a.
Proof.
  intros H. unfold Word.ptr.
  rewrite Zplus_mod, Zmod_mod, <- Zplus_mod.
  replace (a - d + d) with a by lia.
  apply Z.mod_small. exact H.
Qed.

(** X1: [++] and [--] undo each other on every iterator whose address is a
    machine address; the postfix forms return the iterator as it was and
    leave the moved one; and for a tuple length that is an [int], [++it] is
    [it + 1] and [--it] is [it - 1]. *)
Theorem increment_decrement_round_trip :
  forall it,
    Word.is_ptr (LttBlockIterator.m_tupleAddress it) ->
    - 2 ^ 31 <= LttBlockIterator.m_tupleLength it < 2 ^ 31 ->
    LttBlockIterator.decr (LttBlockIterator.incr it) = it /\
    LttBlockIterator.incr (LttBlockIterator.decr it) = it /\
    post_increment it = (it, LttBlockIterator.incr it) /\
    post_decrement it = (it, LttBlockIterator.decr it) /\
    snd (post_decrement (snd (post_increment it))) = it /\
    LttBlockIterator.incr it = LttBlockIterator.plus it 1 /\
    LttBlockIterator.decr it = LttBlockIterator.minus it 1.
Proof.
  intros [len a] Ha Hlen.
  cbn [LttBlockIterator.m_tupleAddress LttBlockIterator.m_tupleLength] in *.
  assert (Hd : LttBlockIterator.decr
                 (LttBlockIterator.incr (LttBlockIterator.mk len a))
               = LttBlockIterator.mk len a).
  { unfold LttBlockIterator.decr, LttBlockIterator.incr.
    cbn [LttBlockIterator.m_tupleAddress LttBlockIterator.m_tupleLength].
    f_equal. apply ptr_add_sub. exact Ha. }
  repeat split.
  - exact Hd.
  - unfold LttBlockIterator.decr, LttBlockIterator.incr.
    cbn [LttBlockIterator.m_tupleAddress LttBlockIterator.m_tupleLength].
    f_equal. apply ptr_sub_add. exact Ha.
  - unfold post_decrement, post_increment. cbn [snd]. exact Hd.
  - unfold LttBlockIterator.incr, LttBlockIterator.plus,
      LttBlockIterator.add_assign.
    cbn [LttBlockIterator.m_tupleAddress LttBlockIterator.m_tupleLength].
    rewrite Z.mul_1_l, ptrdiff_small; [reflexivity|].
    unfold Word.PTRDIFF_MIN, Word.PTRDIFF_MAX. lia.
  - unfold LttBlockIterator.decr, LttBlockIterator.minus,
      LttBlockIterator.sub_assign.
    cbn [LttBlockIterator.m_tupleAddress LttBlockIterator.m_tupleLength].
    rewrite Z.mul_1_l, ptrdiff_small; [reflexivity|].
    unfold Word.PTRDIFF_MIN, Word.PTRDIFF_MAX. lia.
Qed.

Lemma increment_decrement_round_trip_witness :
  LttBlockIterator.decr
    (LttBlockIterator.incr (LttBlockIterator.of_length 65 4096))
  = LttBlockIterator.of_length 65 4096 /\
  LttBlockIterator.incr (LttBlockIterator.of_length 65 4096)
  = LttBlockIterator.plus (LttBlockIterator.of_length 65 4096) 1.
Proof.
  destruct (increment_decrement_round_trip (LttBlockIterator.of_length 65 4096))
    as (H1 & _ & _ & _ & _ & H2 & _).
  - unfold Word.is_ptr. cbn. lia.
  - cbn. lia.
  - split; assumption.
Defined.

(** X2: the comparison operators look at the address only and order the
    iterators totally: [>], [<=], [>=], [!=] are what [<] and [==] make
    them, exactly one of [a < b], [a == b], [a > b] holds, [<] is
    transitive, and two iterators at one address are equal whatever their
    tuple lengths. *)
Theorem relational_operators_total_order :
  forall a b c,
    LttBlockIterator.gtb a b = LttBlockIterator.ltb b a /\
    LttBlockIterator.leb a b = negb (LttBlockIterator.ltb b a) /\
    LttBlockIterator.geb a b = negb (LttBlockIterator.ltb a b) /\
    LttBlockIterator.neqb a b = negb (LttBlockIterator.eqb a b) /\
    LttBlockIterator.eqb a b
    = LttBlockIterator.leb a b && LttBlockIterator.geb a b /\
    ((LttBlockIterator.ltb a b = true /\ LttBlockIterator.eqb a b = false
      /\ LttBlockIterator.gtb a b = false) \/
     (LttBlockIterator.ltb a b = false /\ LttBlockIterator.eqb a b = true
      /\ LttBlockIterator.gtb a b = false) \/
     (LttBlockIterator.ltb a b = false /\ LttBlockIterator.eqb a b = false
      /\ LttBlockIterator.gtb a b = true)) /\
    (LttBlockIterator.ltb a b = true -> LttBlockIterator.ltb b c = true ->
     LttBlockIterator.ltb a c = true) /\
    (LttBlockIterator.eqb a b = true <->
     LttBlockIterator.m_tupleAddress a = LttBlockIterator.m_tupleAddress b).
Proof.
  intros [la x] [lb y] [lc z].
  unfold LttBlockIterator.gtb, LttBlockIterator.ltb, LttBlockIterator.leb,
    LttBlockIterator.geb, LttBlockIterator.eqb, LttBlockIterator.neqb.
  cbn [LttBlockIterator.m_tupleAddress].
  rewrite Z.gtb_ltb, Z.geb_leb.
  destruct (Z.ltb_spec x y), (Z.ltb_spec y x), (Z.eqb_spec x y),
    (Z.leb_spec x y), (Z.leb_spec y x), (Z.ltb_spec y z), (Z.ltb_spec x z);
    cbn; repeat split; try tauto; try lia; try congruence;
    try (left; repeat split; congruence);
    try (right; left; repeat split; congruence);
    try (right; right; repeat split; congruence).
Qed.

Lemma relational_operators_total_order_witness :
  LttBlockIterator.ltb (LttBlockIterator.of_length 65 4096)
                       (LttBlockIterator.of_length 65 4226) = true /\
  LttBlockIterator.eqb (LttBlockIterator.of_length 65 4096)
                       (LttBlockIterator.of_length 9 4096) = true.
Proof.
  split.
  - destruct (relational_operators_total_order
                (LttBlockIterator.of_length 65 4096)
                (LttBlockIterator.of_length 65 4161)
                (LttBlockIterator.of_length 65 4226))
      as (_ & _ & _ & _ & _ & _ & Htr & _).
    apply Htr; reflexivity.
  - apply (relational_operators_total_order
             (LttBlockIterator.of_length 65 4096)
             (LttBlockIterator.of_length 9 4096)
             (LttBlockIterator.of_length 9 4096)).
    reflexivity.
Defined.

Lemma plus_over_block len base i n :
  0 < len -> LttBlockIterator.buffer_at base ->
  0 <= i -> i * len <= BLOCK_SIZE_IN_BYTES ->
  0 <= i + n -> (i + n) * len <= BLOCK_SIZE_IN_BYTES ->
  LttBlockIterator.plus (LttBlockIterator.at_index len base i) n
  = LttBlockIterator.at_index len base (i + n).
Proof.
  intros Hlen (Hb0 & Hb1) Hi Hib Hin Hinb.
  pose proof block_size_value as HB.
  unfold LttBlockIterator.plus, LttBlockIterator.add_assign,
    LttBlockIterator.at_index.
  cbn [LttBlockIterator.m_tupleLength LttBlockIterator.m_tupleAddress].
  f_equal.
  rewrite ptrdiff_small
    by (unfold Word.PTRDIFF_MIN, Word.PTRDIFF_MAX; nia).
  rewrite ptr_small by (unfold Word.is_ptr; nia). lia.
Qed.

(** X3: inside a block, moving an iterator by [n] tuples and taking the
    difference to where it was gives [n] back; [n + it] is [it + n]; and
    the difference of two iterators changes sign when they are exchanged. *)
Theorem distance_after_advance :
  forall len base i n,
    0 < len -> LttBlockIterator.buffer_at base ->
    0 <= i -> i * len <= BLOCK_SIZE_IN_BYTES ->
    0 <= i + n -> (i + n) * len <= BLOCK_SIZE_IN_BYTES ->
    let it := LttBlockIterator.at_index len base i in
    LttBlockIterator.diff (LttBlockIterator.plus it n) it = Some n /\
    LttBlockIterator.diff it (LttBlockIterator.plus it n) = Some (- n) /\
    LttBlockIterator.diff (plus_left n it) it = Some n /\
    LttBlockIterator.eqb (LttBlockIterator.minus (plus_left n it) n) it = true.
Proof.
  intros len base i n Hlen Hbase Hi Hib Hin Hinb it. subst it.
  unfold plus_left.
  rewrite (plus_over_block len base i n) by assumption.
  rewrite !(diff_over_block len base Hlen) by assumption.
  repeat split; try (f_equal; lia).
  rewrite <- (plus_over_block len base i n) by assumption.
  unfold LttBlockIterator.eqb, LttBlockIterator.minus, LttBlockIterator.plus,
    LttBlockIterator.sub_assign, LttBlockIterator.add_assign,
    LttBlockIterator.at_index.
  cbn [LttBlockIterator.m_tupleLength LttBlockIterator.m_tupleAddress].
  rewrite ptr_add_sub; [apply Z.eqb_refl|].
  pose proof block_size_value. destruct Hbase. unfold Word.is_ptr. nia.
Qed.

Lemma distance_after_advance_witness :
  LttBlockIterator.diff
    (LttBlockIterator.plus (LttBlockIterator.at_index 65 4096 3) (- 2))
    (LttBlockIterator.at_index 65 4096 3) = Some (- 2) /\
  LttBlockIterator.diff
    (LttBlockIterator.at_index 65 4096 3)
    (LttBlockIterator.plus (LttBlockIterator.at_index 65 4096 3) (- 2))
  = Some (- - 2).
Proof.
  destruct (distance_after_advance 65 4096 3 (- 2)) as (H1 & H2 & _);
    try (unfold LttBlockIterator.buffer_at, BLOCK_SIZE_IN_BYTES; lia).
  split; assumption.
Defined.

(** X4: the walk of a block, from [begin()] with [++] until the iterator
    equals [end()], stops after exactly [activeTupleCount()] tuples and
    meets [begin()[0]], [begin()[1]], ... in this order. *)
Theorem block_walk_visits_every_tuple :
  forall blk base fuel,
    block_invariant blk base ->
    (Z.to_nat (LargeTempTableBlock.activeTupleCount blk) <= fuel)%nat ->
    foreach_tuple fuel (LargeTempTableBlock.begin_ blk)
                       (LargeTempTableBlock.end_ blk)
    = map (fun k => block_at blk (Z.of_nat k))
          (seq 0 (Z.to_nat (LargeTempTableBlock.activeTupleCount blk))) /\
    Z.of_nat (length (foreach_tuple fuel (LargeTempTableBlock.begin_ blk)
                                         (LargeTempTableBlock.end_ blk)))
    = LargeTempTableBlock.activeTupleCount blk.
Proof.
  intros blk base fuel Hblk Hfuel.
  unfold LargeTempTableBlock.activeTupleCount in *.
  rewrite (foreach_block blk base Hblk fuel Hfuel).
  split.
  - apply map_ext_in. intros k Hk. apply in_seq in Hk.
    symmetry. apply (block_at_addr blk base _ Hblk). lia.
  - rewrite length_map, length_seq.
    destruct Hblk as (_ & _ & _ & Hc & _). lia.
Qed.

Lemma block_walk_visits_every_tuple_witness :
  foreach_tuple 7 (LargeTempTableBlock.begin_ Demo.block)
                  (LargeTempTableBlock.end_ Demo.block)
  = map (fun k => block_at Demo.block (Z.of_nat k)) (seq 0 5) /\
  Z.of_nat (length (foreach_tuple 7 (LargeTempTableBlock.begin_ Demo.block)
                                    (LargeTempTableBlock.end_ Demo.block)))
  = 5.
Proof.
  apply (block_walk_visits_every_tuple Demo.block Demo.base 7).
  - exact demo_block_invariant.
  - cbn. lia.
Defined.

(** X5: [pin()] and [unpin()] are inverse to each other: a successful
    [pin()] followed by [unpin()] gives back the block as it was, and so
    does a successful [unpin()] followed by [pin()]; a second [pin()], or a
    second [unpin()], fails its assertion. *)
Theorem pin_unpin_round_trip :
  forall b b',
    (LargeTempTableBlock.pin b = LargeTempTableBlock.Returned b' ->
     LargeTempTableBlock.unpin b' = LargeTempTableBlock.Returned b /\
     LargeTempTableBlock.pin b' = LargeTempTableBlock.AssertionFailed) /\
    (LargeTempTableBlock.unpin b = LargeTempTableBlock.Returned b' ->
     LargeTempTableBlock.pin b' = LargeTempTableBlock.Returned b /\
     LargeTempTableBlock.unpin b' = LargeTempTableBlock.AssertionFailed).
Proof.
  intros [id sch sto tip nip pinned stored cnt] b'.
  unfold LargeTempTableBlock.pin, LargeTempTableBlock.unpin,
    LargeTempTableBlock.set_isPinned.
  cbn [LargeTempTableBlock.m_isPinned LargeTempTableBlock.m_id
       LargeTempTableBlock.m_schema LargeTempTableBlock.m_storage
       LargeTempTableBlock.m_tupleInsertionPoint
       LargeTempTableBlock.m_nonInlinedInsertionPoint
       LargeTempTableBlock.m_isStored LargeTempTableBlock.m_activeTupleCount].
  destruct pinned; cbn [negb]; split; intros H; try discriminate H;
    injection H as <-; split; reflexivity.
Qed.

Lemma pin_unpin_round_trip_witness :
  LargeTempTableBlock.unpin Demo.block
  = LargeTempTableBlock.Returned
      (LargeTempTableBlock.set_isPinned Demo.block false) /\
  LargeTempTableBlock.pin (LargeTempTableBlock.set_isPinned Demo.block false)
  = LargeTempTableBlock.Returned Demo.block.
Proof.
  split; [reflexivity|].
  apply (pin_unpin_round_trip Demo.block
           (LargeTempTableBlock.set_isPinned Demo.block false)).
  reflexivity.
Defined.

(** X6: [clearForTest()] on a resident block leaves an empty block that
    satisfies the layout invariants: no tuple, [begin() == end()], an empty
    walk, the whole buffer free between the two insertion points; the
    identity, schema, storage and flags are kept, and clearing twice is
    clearing once. *)
Theorem clearForTest_empties_block :
  forall blk base fuel,
    LargeTempTableBlock.m_storage blk = Some base ->
    LttBlockIterator.buffer_at base ->
    0 < TableTuple_tupleLength (LargeTempTableBlock.m_schema blk)
    <= BLOCK_SIZE_IN_BYTES ->
    let c := LargeTempTableBlock.clearForTest blk in
    block_invariant c base /\
    LargeTempTableBlock.activeTupleCount c = 0 /\
    LttBlockIterator.eqb (LargeTempTableBlock.begin_ c)
                         (LargeTempTableBlock.end_ c) = true /\
    foreach_tuple fuel (LargeTempTableBlock.begin_ c)
                       (LargeTempTableBlock.end_ c) = [] /\
    LargeTempTableBlock.m_nonInlinedInsertionPoint c
    - LargeTempTableBlock.m_tupleInsertionPoint c = BLOCK_SIZE_IN_BYTES /\
    LargeTempTableBlock.clearForTest c = c /\
    LargeTempTableBlock.set_layout c (LargeTempTableBlock.m_storage blk)
      (LargeTempTableBlock.m_tupleInsertionPoint blk)
      (LargeTempTableBlock.m_nonInlinedInsertionPoint blk)
      (LargeTempTableBlock.m_isStored blk)
      (LargeTempTableBlock.m_activeTupleCount blk) = blk.
Proof.
  intros [id sch sto tip nip pinned stored cnt] base fuel Hs Hbase Hl c.
  cbn [LargeTempTableBlock.m_storage LargeTempTableBlock.m_schema] in Hs, Hl.
  subst sto. subst c.
  unfold LargeTempTableBlock.clearForTest, LargeTempTableBlock.address,
    LargeTempTableBlock.activeTupleCount, LargeTempTableBlock.set_layout,
    LargeTempTableBlock.begin_, LargeTempTableBlock.end_.
  cbn [LargeTempTableBlock.m_isPinned LargeTempTableBlock.m_id
       LargeTempTableBlock.m_schema LargeTempTableBlock.m_storage
       LargeTempTableBlock.m_tupleInsertionPoint
       LargeTempTableBlock.m_nonInlinedInsertionPoint
       LargeTempTableBlock.m_isStored LargeTempTableBlock.m_activeTupleCount].
  assert (Heq : LttBlockIterator.eqb (LttBlockIterator.of_schema sch base)
                                     (LttBlockIterator.of_schema sch base) = true)
    by (unfold LttBlockIterator.eqb; apply Z.eqb_refl).
  split; [|split; [|split; [|split; [|split; [|split]]]]];
    try reflexivity; try exact Heq.
  - unfold block_invariant.
    cbn [LargeTempTableBlock.m_isPinned LargeTempTableBlock.m_id
         LargeTempTableBlock.m_schema LargeTempTableBlock.m_storage
         LargeTempTableBlock.m_tupleInsertionPoint
         LargeTempTableBlock.m_nonInlinedInsertionPoint
         LargeTempTableBlock.m_isStored LargeTempTableBlock.m_activeTupleCount].
    pose proof block_size_value.
    split; [reflexivity|]. split; [exact Hbase|]. repeat split; lia.
  - destruct fuel; [reflexivity|]. cbn [foreach_tuple].
    unfold LttBlockIterator.neqb. rewrite Z.eqb_refl. reflexivity.
  - lia.
Qed.

Lemma clearForTest_empties_block_witness :
  block_invariant (LargeTempTableBlock.clearForTest Demo.block) Demo.base /\
  LargeTempTableBlock.activeTupleCount
    (LargeTempTableBlock.clearForTest Demo.block) = 0 /\
  foreach_tuple 3
    (LargeTempTableBlock.begin_ (LargeTempTableBlock.clearForTest Demo.block))
    (LargeTempTableBlock.end_ (LargeTempTableBlock.clearForTest Demo.block))
  = [].
Proof.
  assert (Hs : LargeTempTableBlock.m_storage Demo.block = Some Demo.base)
    by reflexivity.
  assert (Hb : LttBlockIterator.buffer_at Demo.base)
    by (unfold LttBlockIterator.buffer_at, Demo.base, BLOCK_SIZE_IN_BYTES; lia).
  assert (Hl : 0 < TableTuple_tupleLength
                     (LargeTempTableBlock.m_schema Demo.block)
               <= BLOCK_SIZE_IN_BYTES)
    by (unfold TableTuple_tupleLength, TUPLE_HEADER_SIZE, BLOCK_SIZE_IN_BYTES;
        cbn; lia).
  destruct (clearForTest_empties_block Demo.block Demo.base 3 Hs Hb Hl)
    as (H1 & H2 & _ & H3 & _).
  split; [exact H1 | split; [exact H2 | exact H3]].
Defined.

(** X7: [unusedTupleBoundary()] returns the tuple count as a 32-bit
    unsigned number; on a block that satisfies the layout invariants
    nothing is cut off, it is [activeTupleCount()]. *)
Theorem unusedTupleBoundary_is_tuple_count :
  forall blk base,
    block_invariant blk base ->
    unusedTupleBoundary blk = LargeTempTableBlock.activeTupleCount blk.
Proof.
  intros blk base (Hs & _ & Hl & Hc & Htip & Hle & Hnip).
  pose proof block_size_value as HB.
  unfold unusedTupleBoundary, LargeTempTableBlock.activeTupleCount.
  apply Z.mod_small. split; [exact Hc|]. nia.
Qed.

Lemma unusedTupleBoundary_is_tuple_count_witness :
  unusedTupleBoundary Demo.block = 5.
Proof.
  apply (unusedTupleBoundary_is_tuple_count Demo.block Demo.base).
  exact demo_block_invariant.
Defined.

(** ** Ranges of a block *)

Section BlockRanges.

Import LTTBlockSorter.

Variable this : LTTBlockSorter.t.
Variable blk : LargeTempTableBlock.t.
Variable base : Z.
Hypothesis Hblk : block_invariant blk base.
Hypothesis Hsorter : sorter_for this blk base.
Variable m : mem.
Variable lt : list byte -> list byte -> bool.

Local Abbreviation len :=
  (Z.to_nat (TableTuple_tupleLength (LargeTempTableBlock.m_schema blk))).
Local Abbreviation tmp := (tt_address (m_tempTuple this)).
Local Abbreviation count := (LargeTempTableBlock.m_activeTupleCount blk).
Local Abbreviation fixed := (non_inlined_region blk base).
Local Abbreviation adm := (fun t => In t (block_tuples blk m)).

Lemma range_region lo k :
  0 <= lo -> 0 <= k -> lo + k <= count ->
  region_ok len tmp (base + lo * Z.of_nat len) k.
Proof.
  intros Hlo Hk Hle.
  apply (region_ok_sub len tmp (block_len_pos blk base Hblk) base count);
    try assumption.
  apply (block_region this blk base Hblk Hsorter).
Qed.

Lemma range_iterator lo :
  0 <= lo <= count ->
  LttBlockIterator.plus (LargeTempTableBlock.begin_ blk) lo
  = LttBlockIterator.mk (Z.of_nat len) (base + lo * Z.of_nat len).
Proof.
  intros Hlo. rewrite (block_begin blk base Hblk).
  apply (it_plus len tmp (block_len_pos blk base Hblk) base count);
    [apply (block_region this blk base Hblk Hsorter)|exact Hlo].
Qed.

Lemma range_guard lo k :
  0 <= lo -> 0 <= k -> lo + k <= count ->
  block_comparator this blk base m lt ->
  sort_guard this len tmp lt m fixed adm (base + lo * Z.of_nat len) k (start m).
Proof.
  intros Hlo Hk Hle Hcmp.
  apply (guard_sub this len tmp (block_len_pos blk base Hblk) lt m fixed adm
           base count); try assumption.
  split; [exact Hcmp|]. split.
  - apply (block_fixed_apart this blk base Hblk Hsorter).
  - split; [reflexivity|]. rewrite (block_tuples_eq blk base Hblk).
    apply Forall_forall. auto.
Qed.

(** After a rearrangement of the range, the comparator computes [lt] on
    the tuples of the range. *)
Lemma range_compare lo k st' i j :
  0 <= lo -> 0 <= k -> lo + k <= count ->
  block_comparator this blk base m lt ->
  rearranged len tmp (base + lo * Z.of_nat len) k m (heap st') ->
  lo <= i < lo + k -> lo <= j < lo + k ->
  m_compare this (heap st') (toTableTuple (block_at blk i) (m_schema this))
                            (toTableTuple (block_at blk j) (m_schema this))
  = lt (tuple_at len (heap st') (block_at blk i))
       (tuple_at len (heap st') (block_at blk j)).
Proof.
  intros Hlo Hk Hle Hcmp Hr Hi Hj.
  rewrite !(block_at_address this blk base Hblk Hsorter) by lia.
  pose proof (guard_rearranged this len tmp lt m fixed adm _ _ (start m) st'
                Hr (range_guard lo k Hlo Hk Hle Hcmp)) as G.
  pose proof (compare_value this len tmp (block_len_pos blk base Hblk)
                lt m fixed adm _ _ st' (i - lo) (j - lo) G
                ltac:(lia) ltac:(lia)) as E.
  replace (base + lo * Z.of_nat len + (i - lo) * Z.of_nat len)
    with (base + i * Z.of_nat len) in E by lia.
  replace (base + lo * Z.of_nat len + (j - lo) * Z.of_nat len)
    with (base + j * Z.of_nat len) in E by lia.
  exact E.
Qed.

(** A rearrangement of a range leaves the other tuples of the block and the
    non-inlined region as they are. *)
Lemma range_frame lo k m' :
  0 <= lo -> 0 <= k -> lo + k <= count ->
  rearranged len tmp (base + lo * Z.of_nat len) k m m' ->
  (forall i, 0 <= i < count -> i < lo \/ lo + k <= i ->
     tuple_at len m' (block_at blk i) = tuple_at len m (block_at blk i)) /\
  (forall x, non_inlined_region blk base x -> m' x = m x).
Proof.
  intros Hlo Hk Hle Hr.
  pose proof (block_region this blk base Hblk Hsorter)
    as (Hn & Hb & Hend & Hsize & Htmp).
  pose proof (block_len_pos blk base Hblk) as Hlen.
  split.
  - intros i Hi Hout.
    rewrite !(block_at_address this blk base Hblk Hsorter) by lia.
    apply (rearranged_tuple_outside len tmp Hlen _ _ _ _ _ Hr);
      unfold disjoint_ranges in *; nia.
  - intros x Hx.
    destruct (block_fixed_apart this blk base Hblk Hsorter x Hx) as (Ha & Hb').
    apply Hr; [|exact Hb'].
    unfold in_range in *. nia.
Qed.

End BlockRanges.

(** X8: [swap] of two tuples that are apart from each other and from the
    scratch tuple leaves the first one in the scratch buffer; done twice it
    gives back every byte outside the scratch buffer; the order of its two
    arguments does not matter there; and on a tuple and itself it writes
    nothing. *)
Theorem swap_twice_restores :
  forall this len st t0 t1,
    (0 < len)%nat ->
    TableTuple_tupleLength (tt_schema (LTTBlockSorter.m_tempTuple this))
    = Z.of_nat len ->
    let tmp := tt_address (LTTBlockSorter.m_tempTuple this) in
    disjoint_ranges t0 (Z.of_nat len) t1 (Z.of_nat len) ->
    disjoint_ranges t0 (Z.of_nat len) tmp (Z.of_nat len) ->
    disjoint_ranges t1 (Z.of_nat len) tmp (Z.of_nat len) ->
    let st1 := LTTBlockSorter.swap this st t0 t1 in
    tuple_at len (LTTBlockSorter.heap st1) tmp
    = tuple_at len (LTTBlockSorter.heap st) t0 /\
    (forall x, ~ in_range tmp (Z.of_nat len) x ->
       LTTBlockSorter.heap (LTTBlockSorter.swap this st1 t0 t1) x
       = LTTBlockSorter.heap st x) /\
    (forall x, ~ in_range tmp (Z.of_nat len) x ->
       LTTBlockSorter.heap (LTTBlockSorter.swap this st t1 t0) x
       = LTTBlockSorter.heap st1 x) /\
    (forall t x, LTTBlockSorter.heap (LTTBlockSorter.swap this st t t) x
                 = LTTBlockSorter.heap st x).
Proof.
  intros this len st t0 t1 Hlen Hsl tmp H01 H0t H1t st1.
  assert (H10 : disjoint_ranges t1 (Z.of_nat len) t0 (Z.of_nat len))
    by (unfold disjoint_ranges in *; lia).
  pose proof (swap_heap this len tmp Hlen Hsl eq_refl) as Hsw.
  split; [|split; [|split]].
  - apply tuple_at_ext. intros x Hx. subst st1.
    unfold LTTBlockSorter.swap.
    destruct (Z.eqb_spec t0 t1) as [E|_];
      [unfold disjoint_ranges in *; lia|].
    cbn [negb LTTBlockSorter.heap]. rewrite Hsl. fold tmp.
    rewrite memcpy_out by (unfold disjoint_ranges, in_range in *; lia).
    rewrite memcpy_out by (unfold disjoint_ranges, in_range in *; lia).
    rewrite memcpy_in by exact Hx. reflexivity.
  - intros x Hxt.
    destruct (Hsw st1 t0 t1 H01 H0t H1t x) as (A0 & A1 & A2).
    destruct (Z_le_gt_dec t0 x) as [Ha|Ha];
      [destruct (Z_lt_le_dec x (t0 + Z.of_nat len)) as [Hb|Hb]|].
    + rewrite A0 by (unfold in_range; lia). subst st1.
      destruct (Hsw st t0 t1 H01 H0t H1t (t1 + (x - t0))) as (_ & B1 & _).
      rewrite B1 by (unfold in_range; lia). f_equal. lia.
    + destruct (Z_le_gt_dec t1 x) as [Hc|Hc];
        [destruct (Z_lt_le_dec x (t1 + Z.of_nat len)) as [Hd|Hd]|].
      * rewrite A1 by (unfold in_range; lia). subst st1.
        destruct (Hsw st t0 t1 H01 H0t H1t (t0 + (x - t1))) as (B0 & _ & _).
        rewrite B0 by (unfold in_range; lia). f_equal. lia.
      * rewrite A2 by (unfold in_range; lia || exact Hxt). subst st1.
        apply (Hsw st t0 t1 H01 H0t H1t x);
          (unfold in_range; lia) || exact Hxt.
      * rewrite A2 by (unfold in_range; lia || exact Hxt). subst st1.
        apply (Hsw st t0 t1 H01 H0t H1t x);
          (unfold in_range; lia) || exact Hxt.
    + destruct (Z_le_gt_dec t1 x) as [Hc|Hc];
        [destruct (Z_lt_le_dec x (t1 + Z.of_nat len)) as [Hd|Hd]|].
      * rewrite A1 by (unfold in_range; lia). subst st1.
        destruct (Hsw st t0 t1 H01 H0t H1t (t0 + (x - t1))) as (B0 & _ & _).
        rewrite B0 by (unfold in_range; lia). f_equal. lia.
      * rewrite A2 by (unfold in_range; lia || exact Hxt). subst st1.
        apply (Hsw st t0 t1 H01 H0t H1t x);
          (unfold in_range; lia) || exact Hxt.
      * rewrite A2 by (unfold in_range; lia || exact Hxt). subst st1.
        apply (Hsw st t0 t1 H01 H0t H1t x);
          (unfold in_range; lia) || exact Hxt.
  - intros x Hxt. subst st1.
    destruct (Hsw st t0 t1 H01 H0t H1t x) as (A0 & A1 & A2).
    destruct (Hsw st t1 t0 H10 H1t H0t x) as (B1 & B0 & B2).
    destruct (Z_le_gt_dec t0 x) as [Ha|Ha];
      [destruct (Z_lt_le_dec x (t0 + Z.of_nat len)) as [Hb|Hb]|].
    + rewrite A0, B0 by (unfold in_range; lia). reflexivity.
    + destruct (Z_le_gt_dec t1 x) as [Hc|Hc];
        [destruct (Z_lt_le_dec x (t1 + Z.of_nat len)) as [Hd|Hd]|].
      * rewrite A1, B1 by (unfold in_range; lia). reflexivity.
      * rewrite A2, B2 by (unfold in_range; lia || exact Hxt). reflexivity.
      * rewrite A2, B2 by (unfold in_range; lia || exact Hxt). reflexivity.
    + destruct (Z_le_gt_dec t1 x) as [Hc|Hc];
        [destruct (Z_lt_le_dec x (t1 + Z.of_nat len)) as [Hd|Hd]|].
      * rewrite A1, B1 by (unfold in_range; lia). reflexivity.
      * rewrite A2, B2 by (unfold in_range; lia || exact Hxt). reflexivity.
      * rewrite A2, B2 by (unfold in_range; lia || exact Hxt). reflexivity.
  - intros t x. rewrite swap_same. reflexivity.
Qed.

Lemma swap_twice_restores_witness :
  LTTBlockSorter.heap
    (LTTBlockSorter.swap Demo.sorter
       (LTTBlockSorter.swap Demo.sorter (LTTBlockSorter.start Demo.heap0)
          4096 4116) 4096 4116) 4100
  = Demo.heap0 4100.
Proof.
  pose proof (swap_twice_restores Demo.sorter 10
                (LTTBlockSorter.start Demo.heap0) 4096 4116
                ltac:(lia) eq_refl) as H.
  cbv zeta in H.
  assert (H01 : disjoint_ranges 4096 (Z.of_nat 10) 4116 (Z.of_nat 10))
    by (unfold disjoint_ranges; lia).
  assert (H0t : disjoint_ranges 4096 (Z.of_nat 10)
                  (tt_address (LTTBlockSorter.m_tempTuple Demo.sorter))
                  (Z.of_nat 10))
    by (unfold disjoint_ranges; cbn; lia).
  assert (H1t : disjoint_ranges 4116 (Z.of_nat 10)
                  (tt_address (LTTBlockSorter.m_tempTuple Demo.sorter))
                  (Z.of_nat 10))
    by (unfold disjoint_ranges; cbn; lia).
  destruct (H H01 H0t H1t) as (_ & H2 & _).
  apply (H2 4100). unfold in_range. cbn. lia.
Defined.

(** X9: the sorter works on any range of a block: sorting the tuples from
    [begin() + lo] to [begin() + hi] returns, permutes the tuples of that
    range, leaves every other tuple of the block and the non-inlined
    region byte for byte as they were, and under a comparator that is a
    strict weak ordering leaves the range in order. *)
Theorem sort_range_of_block :
  forall this blk base m lt fuel lo hi,
    block_invariant blk base ->
    sorter_for this blk base ->
    0 <= lo <= hi ->
    hi <= LargeTempTableBlock.activeTupleCount blk ->
    (Z.to_nat (hi - lo) < fuel)%nat ->
    let len := Z.to_nat (TableTuple_tupleLength (LargeTempTableBlock.m_schema blk)) in
    exists st',
      LTTBlockSorter.sort this fuel
        (LttBlockIterator.plus (LargeTempTableBlock.begin_ blk) lo)
        (LttBlockIterator.plus (LargeTempTableBlock.begin_ blk) hi)
        (LTTBlockSorter.start m) = Some st' /\
      Permutation
        (tuples len (LTTBlockSorter.heap st') (block_at blk lo) (Z.to_nat (hi - lo)))
        (tuples len m (block_at blk lo) (Z.to_nat (hi - lo))) /\
      (forall i, 0 <= i < LargeTempTableBlock.activeTupleCount blk ->
         i < lo \/ hi <= i ->
         tuple_at len (LTTBlockSorter.heap st') (block_at blk i)
         = tuple_at len m (block_at blk i)) /\
      (forall x, non_inlined_region blk base x ->
         LTTBlockSorter.heap st' x = m x) /\
      (block_comparator this blk base m lt ->
       forall i, lo <= i < hi - 1 ->
         LTTBlockSorter.m_compare this (LTTBlockSorter.heap st')
           (toTableTuple (block_at blk (i + 1)) (LTTBlockSorter.m_schema this))
           (toTableTuple (block_at blk i) (LTTBlockSorter.m_schema this))
         = false).
Proof.
  intros this blk base m lt fuel lo hi Hblk Hsorter Hlo Hhi Hfuel len.
  unfold LargeTempTableBlock.activeTupleCount in *.
  pose proof (block_len_pos blk base Hblk) as Hlen.
  pose proof (range_region this blk base Hblk Hsorter lo (hi - lo)
                ltac:(lia) ltac:(lia) ltac:(lia)) as Hreg.
  rewrite !(range_iterator this blk base Hblk Hsorter) by lia.
  fold len in Hlen, Hreg |- *.
  replace (base + hi * Z.of_nat len)
    with (base + lo * Z.of_nat len + (hi - lo) * Z.of_nat len) by lia.
  destruct (sort_spec this len _ Hlen
              (block_sorter_length this blk base Hblk Hsorter) eq_refl
              lt m (non_inlined_region blk base)
              (fun t => In t (block_tuples blk m))
              fuel _ _ (LTTBlockSorter.start m) Hreg Hfuel)
    as (st' & E & Hr & Hs).
  cbn [LTTBlockSorter.heap LTTBlockSorter.start] in Hr.
  exists st'. split; [exact E|].
  destruct (range_frame this blk base Hblk Hsorter m lo (hi - lo) _
              ltac:(lia) ltac:(lia) ltac:(lia) Hr) as (Hout & Hfix).
  rewrite (block_at_address this blk base Hblk Hsorter lo) by lia.
  fold len in Hout |- *.
  split; [apply Hr|]. split.
  - intros i Hi Ho. apply Hout; lia.
  - split; [exact Hfix|].
    intros Hcmp i Hi.
    rewrite (range_compare this blk base Hblk Hsorter m lt lo (hi - lo) st')
      by (assumption || lia).
    rewrite !(block_at_address this blk base Hblk Hsorter) by lia.
    fold len.
    pose proof (Hs (range_guard this blk base Hblk Hsorter m lt lo (hi - lo)
                      ltac:(lia) ltac:(lia) ltac:(lia) Hcmp) (i - lo)
                   ltac:(lia) ltac:(lia)) as Hk.
    replace (base + lo * Z.of_nat len + (i - lo + 1) * Z.of_nat len)
      with (base + (i + 1) * Z.of_nat len) in Hk by lia.
    replace (base + lo * Z.of_nat len + (i - lo) * Z.of_nat len)
      with (base + i * Z.of_nat len) in Hk by lia.
    exact Hk.
Qed.

Lemma sort_range_of_block_witness :
  exists st',
    LTTBlockSorter.sort Demo.sorter 4
      (LttBlockIterator.plus (LargeTempTableBlock.begin_ Demo.block) 1)
      (LttBlockIterator.plus (LargeTempTableBlock.begin_ Demo.block) 4)
      (LTTBlockSorter.start Demo.heap0) = Some st' /\
    Permutation
      (tuples 10 (LTTBlockSorter.heap st') (block_at Demo.block 1) 3)
      (tuples 10 Demo.heap0 (block_at Demo.block 1) 3) /\
    (forall i, 0 <= i < 5 -> i < 1 \/ 4 <= i ->
       tuple_at 10 (LTTBlockSorter.heap st') (block_at Demo.block i)
       = tuple_at 10 Demo.heap0 (block_at Demo.block i)).
Proof.
  destruct (sort_range_of_block Demo.sorter Demo.block Demo.base Demo.heap0
              Demo.lt 4 1 4 demo_block_invariant demo_sorter_for
              ltac:(lia) ltac:(cbn; lia) ltac:(cbn; lia))
    as (st' & E & Hp & Hout & _).
  exists st'. split; [exact E|]. split; [exact Hp|exact Hout].
Defined.

(** X10: [insertionSort<N>] with [N > 1] on the first [N] tuples of a
    block, for every [N] up to the tuple count (also the [N = 5] and
    [N = 6] that [sort] leaves commented out): it permutes these [N]
    tuples, leaves the other tuples and the non-inlined region as they
    were, and under a comparator that is a strict weak ordering leaves the
    [N] tuples in order. *)
Theorem insertionSort_sorts_first_tuples :
  forall this blk base m lt N,
    block_invariant blk base ->
    sorter_for this blk base ->
    (1 < N)%nat ->
    Z.of_nat N <= LargeTempTableBlock.activeTupleCount blk ->
    let len := Z.to_nat (TableTuple_tupleLength (LargeTempTableBlock.m_schema blk)) in
    let st' := LTTBlockSorter.insertionSort this N
                 (LargeTempTableBlock.begin_ blk) (LTTBlockSorter.start m) in
    Permutation (tuples len (LTTBlockSorter.heap st') base N)
                (tuples len m base N) /\
    (forall i, Z.of_nat N <= i < LargeTempTableBlock.activeTupleCount blk ->
       tuple_at len (LTTBlockSorter.heap st') (block_at blk i)
       = tuple_at len m (block_at blk i)) /\
    (forall x, non_inlined_region blk base x ->
       LTTBlockSorter.heap st' x = m x) /\
    (block_comparator this blk base m lt ->
     forall i, 0 <= i < Z.of_nat N - 1 ->
       LTTBlockSorter.m_compare this (LTTBlockSorter.heap st')
         (toTableTuple (block_at blk (i + 1)) (LTTBlockSorter.m_schema this))
         (toTableTuple (block_at blk i) (LTTBlockSorter.m_schema this))
       = false).
Proof.
  intros this blk base m lt N Hblk Hsorter HN1 HN len st'.
  unfold LargeTempTableBlock.activeTupleCount in *.
  pose proof (block_len_pos blk base Hblk) as Hlen.
  pose proof (range_region this blk base Hblk Hsorter 0 (Z.of_nat N)
                ltac:(lia) ltac:(lia) ltac:(lia)) as Hreg.
  assert (Hb0 : base + 0 * Z.of_nat len = base) by lia.
  pose proof (range_frame this blk base Hblk Hsorter m 0 (Z.of_nat N)) as Hfr.
  pose proof (range_guard this blk base Hblk Hsorter m lt 0 (Z.of_nat N)) as Hg.
  pose proof (range_compare this blk base Hblk Hsorter m lt 0 (Z.of_nat N) st')
    as Hcv.
  fold len in Hlen, Hreg, Hfr, Hg, Hcv.
  rewrite Hb0 in Hreg, Hfr, Hg, Hcv.
  destruct (insertionSort_spec this len _ Hlen
              (block_sorter_length this blk base Hblk Hsorter) eq_refl
              lt m (non_inlined_region blk base)
              (fun t => In t (block_tuples blk m))
              base (Z.of_nat N) Hreg N (LTTBlockSorter.start m) ltac:(lia))
    as (Hr & Hs).
  assert (Est : st' = LTTBlockSorter.insertionSort this N
                         (LttBlockIterator.mk (Z.of_nat len) base)
                         (LTTBlockSorter.start m))
    by (subst st'; rewrite (block_begin blk base Hblk); reflexivity).
  cbv zeta in Hr, Hs. rewrite <- Est in Hr, Hs.
  cbn [LTTBlockSorter.heap LTTBlockSorter.start] in Hr.
  destruct (Hfr _ ltac:(lia) ltac:(lia) ltac:(lia) Hr) as (Hout & Hfix).
  split; [|split; [|split]].
  - destruct Hr as (_ & Hp). rewrite Nat2Z.id in Hp. exact Hp.
  - intros i Hi. apply Hout; lia.
  - exact Hfix.
  - intros Hcmp i Hi.
    rewrite Hcv by (assumption || lia).
    rewrite !(block_at_address this blk base Hblk Hsorter) by lia.
    apply (Hs (Hg ltac:(lia) ltac:(lia) ltac:(lia) Hcmp)); lia.
Qed.

Lemma insertionSort_sorts_first_tuples_witness :
  Permutation
    (tuples 10
       (LTTBlockSorter.heap
          (LTTBlockSorter.insertionSort Demo.sorter 5
             (LargeTempTableBlock.begin_ Demo.block)
             (LTTBlockSorter.start Demo.heap0))) Demo.base 5)
    (tuples 10 Demo.heap0 Demo.base 5).
Proof.
  apply (insertionSort_sorts_first_tuples Demo.sorter Demo.block Demo.base
           Demo.heap0 Demo.lt 5 demo_block_invariant demo_sorter_for).
  - lia.
  - cbn. lia.
Defined.

(** X11: the partition step of [sort], run on a whole block with at least
    one tuple: it returns the iterator [begin() + i] of the pivot with
    [0 <= i < activeTupleCount()], permutes the block's tuples and leaves
    the non-inlined region as it was; under a comparator that is a strict
    weak ordering, the pivot is not less than any tuple before it and no
    tuple after it is less than the pivot. *)
Theorem partition_places_pivot :
  forall this blk base m lt,
    block_invariant blk base ->
    sorter_for this blk base ->
    1 <= LargeTempTableBlock.activeTupleCount blk ->
    exists st' i,
      LTTBlockSorter.partition this (LargeTempTableBlock.begin_ blk)
        (LargeTempTableBlock.end_ blk)
        (LargeTempTableBlock.activeTupleCount blk) (LTTBlockSorter.start m)
      = (st', LttBlockIterator.plus (LargeTempTableBlock.begin_ blk) i) /\
      0 <= i < LargeTempTableBlock.activeTupleCount blk /\
      Permutation (block_tuples blk (LTTBlockSorter.heap st'))
                  (block_tuples blk m) /\
      (forall x, non_inlined_region blk base x ->
         LTTBlockSorter.heap st' x = m x) /\
      (block_comparator this blk base m lt ->
       (forall k, 0 <= k < i ->
          LTTBlockSorter.m_compare this (LTTBlockSorter.heap st')
            (toTableTuple (block_at blk i) (LTTBlockSorter.m_schema this))
            (toTableTuple (block_at blk k) (LTTBlockSorter.m_schema this))
          = false) /\
       (forall k, i < k < LargeTempTableBlock.activeTupleCount blk ->
          LTTBlockSorter.m_compare this (LTTBlockSorter.heap st')
            (toTableTuple (block_at blk k) (LTTBlockSorter.m_schema this))
            (toTableTuple (block_at blk i) (LTTBlockSorter.m_schema this))
          = false)).
Proof.
  intros this blk base m lt Hblk Hsorter Hn.
  unfold LargeTempTableBlock.activeTupleCount in *.
  set (n := LargeTempTableBlock.m_activeTupleCount blk) in *.
  set (len := Z.to_nat (TableTuple_tupleLength (LargeTempTableBlock.m_schema blk))).
  pose proof (block_len_pos blk base Hblk) as Hlen.
  pose proof (block_region this blk base Hblk Hsorter) as Hreg.
  assert (Hb0 : base + 0 * Z.of_nat len = base) by lia.
  pose proof (range_frame this blk base Hblk Hsorter m 0 n) as Hfr.
  pose proof (range_guard this blk base Hblk Hsorter m lt 0 n) as Hg.
  pose proof (range_compare this blk base Hblk Hsorter m lt 0 n) as Hcv.
  fold len in Hfr, Hg, Hcv, Hreg, Hlen. rewrite Hb0 in Hfr, Hg, Hcv.
  destruct (partition_spec this len _ Hlen
              (block_sorter_length this blk base Hblk Hsorter) eq_refl
              lt m (non_inlined_region blk base)
              (fun t => In t (block_tuples blk m))
              base n (LTTBlockSorter.start m) Hreg Hn)
    as (st' & i & E & Hi & Hr & Hs).
  cbn [LTTBlockSorter.heap LTTBlockSorter.start] in Hr.
  exists st', i.
  rewrite (block_begin blk base Hblk), (block_end blk base Hblk).
  fold len. fold n. rewrite E.
  rewrite (it_plus len _ Hlen base n i Hreg) by lia.
  split; [reflexivity|]. split; [lia|].
  destruct (Hfr _ ltac:(lia) ltac:(lia) ltac:(lia) Hr) as (_ & Hfix).
  split; [|split; [exact Hfix|]].
  - rewrite !(block_tuples_eq blk base Hblk). apply Hr.
  - intros Hcmp.
    destruct (Hs (Hg ltac:(lia) ltac:(lia) ltac:(lia) Hcmp)) as (Hlo & Hhi).
    split; intros k Hk.
    + rewrite Hcv by (assumption || lia).
      rewrite !(block_at_address this blk base Hblk Hsorter) by (fold n; lia).
      apply Hlo. lia.
    + rewrite Hcv by (assumption || lia).
      rewrite !(block_at_address this blk base Hblk Hsorter) by (fold n; lia).
      apply Hhi. lia.
Qed.

Lemma partition_places_pivot_witness :
  exists st' i,
    LTTBlockSorter.partition Demo.sorter (LargeTempTableBlock.begin_ Demo.block)
      (LargeTempTableBlock.end_ Demo.block)
      (LargeTempTableBlock.activeTupleCount Demo.block)
      (LTTBlockSorter.start Demo.heap0)
    = (st', LttBlockIterator.plus (LargeTempTableBlock.begin_ Demo.block) i) /\
    0 <= i < LargeTempTableBlock.activeTupleCount Demo.block /\
    Permutation (block_tuples Demo.block (LTTBlockSorter.heap st'))
                (block_tuples Demo.block Demo.heap0).
Proof.
  destruct (partition_places_pivot Demo.sorter Demo.block Demo.base Demo.heap0
              Demo.lt demo_block_invariant demo_sorter_for ltac:(cbn; lia))
    as (st' & i & E & Hi & Hp & _).
  exists st', i. split; [exact E|]. split; [exact Hi|exact Hp].
Defined.

(** ** The depth of the recursion *)

Section StackDepth.

Import LTTBlockSorter.

Variable this : LTTBlockSorter.t.
Variable len : nat.
Variable tmp : Z.
Hypothesis len_pos : (0 < len)%nat.
Hypothesis sorter_length :
  TableTuple_tupleLength (tt_schema (m_tempTuple this)) = Z.of_nat len.
Hypothesis sorter_temp : tt_address (m_tempTuple this) = tmp.

Local Notation "'L'" := (Z.of_nat len).
Local Abbreviation begin_at b := (LttBlockIterator.mk L b).

(** The recursive call is made on the smaller side of the pivot, so a
    range of fewer than [5 * 2 ^ depth] tuples needs no more than [depth]
    nested calls. *)
Lemma sort_with_stack_spec :
  forall fuel depth b n st,
    region_ok len tmp b n -> (Z.to_nat n < fuel)%nat ->
    n < 5 * 2 ^ Z.of_nat depth ->
    sort_with_stack this fuel depth (begin_at b) (begin_at (b + n * L)) st
    = sort this fuel (begin_at b) (begin_at (b + n * L)) st.
Proof.
  induction fuel as [|fuel IH]; intros depth b n st Hreg Hfuel Hdepth; [lia|].
  cbn [sort sort_with_stack]. rewrite (it_diff len tmp len_pos b n Hreg).
  pose proof Hreg as (Hn & _).
  destruct (Z.eqb_spec n 0) as [->|H0]; [reflexivity|].
  destruct (Z.eqb_spec n 1) as [->|H1]; [reflexivity|].
  cbn [orb].
  destruct (Z.eqb_spec n 2) as [->|H2]; [reflexivity|].
  destruct (Z.eqb_spec n 3) as [->|H3]; [reflexivity|].
  destruct (Z.eqb_spec n 4) as [->|H4]; [reflexivity|].
  destruct (partition_spec this len tmp len_pos sorter_length sorter_temp
              (fun _ _ => false) (heap st) (fun _ => False) (fun _ => True)
              b n st Hreg ltac:(lia))
    as (st1 & i & Hpart & Hi & _).
  rewrite Hpart.
  assert (HregL : region_ok len tmp b i)
    by (apply (region_ok_prefix len tmp len_pos b n); (assumption || lia)).
  assert (HregR : region_ok len tmp (b + (i + 1) * L) (n - i - 1))
    by (apply (region_ok_sub len tmp len_pos b n); (assumption || lia)).
  assert (HregP : region_ok len tmp (b + i * L) (n - i))
    by (apply (region_ok_sub len tmp len_pos b n); (assumption || lia)).
  rewrite (it_diff len tmp len_pos b i HregL).
  rewrite (it_plus len tmp len_pos (b + i * L) (n - i) 1 HregP) by lia.
  replace (b + i * L + 1 * L) with (b + (i + 1) * L) by lia.
  replace (b + n * L) with (b + (i + 1) * L + (n - i - 1) * L) by lia.
  rewrite (it_diff len tmp len_pos _ _ HregR).
  destruct depth as [|depth']; [cbn in Hdepth; lia|].
  rewrite Nat2Z.inj_succ, Z.pow_succ_r in Hdepth by lia.
  assert (Hp : 0 < 2 ^ Z.of_nat depth') by (apply Z.pow_pos_nonneg; lia).
  destruct (Z.gtb_spec i (n - i - 1)) as [Hgt|Hle].
  - rewrite (IH depth' (b + (i + 1) * L) (n - i - 1) st1 HregR) by lia.
    destruct (sort this fuel _ _ st1) as [st2|]; [|reflexivity].
    apply (IH (S depth') b i st2 HregL); [lia|].
    rewrite Nat2Z.inj_succ, Z.pow_succ_r by lia. lia.
  - rewrite (IH depth' b i st1 HregL) by lia.
    destruct (sort this fuel _ _ st1) as [st2|]; [|reflexivity].
    apply (IH (S depth') (b + (i + 1) * L) (n - i - 1) st2 HregR); [lia|].
    rewrite Nat2Z.inj_succ, Z.pow_succ_r by lia. lia.
Qed.

End StackDepth.

(** X12: [sort] makes its recursive call on the smaller side of the pivot
    and loops on the larger one, so the recursion stays shallow: on a block
    of fewer than [5 * 2 ^ depth] tuples the run never has more than
    [depth] nested recursive calls, and since a block holds at most 8 MiB
    of tuples, 21 nested calls are enough for every block. *)
Theorem sort_recursion_depth :
  forall this blk base m fuel,
    block_invariant blk base ->
    sorter_for this blk base ->
    (Z.to_nat (LargeTempTableBlock.activeTupleCount blk) < fuel)%nat ->
    (exists st',
       LTTBlockSorter.sort this fuel (LargeTempTableBlock.begin_ blk)
         (LargeTempTableBlock.end_ blk) (LTTBlockSorter.start m) = Some st') /\
    (forall depth,
       LargeTempTableBlock.activeTupleCount blk < 5 * 2 ^ Z.of_nat depth ->
       sort_with_stack this fuel depth (LargeTempTableBlock.begin_ blk)
         (LargeTempTableBlock.end_ blk) (LTTBlockSorter.start m)
       = LTTBlockSorter.sort this fuel (LargeTempTableBlock.begin_ blk)
           (LargeTempTableBlock.end_ blk) (LTTBlockSorter.start m)) /\
    sort_with_stack this fuel 21 (LargeTempTableBlock.begin_ blk)
      (LargeTempTableBlock.end_ blk) (LTTBlockSorter.start m)
    = LTTBlockSorter.sort this fuel (LargeTempTableBlock.begin_ blk)
        (LargeTempTableBlock.end_ blk) (LTTBlockSorter.start m).
Proof.
  intros this blk base m fuel Hblk Hsorter Hfuel.
  unfold LargeTempTableBlock.activeTupleCount in *.
  pose proof (block_len_pos blk base Hblk) as Hlen.
  pose proof (block_sorter_length this blk base Hblk Hsorter) as Hsl.
  pose proof (block_region this blk base Hblk Hsorter) as Hreg.
  assert (Hall : forall depth,
            LargeTempTableBlock.m_activeTupleCount blk < 5 * 2 ^ Z.of_nat depth ->
            sort_with_stack this fuel depth (LargeTempTableBlock.begin_ blk)
              (LargeTempTableBlock.end_ blk) (LTTBlockSorter.start m)
            = LTTBlockSorter.sort this fuel (LargeTempTableBlock.begin_ blk)
                (LargeTempTableBlock.end_ blk) (LTTBlockSorter.start m)).
  { intros depth Hd.
    rewrite (block_begin blk base Hblk), (block_end blk base Hblk).
    apply (sort_with_stack_spec this _ _ Hlen Hsl eq_refl); assumption. }
  split; [|split; [exact Hall|]].
  - destruct (block_sort_run this blk base Hblk Hsorter m (fun _ _ => false)
                fuel Hfuel) as (st' & E & _).
    exists st'. exact E.
  - apply Hall.
    destruct Hreg as (Hn & _ & _ & Hsize & _).
    pose proof block_size_value as HB.
    change (5 * 2 ^ Z.of_nat 21) with 10485760. nia.
Qed.

Lemma sort_recursion_depth_witness :
  sort_with_stack Demo.sorter 6 1 (LargeTempTableBlock.begin_ Demo.block)
    (LargeTempTableBlock.end_ Demo.block) (LTTBlockSorter.start Demo.heap0)
  = LTTBlockSorter.sort Demo.sorter 6 (LargeTempTableBlock.begin_ Demo.block)
      (LargeTempTableBlock.end_ Demo.block) (LTTBlockSorter.start Demo.heap0).
Proof.
  destruct (sort_recursion_depth Demo.sorter Demo.block Demo.base Demo.heap0 6
              demo_block_invariant demo_sorter_for ltac:(cbn; lia))
    as (_ & H & _).
  apply (H 1%nat). cbn. lia.
Defined.

(** ** Calls of the comparator and of [swap] *)

Section CallCounts.

Import LTTBlockSorter.

Variable this : LTTBlockSorter.t.

Lemma spent_refl st k : spent st st k.
Proof. unfold spent. lia. Qed.

Lemma spent_trans st1 st2 st3 k1 k2 :
  spent st1 st2 k1 -> spent st2 st3 k2 -> spent st1 st3 (k1 + k2).
Proof. unfold spent. lia. Qed.

Lemma spent_more st st' k k' : (k <= k')%nat -> spent st st' k -> spent st st' k'.
Proof. unfold spent. lia. Qed.

Lemma spent_compare st a b : spent st (snd (compare this st a b)) 1.
Proof. unfold spent, compare. cbn. lia. Qed.

Lemma spent_compare_swap st a b x y :
  spent st (swap this (snd (compare this st a b)) x y) 1.
Proof.
  unfold spent.
  destruct (swap_counters this (snd (compare this st a b)) x y) as (-> & ->).
  unfold compare. cbn. lia.
Qed.

Lemma spent_insertionSort_while beginIt j :
  forall st, spent st (insertionSort_while this beginIt j st) j.
Proof.
  induction j as [|j IH]; intros st; [apply spent_refl|].
  cbn [insertionSort_while].
  pose proof (spent_compare st (LttBlockIterator.index beginIt (Z.of_nat (S j)))
                (LttBlockIterator.index beginIt (Z.of_nat (S j) - 1))) as Hc.
  pose proof (spent_compare_swap st
                (LttBlockIterator.index beginIt (Z.of_nat (S j)))
                (LttBlockIterator.index beginIt (Z.of_nat (S j) - 1))
                (LttBlockIterator.index beginIt (Z.of_nat (S j) - 1))
                (LttBlockIterator.index beginIt (Z.of_nat (S j)))) as Hs.
  destruct (compare this st _ _) as (c, st1). cbn [snd] in Hc, Hs.
  destruct c.
  - change (S j) with (1 + j)%nat.
    eapply spent_trans; [exact Hs|apply IH].
  - eapply spent_more; [|exact Hc]. lia.
Qed.

Lemma spent_insertionSort beginIt N :
  forall st, exists k,
    spent st (insertionSort this N beginIt st) k /\
    2 * Z.of_nat k <= Z.of_nat N * (Z.of_nat N - 1).
Proof.
  unfold insertionSort.
  induction N as [|N IH]; intros st.
  - exists 0%nat. split; [apply spent_refl|]. lia.
  - rewrite seq_S, fold_left_app. cbn [fold_left Nat.add].
    destruct (IH st) as (k & Hk & Hb).
    exists (k + N)%nat. split.
    + eapply spent_trans; [exact Hk|apply spent_insertionSort_while].
    + lia.
Qed.

Lemma spent_partition_steps beginIt pivot l :
  forall st i,
    spent st (fst (fold_left (partition_step this beginIt pivot) l (st, i)))
          (length l).
Proof.
  induction l as [|j l IH]; intros st i; [apply spent_refl|].
  cbn [fold_left length].
  unfold partition_step at 2.
  pose proof (spent_compare st
                (LttBlockIterator.deref (LttBlockIterator.plus beginIt j))
                (LttBlockIterator.deref pivot)) as Hc.
  pose proof (fun x y => spent_compare_swap st
                (LttBlockIterator.deref (LttBlockIterator.plus beginIt j))
                (LttBlockIterator.deref pivot) x y) as Hs.
  destruct (compare this st _ _) as (c, st1). cbn [snd] in Hc, Hs.
  change (S (length l)) with (1 + length l)%nat.
  destruct c.
  - eapply spent_trans; [apply Hs|apply IH].
  - eapply spent_trans; [exact Hc|apply IH].
Qed.

Lemma spent_partition beginIt endIt numElems st :
  spent st (fst (partition this beginIt endIt numElems st))
        (Z.to_nat (numElems - 1) + 1).
Proof.
  unfold partition, partition_loop.
  pose proof (spent_partition_steps beginIt (LttBlockIterator.minus endIt 1)
                (map Z.of_nat (seq 0 (Z.to_nat (numElems - 1)))) st (-1)) as Hl.
  rewrite length_map, length_seq in Hl.
  destruct (fold_left _ _ (st, -1)) as (st1, i). cbn [fst] in Hl.
  pose proof (spent_compare st1
                (LttBlockIterator.deref (LttBlockIterator.minus endIt 1))
                (LttBlockIterator.index beginIt (i + 1))) as Hc.
  pose proof (spent_compare_swap st1
                (LttBlockIterator.deref (LttBlockIterator.minus endIt 1))
                (LttBlockIterator.index beginIt (i + 1))
                (LttBlockIterator.deref (LttBlockIterator.minus endIt 1))
                (LttBlockIterator.index beginIt (i + 1))) as Hs.
  destruct (compare this st1 _ _) as (c, st2). cbn [snd] in Hc, Hs.
  cbn [fst].
  destruct c; (eapply spent_trans; [exact Hl|]); assumption.
Qed.

Variable len : nat.
Variable tmp : Z.
Hypothesis len_pos : (0 < len)%nat.
Hypothesis sorter_length :
  TableTuple_tupleLength (tt_schema (m_tempTuple this)) = Z.of_nat len.
Hypothesis sorter_temp : tt_address (m_tempTuple this) = tmp.

Local Notation "'L'" := (Z.of_nat len).
Local Abbreviation begin_at b := (LttBlockIterator.mk L b).

(** A run on [n] tuples calls the comparator at most [n (n + 1) / 2]
    times. *)
Lemma spent_sort :
  forall fuel b n st st',
    region_ok len tmp b n ->
    sort this fuel (begin_at b) (begin_at (b + n * L)) st = Some st' ->
    exists k, spent st st' k /\ 2 * Z.of_nat k <= n * (n + 1).
Proof.
  induction fuel as [|fuel IH]; intros b n st st' Hreg E; [discriminate E|].
  cbn [sort] in E. rewrite (it_diff len tmp len_pos b n Hreg) in E.
  pose proof Hreg as (Hn & _).
  destruct (Z.eqb_spec n 0) as [->|H0].
  { injection E as <-. exists 0%nat. split; [apply spent_refl|lia]. }
  destruct (Z.eqb_spec n 1) as [->|H1].
  { injection E as <-. exists 0%nat. split; [apply spent_refl|lia]. }
  cbn [orb] in E.
  destruct (Z.eqb_spec n 2) as [->|H2].
  { injection E as <-.
    destruct (spent_insertionSort (begin_at b) 2 st) as (k & Hk & Hb).
    exists k. split; [exact Hk|lia]. }
  destruct (Z.eqb_spec n 3) as [->|H3].
  { injection E as <-.
    destruct (spent_insertionSort (begin_at b) 3 st) as (k & Hk & Hb).
    exists k. split; [exact Hk|lia]. }
  destruct (Z.eqb_spec n 4) as [->|H4].
  { injection E as <-.
    destruct (spent_insertionSort (begin_at b) 4 st) as (k & Hk & Hb).
    exists k. split; [exact Hk|lia]. }
  pose proof (spent_partition (begin_at b) (begin_at (b + n * L)) n st) as Hp.
  destruct (partition_spec this len tmp len_pos sorter_length sorter_temp
              (fun _ _ => false) (heap st) (fun _ => False) (fun _ => True)
              b n st Hreg ltac:(lia))
    as (st1 & i & Hpart & Hi & _).
  rewrite Hpart in E, Hp. cbn [fst] in Hp.
  assert (HregL : region_ok len tmp b i)
    by (apply (region_ok_prefix len tmp len_pos b n); (assumption || lia)).
  assert (HregR : region_ok len tmp (b + (i + 1) * L) (n - i - 1))
    by (apply (region_ok_sub len tmp len_pos b n); (assumption || lia)).
  assert (HregP : region_ok len tmp (b + i * L) (n - i))
    by (apply (region_ok_sub len tmp len_pos b n); (assumption || lia)).
  rewrite (it_diff len tmp len_pos b i HregL) in E.
  rewrite (it_plus len tmp len_pos (b + i * L) (n - i) 1 HregP) in E by lia.
  replace (b + i * L + 1 * L) with (b + (i + 1) * L) in E by lia.
  replace (b + n * L) with (b + (i + 1) * L + (n - i - 1) * L) in E by lia.
  rewrite (it_diff len tmp len_pos _ _ HregR) in E.
  assert (Hsum : forall k1 k2 : nat,
            2 * Z.of_nat k1 <= i * (i + 1) ->
            2 * Z.of_nat k2 <= (n - i - 1) * (n - i - 1 + 1) ->
            2 * Z.of_nat (Z.to_nat (n - 1) + 1 + (k1 + k2)) <= n * (n + 1)).
  { intros k1 k2 Hk1 Hk2.
    assert (0 <= i * (n - 1 - i)) by nia. nia. }
  destruct (i >? n - i - 1).
  - destruct (sort this fuel (begin_at (b + (i + 1) * L)) _ st1)
      as [st2|] eqn:E2; [|discriminate E].
    destruct (IH _ _ _ _ HregR E2) as (k2 & Hk2 & Hb2).
    destruct (IH _ _ _ _ HregL E) as (k1 & Hk1 & Hb1).
    exists (Z.to_nat (n - 1) + 1 + (k2 + k1))%nat. split.
    + eapply spent_trans; [exact Hp|].
      eapply spent_trans; eassumption.
    + rewrite (Nat.add_comm k2 k1). apply Hsum; assumption.
  - destruct (sort this fuel (begin_at b) _ st1)
      as [st2|] eqn:E2; [|discriminate E].
    destruct (IH _ _ _ _ HregL E2) as (k1 & Hk1 & Hb1).
    destruct (IH _ _ _ _ HregR E) as (k2 & Hk2 & Hb2).
    exists (Z.to_nat (n - 1) + 1 + (k1 + k2))%nat. split.
    + eapply spent_trans; [exact Hp|].
      eapply spent_trans; eassumption.
    + apply Hsum; assumption.
Qed.

End CallCounts.

(** X13: the sort of a block of [n] tuples returns after at most
    [n (n + 1) / 2] calls of the comparator, and calls [swap] no more often
    than the comparator, whatever the comparator answers. *)
Theorem sort_call_counts :
  forall this blk base m fuel,
    block_invariant blk base ->
    sorter_for this blk base ->
    (Z.to_nat (LargeTempTableBlock.activeTupleCount blk) < fuel)%nat ->
    exists st',
      LTTBlockSorter.sort this fuel (LargeTempTableBlock.begin_ blk)
        (LargeTempTableBlock.end_ blk) (LTTBlockSorter.start m) = Some st' /\
      2 * Z.of_nat (LTTBlockSorter.compare_calls st')
      <= LargeTempTableBlock.activeTupleCount blk
         * (LargeTempTableBlock.activeTupleCount blk + 1) /\
      (LTTBlockSorter.swap_calls st' <= LTTBlockSorter.compare_calls st')%nat.
Proof.
  intros this blk base m fuel Hblk Hsorter Hfuel.
  unfold LargeTempTableBlock.activeTupleCount in *.
  destruct (block_sort_run this blk base Hblk Hsorter m (fun _ _ => false)
              fuel Hfuel) as (st' & E & _).
  exists st'. split; [exact E|].
  rewrite (block_begin blk base Hblk), (block_end blk base Hblk) in E.
  destruct (spent_sort this _ _ (block_len_pos blk base Hblk)
              (block_sorter_length this blk base Hblk Hsorter) eq_refl
              fuel _ _ _ _ (block_region this blk base Hblk Hsorter) E)
    as (k & (Hc & Hs & Hsc) & Hb).
  cbn [LTTBlockSorter.start LTTBlockSorter.compare_calls
       LTTBlockSorter.swap_calls] in Hc, Hs, Hsc.
  split; lia.
Qed.

Lemma sort_call_counts_witness :
  exists st',
    LTTBlockSorter.sort Demo.sorter 6 (LargeTempTableBlock.begin_ Demo.block)
      (LargeTempTableBlock.end_ Demo.block) (LTTBlockSorter.start Demo.heap0)
    = Some st' /\
    2 * Z.of_nat (LTTBlockSorter.compare_calls st')
    <= LargeTempTableBlock.activeTupleCount Demo.block
       * (LargeTempTableBlock.activeTupleCount Demo.block + 1) /\
    (LTTBlockSorter.swap_calls st' <= LTTBlockSorter.compare_calls st')%nat.
Proof.
  apply (sort_call_counts Demo.sorter Demo.block Demo.base Demo.heap0 6).
  - exact demo_block_invariant.
  - exact demo_sorter_for.
  - cbn. lia.
Defined.

(** ** A range that is in order already *)

Section SortedInput.

Import LTTBlockSorter.

Variable this : LTTBlockSorter.t.
Variable len : nat.
Variable tmp : Z.
Hypothesis len_pos : (0 < len)%nat.
Hypothesis sorter_length :
  TableTuple_tupleLength (tt_schema (m_tempTuple this)) = Z.of_nat len.
Hypothesis sorter_temp : tt_address (m_tempTuple this) = tmp.

Variable lt : list byte -> list byte -> bool.
Variable m0 : mem.
Variable fixed : Z -> Prop.
Variable adm : list byte -> Prop.

Local Notation "'L'" := (Z.of_nat len).
Local Abbreviation T b m k := (tuple_at len m (b + k * L)).
Local Abbreviation begin_at b := (LttBlockIterator.mk L b).
Local Abbreviation guard b n st := (sort_guard this len tmp lt m0 fixed adm b n st).

Lemma guard_same_heap b n st st' :
  heap st' = heap st -> guard b n st -> guard b n st'.
Proof. unfold sort_guard. intros ->. tauto. Qed.

Lemma sorted_tuples_sub m b n lo k :
  0 <= lo -> 0 <= k -> lo + k <= n ->
  sorted_tuples len lt m b n -> sorted_tuples len lt m (b + lo * L) k.
Proof.
  intros Hlo Hk Hle Hs j Hj0 Hj1.
  replace (b + lo * L + (j + 1) * L) with (b + (lo + j + 1) * L) by lia.
  replace (b + lo * L + j * L) with (b + (lo + j) * L) by lia.
  apply Hs; lia.
Qed.

(** In a sorted range no tuple is less than an earlier one. *)
Lemma sorted_tuples_le m b n :
  StrictWeakOrder lt -> sorted_tuples len lt m b n ->
  forall (d : nat) i, 0 <= i -> i + Z.of_nat d < n ->
    lt (T b m (i + Z.of_nat d)) (T b m i) = false.
Proof.
  intros Hswo Hs. induction d as [|d IH]; intros i Hi Hd.
  - replace (i + Z.of_nat 0) with i by lia. apply (swo_irrefl lt Hswo).
  - apply (swo_negtrans lt Hswo _ (T b m (i + Z.of_nat d))).
    + replace (i + Z.of_nat (S d)) with (i + Z.of_nat d + 1) by lia.
      apply Hs; lia.
    + apply IH; lia.
Qed.

Lemma insertionSort_while_sorted b n :
  region_ok len tmp b n ->
  forall j st, Z.of_nat j < n -> guard b n st ->
    (0 < Z.of_nat j ->
     lt (T b (heap st) (Z.of_nat j)) (T b (heap st) (Z.of_nat j - 1)) = false) ->
    heap (insertionSort_while this (begin_at b) j st) = heap st.
Proof.
  intros Hreg [|j] st Hj G Hlt; [reflexivity|].
  cbn [insertionSort_while].
  rewrite !(it_index len tmp len_pos b n) by (assumption || lia).
  unfold compare.
  rewrite (compare_value this len tmp len_pos lt m0 fixed adm b n st) by
    (assumption || lia).
  rewrite Hlt by lia. reflexivity.
Qed.

Lemma insertionSort_sorted b n :
  region_ok len tmp b n ->
  forall (N : nat) st, Z.of_nat N <= n -> guard b n st ->
    sorted_tuples len lt (heap st) b (Z.of_nat N) ->
    heap (insertionSort this N (begin_at b) st) = heap st.
Proof.
  intros Hreg. unfold insertionSort.
  induction N as [|N IH]; intros st HN G Hs; [reflexivity|].
  rewrite seq_S, fold_left_app. cbn [fold_left Nat.add].
  assert (E : heap (fold_left (fun st i => insertionSort_while this (begin_at b) i st)
                      (seq 0 N) st) = heap st).
  { apply IH; [lia|exact G|]. intros k Hk0 Hk1. apply Hs; lia. }
  rewrite <- E.
  apply (insertionSort_while_sorted b n Hreg); [lia| |].
  - apply (guard_same_heap b n st); assumption.
  - intros HN0. rewrite E.
    replace (Z.of_nat N) with (Z.of_nat N - 1 + 1) at 1 by lia.
    apply Hs; lia.
Qed.

Lemma partition_loop_sorted b n st :
  region_ok len tmp b n -> 1 <= n -> guard b n st ->
  sorted_tuples len lt (heap st) b n ->
  forall c : nat, Z.of_nat c <= n - 1 ->
    let r := fold_left
               (partition_step this (begin_at b) (begin_at (b + (n - 1) * L)))
               (map Z.of_nat (seq 0 c)) (st, -1) in
    heap (fst r) = heap st /\
    -1 <= snd r < Z.of_nat c /\
    (snd r = Z.of_nat c - 1 \/
     lt (T b (heap st) (snd r + 1)) (T b (heap st) (n - 1)) = false).
Proof.
  intros Hreg Hn G Hs.
  pose proof G as ((_ & Hswo) & _).
  induction c as [|c IH]; intros Hc.
  - cbn. split; [reflexivity|]. split; [lia|]. left. reflexivity.
  - rewrite seq_S, map_app, fold_left_app. cbn [fold_left map Nat.add].
    destruct (IH ltac:(lia)) as (Hh & Hi & Hinv). cbv zeta in Hh, Hi, Hinv.
    destruct (fold_left _ (map Z.of_nat (seq 0 c)) (st, -1)) as (stc, i).
    cbn [fst snd] in *.
    unfold partition_step.
    rewrite (it_plus len tmp len_pos b n) by (assumption || lia).
    rewrite (it_index len tmp len_pos b n) by (assumption || lia).
    unfold compare, LttBlockIterator.deref.
    cbn [LttBlockIterator.m_tupleAddress].
    rewrite (compare_value this len tmp len_pos lt m0 fixed adm b n stc)
      by (try lia; apply (guard_same_heap b n st); assumption).
    rewrite Hh.
    destruct (lt (T b (heap st) (Z.of_nat c)) (T b (heap st) (n - 1))) eqn:Elt;
      cbn [fst snd].
    + assert (Ei : i = Z.of_nat c - 1).
      { destruct Hinv as [Hinv|Hinv]; [exact Hinv|].
        assert (Hci : lt (T b (heap st) (Z.of_nat c)) (T b (heap st) (i + 1)) = false).
        { pose proof (sorted_tuples_le (heap st) b n Hswo Hs
                        (Z.to_nat (Z.of_nat c - i - 1)) (i + 1)
                        ltac:(lia) ltac:(lia)) as Hp.
          replace (i + 1 + Z.of_nat (Z.to_nat (Z.of_nat c - i - 1)))
            with (Z.of_nat c) in Hp by lia.
          exact Hp. }
        rewrite (swo_negtrans lt Hswo _ _ _ Hci Hinv) in Elt. discriminate Elt. }
      replace (i + 1) with (Z.of_nat c) by lia.
      rewrite swap_same. cbn [heap].
      split; [reflexivity|]. split; [lia|]. left. lia.
    + cbn [heap]. split; [reflexivity|]. split; [lia|]. right.
      destruct Hinv as [Hinv|Hinv]; [|exact Hinv].
      replace (i + 1) with (Z.of_nat c) by lia. exact Elt.
Qed.

Lemma partition_sorted b n st :
  region_ok len tmp b n -> 1 <= n -> guard b n st ->
  sorted_tuples len lt (heap st) b n ->
  exists st' i,
    partition this (begin_at b) (begin_at (b + n * L)) n st
    = (st', begin_at (b + i * L)) /\
    0 <= i <= n - 1 /\ heap st' = heap st.
Proof.
  intros Hreg Hn G Hs.
  pose proof G as ((_ & Hswo) & _).
  unfold partition.
  rewrite (it_minus_1 len tmp len_pos b n) by assumption.
  unfold partition_loop.
  destruct (partition_loop_sorted b n st Hreg Hn G Hs (Z.to_nat (n - 1))
              ltac:(lia)) as (Hh & Hi & _).
  cbv zeta in Hh, Hi.
  destruct (fold_left _ (map Z.of_nat (seq 0 (Z.to_nat (n - 1)))) (st, -1))
    as (st1, i0).
  cbn [fst snd] in *. rewrite Z2Nat.id in * by lia.
  rewrite (it_plus len tmp len_pos b n) by (assumption || lia).
  rewrite (it_index len tmp len_pos b n) by (assumption || lia).
  unfold compare, LttBlockIterator.deref.
  cbn [LttBlockIterator.m_tupleAddress].
  rewrite (compare_value this len tmp len_pos lt m0 fixed adm b n st1)
    by (try lia; apply (guard_same_heap b n st); assumption).
  rewrite Hh.
  assert (Hp : lt (T b (heap st) (n - 1)) (T b (heap st) (i0 + 1)) = false).
  { pose proof (sorted_tuples_le (heap st) b n Hswo Hs
                  (Z.to_nat (n - 1 - i0 - 1)) (i0 + 1) ltac:(lia) ltac:(lia))
      as Hp.
    replace (i0 + 1 + Z.of_nat (Z.to_nat (n - 1 - i0 - 1))) with (n - 1)
      in Hp by lia.
    exact Hp. }
  rewrite Hp.
  eexists. exists (i0 + 1). split; [reflexivity|]. split; [lia|].
  reflexivity.
Qed.

(** The sorter run on a range that is in order writes nothing. *)
Lemma sort_sorted :
  forall fuel b n st,
    region_ok len tmp b n -> (Z.to_nat n < fuel)%nat ->
    guard b n st -> sorted_tuples len lt (heap st) b n ->
    exists st',
      sort this fuel (begin_at b) (begin_at (b + n * L)) st = Some st' /\
      heap st' = heap st.
Proof.
  induction fuel as [|fuel IH]; intros b n st Hreg Hfuel G Hs; [lia|].
  cbn [sort]. rewrite (it_diff len tmp len_pos b n Hreg).
  pose proof Hreg as (Hn & _).
  destruct (Z.eqb_spec n 0) as [->|H0]; [exists st; split; reflexivity|].
  destruct (Z.eqb_spec n 1) as [->|H1]; [exists st; split; reflexivity|].
  cbn [orb].
  destruct (Z.eqb_spec n 2) as [->|H2].
  { eexists. split; [reflexivity|].
    apply (insertionSort_sorted b 2 Hreg 2%nat st); (assumption || lia). }
  destruct (Z.eqb_spec n 3) as [->|H3].
  { eexists. split; [reflexivity|].
    apply (insertionSort_sorted b 3 Hreg 3%nat st); (assumption || lia). }
  destruct (Z.eqb_spec n 4) as [->|H4].
  { eexists. split; [reflexivity|].
    apply (insertionSort_sorted b 4 Hreg 4%nat st); (assumption || lia). }
  destruct (partition_sorted b n st Hreg ltac:(lia) G Hs)
    as (st1 & i & Hpart & Hi & Hh1).
  rewrite Hpart.
  assert (HregL : region_ok len tmp b i)
    by (apply (region_ok_prefix len tmp len_pos b n); (assumption || lia)).
  assert (HregR : region_ok len tmp (b + (i + 1) * L) (n - i - 1))
    by (apply (region_ok_sub len tmp len_pos b n); (assumption || lia)).
  assert (HregP : region_ok len tmp (b + i * L) (n - i))
    by (apply (region_ok_sub len tmp len_pos b n); (assumption || lia)).
  rewrite (it_diff len tmp len_pos b i HregL).
  rewrite (it_plus len tmp len_pos (b + i * L) (n - i) 1 HregP) by lia.
  replace (b + i * L + 1 * L) with (b + (i + 1) * L) by lia.
  replace (b + n * L) with (b + (i + 1) * L + (n - i - 1) * L) by lia.
  rewrite (it_diff len tmp len_pos _ _ HregR).
  assert (Hb0 : b + 0 * L = b) by lia.
  assert (HL : forall st2, heap st2 = heap st ->
            guard b i st2 /\ sorted_tuples len lt (heap st2) b i).
  { intros st2 E. rewrite E. split.
    - apply (guard_same_heap b i st); [exact E|].
      rewrite <- Hb0.
      apply (guard_sub this len tmp len_pos lt m0 fixed adm b n 0 i);
        (assumption || lia).
    - rewrite <- Hb0. apply (sorted_tuples_sub _ b n); (assumption || lia). }
  assert (HR : forall st2, heap st2 = heap st ->
            guard (b + (i + 1) * L) (n - i - 1) st2 /\
            sorted_tuples len lt (heap st2) (b + (i + 1) * L) (n - i - 1)).
  { intros st2 E. rewrite E. split.
    - apply (guard_same_heap _ _ st); [exact E|].
      apply (guard_sub this len tmp len_pos lt m0 fixed adm b n);
        (assumption || lia).
    - apply (sorted_tuples_sub _ b n); (assumption || lia). }
  destruct (i >? n - i - 1).
  - destruct (HR st1 Hh1) as (G1 & S1).
    destruct (IH _ _ st1 HregR ltac:(lia) G1 S1) as (st2 & E2 & Hh2).
    rewrite E2. rewrite Hh1 in Hh2.
    destruct (HL st2 Hh2) as (G2 & S2).
    destruct (IH _ _ st2 HregL ltac:(lia) G2 S2) as (st3 & E3 & Hh3).
    exists st3. split; [exact E3|]. congruence.
  - destruct (HL st1 Hh1) as (G1 & S1).
    destruct (IH _ _ st1 HregL ltac:(lia) G1 S1) as (st2 & E2 & Hh2).
    rewrite E2. rewrite Hh1 in Hh2.
    destruct (HR st2 Hh2) as (G2 & S2).
    destruct (IH _ _ st2 HregR ltac:(lia) G2 S2) as (st3 & E3 & Hh3).
    exists st3. split; [exact E3|]. congruence.
Qed.

End SortedInput.

(** X14: when the tuples of a block are in order already for a comparator
    that is a strict weak ordering, the sort returns with every byte of
    the heap as it was: each [swap] it makes is that of a tuple with
    itself. *)
Theorem sort_of_sorted_block_writes_nothing :
  forall this blk base m lt fuel,
    block_invariant blk base ->
    sorter_for this blk base ->
    block_comparator this blk base m lt ->
    (Z.to_nat (LargeTempTableBlock.activeTupleCount blk) < fuel)%nat ->
    (forall i, 0 <= i < LargeTempTableBlock.activeTupleCount blk - 1 ->
       LTTBlockSorter.m_compare this m
         (toTableTuple (block_at blk (i + 1)) (LTTBlockSorter.m_schema this))
         (toTableTuple (block_at blk i) (LTTBlockSorter.m_schema this))
       = false) ->
    exists st',
      LTTBlockSorter.sort this fuel (LargeTempTableBlock.begin_ blk)
        (LargeTempTableBlock.end_ blk) (LTTBlockSorter.start m) = Some st' /\
      forall x, LTTBlockSorter.heap st' x = m x.
Proof.
  intros this blk base m lt fuel Hblk Hsorter Hcmp Hfuel Hsorted.
  unfold LargeTempTableBlock.activeTupleCount in *.
  set (len := Z.to_nat (TableTuple_tupleLength (LargeTempTableBlock.m_schema blk))).
  pose proof (block_len_pos blk base Hblk) as Hlen.
  pose proof (block_region this blk base Hblk Hsorter) as Hreg.
  pose proof (range_guard this blk base Hblk Hsorter m lt 0 _
                ltac:(lia) (proj1 Hreg) ltac:(lia) Hcmp) as G.
  pose proof (range_compare this blk base Hblk Hsorter m lt 0
                (LargeTempTableBlock.m_activeTupleCount blk)
                (LTTBlockSorter.start m)) as Hcv.
  fold len in Hlen, Hreg, G, Hcv.
  replace (base + 0 * Z.of_nat len) with base in G, Hcv by lia.
  assert (Hs : sorted_tuples len lt m base
                 (LargeTempTableBlock.m_activeTupleCount blk)).
  { intros k Hk0 Hk1.
    rewrite <- !(block_at_address this blk base Hblk Hsorter) by lia.
    rewrite <- (Hsorted k) by lia.
    symmetry. apply Hcv; try (destruct Hreg; lia); try assumption.
    apply rearranged_refl. }
  rewrite (block_begin blk base Hblk), (block_end blk base Hblk). fold len.
  destruct (sort_sorted this len _ Hlen
              lt m (non_inlined_region blk base)
              (fun t => In t (block_tuples blk m))
              fuel _ _ (LTTBlockSorter.start m) Hreg Hfuel G Hs)
    as (st' & E & Hh).
  exists st'. split; [exact E|].
  intros x. rewrite Hh. reflexivity.
Qed.

Lemma sort_of_sorted_block_writes_nothing_witness :
  exists st',
    LTTBlockSorter.sort Demo.sorter 6 (LargeTempTableBlock.begin_ Demo.block)
      (LargeTempTableBlock.end_ Demo.block)
      (LTTBlockSorter.start (Demo.heap_of [1; 2; 2; 2; 3])) = Some st' /\
    forall x, LTTBlockSorter.heap st' x = Demo.heap_of [1; 2; 2; 2; 3] x.
Proof.
  apply (sort_of_sorted_block_writes_nothing Demo.sorter Demo.block Demo.base
           (Demo.heap_of [1; 2; 2; 2; 3])
           (Demo.lt_in (Demo.heap_of [1; 2; 2; 2; 3])) 6).
  - exact demo_block_invariant.
  - exact demo_sorter_for.
  - apply demo_comparator_of.
  - cbn. lia.
  - intros i Hi.
    assert (Hc : i = 0 \/ i = 1 \/ i = 2 \/ i = 3) by (cbn in Hi; lia).
    destruct Hc as [E|[E|[E|E]]]; rewrite E; vm_compute; reflexivity.
Defined.

(** X15: sorting a block twice is sorting it once: under a comparator
    that is a strict weak ordering, a second sort of the sorted block
    returns and leaves every byte as the first sort left it. *)
Theorem sort_twice_is_sort_once :
  forall this blk base m lt fuel,
    block_invariant blk base ->
    sorter_for this blk base ->
    block_comparator this blk base m lt ->
    (Z.to_nat (LargeTempTableBlock.activeTupleCount blk) < fuel)%nat ->
    exists st1 st2,
      LTTBlockSorter.sort this fuel (LargeTempTableBlock.begin_ blk)
        (LargeTempTableBlock.end_ blk) (LTTBlockSorter.start m) = Some st1 /\
      LTTBlockSorter.sort this fuel (LargeTempTableBlock.begin_ blk)
        (LargeTempTableBlock.end_ blk)
        (LTTBlockSorter.start (LTTBlockSorter.heap st1)) = Some st2 /\
      forall x, LTTBlockSorter.heap st2 x = LTTBlockSorter.heap st1 x.
Proof.
  intros this blk base m lt fuel Hblk Hsorter Hcmp Hfuel.
  unfold LargeTempTableBlock.activeTupleCount in *.
  set (len := Z.to_nat (TableTuple_tupleLength (LargeTempTableBlock.m_schema blk))).
  pose proof (block_len_pos blk base Hblk) as Hlen.
  pose proof (block_sorter_length this blk base Hblk Hsorter) as Hsl.
  pose proof (block_region this blk base Hblk Hsorter) as Hreg.
  pose proof (range_guard this blk base Hblk Hsorter m lt 0 _
                ltac:(lia) (proj1 Hreg) ltac:(lia) Hcmp) as G.
  fold len in Hlen, Hsl, Hreg, G.
  replace (base + 0 * Z.of_nat len) with base in G by lia.
  rewrite (block_begin blk base Hblk), (block_end blk base Hblk). fold len.
  destruct (sort_spec this len _ Hlen Hsl eq_refl
              lt m (non_inlined_region blk base)
              (fun t => In t (block_tuples blk m))
              fuel _ _ (LTTBlockSorter.start m) Hreg Hfuel)
    as (st1 & E1 & Hr & Hs).
  specialize (Hs G).
  assert (G1 : sort_guard this len (tt_address (LTTBlockSorter.m_tempTuple this))
                 lt m (non_inlined_region blk base)
                 (fun t => In t (block_tuples blk m)) base
                 (LargeTempTableBlock.m_activeTupleCount blk)
                 (LTTBlockSorter.start (LTTBlockSorter.heap st1)))
    by (apply (guard_rearranged this len _ lt m _ _ _ _
                 (LTTBlockSorter.start m)); assumption).
  destruct (sort_sorted this len _ Hlen
              lt m (non_inlined_region blk base)
              (fun t => In t (block_tuples blk m))
              fuel _ _ (LTTBlockSorter.start (LTTBlockSorter.heap st1))
              Hreg Hfuel G1 Hs)
    as (st2 & E2 & Hh).
  exists st1, st2. split; [exact E1|]. split; [exact E2|].
  intros x. rewrite Hh. reflexivity.
Qed.

Lemma sort_twice_is_sort_once_witness :
  exists st1 st2,
    LTTBlockSorter.sort Demo.sorter 6 (LargeTempTableBlock.begin_ Demo.block)
      (LargeTempTableBlock.end_ Demo.block) (LTTBlockSorter.start Demo.heap0)
    = Some st1 /\
    LTTBlockSorter.sort Demo.sorter 6 (LargeTempTableBlock.begin_ Demo.block)
      (LargeTempTableBlock.end_ Demo.block)
      (LTTBlockSorter.start (LTTBlockSorter.heap st1)) = Some st2 /\
    forall x, LTTBlockSorter.heap st2 x = LTTBlockSorter.heap st1 x.
Proof.
  apply (sort_twice_is_sort_once Demo.sorter Demo.block Demo.base Demo.heap0
           Demo.lt 6).
  - exact demo_block_invariant.
  - exact demo_sorter_for.
  - exact demo_comparator.
  - cbn. lia.
Defined.

(** ** The ordering of the runs of a merge *)

(** X16: the comparator of the priority queue of sort runs is the negation
    of the tuple comparator.  When the tuple comparator is a strict weak
    ordering on the tuple handles, the queue's comparator is reflexive,
    total and transitive, so it is not itself a strict weak ordering. *)
Theorem run_comparator_is_not_strict :
  forall (cmp : Compare) (m : mem),
    StrictWeakOrder (cmp m) ->
    (forall run, LttSortRunComparator cmp m run run = true) /\
    (forall run0 run1,
       LttSortRunComparator cmp m run0 run1 = true \/
       LttSortRunComparator cmp m run1 run0 = true) /\
    (forall run0 run1 run2,
       LttSortRunComparator cmp m run0 run1 = true ->
       LttSortRunComparator cmp m run1 run2 = true ->
       LttSortRunComparator cmp m run0 run2 = true) /\
    ~ StrictWeakOrder (LttSortRunComparator cmp m).
Proof.
  intros cmp m Hswo.
  unfold LttSortRunComparator.
  split; [|split; [|split]].
  - intros run. rewrite (swo_irrefl _ Hswo). reflexivity.
  - intros run0 run1.
    destruct (cmp m (currentTuple run0) (currentTuple run1)) eqn:E.
    + right. rewrite (swo_asym _ Hswo _ _ E). reflexivity.
    + left. reflexivity.
  - intros run0 run1 run2 H01 H12.
    apply negb_true_iff in H01, H12. apply negb_true_iff.
    apply (swo_negtrans _ Hswo _ (currentTuple run1)); assumption.
  - intros (Hirr & _).
    specialize (Hirr (mkLttSortRun (toTableTuple 0 (mkSchema 0 [])))).
    cbv zeta in Hirr. rewrite (swo_irrefl _ Hswo) in Hirr. discriminate Hirr.
Qed.

Lemma run_comparator_is_not_strict_witness :
  LttSortRunComparator Demo.first_field Demo.heap0
    (mkLttSortRun (toTableTuple 4096 Demo.schema))
    (mkLttSortRun (toTableTuple 4096 Demo.schema)) = true.
Proof.
  apply (run_comparator_is_not_strict Demo.first_field Demo.heap0).
  exact (swo_of_key
           (fun t => Z_of_byte (Demo.heap0 (load_ref Demo.heap0 (tt_address t + 1))))).
Defined.

(** ** A range given the wrong way round *)

Section ReversedRange.

Import LTTBlockSorter.

Variable this : LTTBlockSorter.t.
Variable len : nat.
Hypothesis len_pos : (0 < len)%nat.

Local Notation "'L'" := (Z.of_nat len).
Local Abbreviation begin_at b := (LttBlockIterator.mk L b).

Lemma it_diff_signed b n :
  - 2 ^ 63 < n * L < 2 ^ 63 ->
  LttBlockIterator.diff (begin_at (b + n * L)) (begin_at b) = Some n.
Proof.
  intros Hn. unfold LttBlockIterator.diff.
  cbn [LttBlockIterator.m_tupleLength LttBlockIterator.m_tupleAddress].
  replace (b + n * L - b) with (n * L) by lia.
  rewrite ptrdiff_small
    by (unfold Word.PTRDIFF_MIN, Word.PTRDIFF_MAX; lia).
  destruct (Z.eqb_spec L 0); [lia|].
  destruct (Z.eqb_spec L (-1)); [lia|].
  rewrite andb_false_r. f_equal. apply Z.quot_mul. lia.
Qed.

Lemma it_plus_signed b k :
  - 2 ^ 63 < k * L < 2 ^ 63 -> 0 <= b + k * L < 2 ^ 64 ->
  LttBlockIterator.plus (begin_at b) k = begin_at (b + k * L).
Proof.
  intros Hk Hb. unfold LttBlockIterator.plus, LttBlockIterator.add_assign.
  cbn [LttBlockIterator.m_tupleLength LttBlockIterator.m_tupleAddress].
  rewrite ptrdiff_small
    by (unfold Word.PTRDIFF_MIN, Word.PTRDIFF_MAX; lia).
  rewrite ptr_small by exact Hb. reflexivity.
Qed.

(** With the end of the range before its beginning, each turn finds a
    negative number of elements, runs no round of the partition loop and
    calls [sort] again, one tuple further. *)
Lemma sort_reversed :
  forall fuel b n st,
    n < 0 -> L <= b + n * L ->
    b + Z.of_nat fuel * L < 2 ^ 64 ->
    (Z.of_nat fuel - n) * L < 2 ^ 63 ->
    sort this fuel (begin_at b) (begin_at (b + n * L)) st = None.
Proof.
  induction fuel as [|fuel IH]; intros b n st Hn He Hb Hd; [reflexivity|].
  cbn [sort].
  rewrite (it_diff_signed b n) by nia.
  destruct (Z.eqb_spec n 0); [lia|]. destruct (Z.eqb_spec n 1); [lia|].
  destruct (Z.eqb_spec n 2); [lia|]. destruct (Z.eqb_spec n 3); [lia|].
  destruct (Z.eqb_spec n 4); [lia|]. cbn [orb].
  unfold partition, partition_loop.
  replace (Z.to_nat (n - 1)) with 0%nat by lia.
  cbn [seq map fold_left]. change (-1 + 1) with 0.
  unfold LttBlockIterator.index.
  rewrite (it_plus_signed b 0) by nia.
  replace (b + 0 * L) with b by lia.
  unfold compare. cbv zeta.
  set (st3 := if m_compare this _ _ _ then _ else _).
  replace (LttBlockIterator.diff (begin_at b) (begin_at b)) with (Some 0)
    by (symmetry; rewrite <- (it_diff_signed b 0) by lia;
        do 2 f_equal; lia).
  rewrite (it_plus_signed b 1) by nia.
  replace (b + 1 * L) with (b + L) by lia.
  replace (b + n * L) with (b + L + (n - 1) * L) by lia.
  rewrite (it_diff_signed (b + L) (n - 1)) by nia.
  destruct (Z.gtb_spec 0 (n - 1)); [|lia].
  rewrite (IH (b + L) (n - 1) st3) by nia.
  reflexivity.
Qed.

End ReversedRange.

(** X17: [sort] needs its range in order.  Called with the two iterators
    of a block that holds at least one tuple the wrong way round, as
    [sort(end(), begin())], it reaches no [return]: every turn of its loop
    makes one more nested call of [sort], for as many calls as the address
    space has room for tuples. *)
Theorem sort_of_reversed_range_does_not_return :
  forall this blk base m fuel,
    block_invariant blk base ->
    1 <= LargeTempTableBlock.activeTupleCount blk ->
    TableTuple_tupleLength (LargeTempTableBlock.m_schema blk) <= base ->
    base + (LargeTempTableBlock.activeTupleCount blk + Z.of_nat fuel)
           * TableTuple_tupleLength (LargeTempTableBlock.m_schema blk) < 2 ^ 64 ->
    (LargeTempTableBlock.activeTupleCount blk + Z.of_nat fuel)
    * TableTuple_tupleLength (LargeTempTableBlock.m_schema blk) < 2 ^ 63 ->
    LTTBlockSorter.sort this fuel (LargeTempTableBlock.end_ blk)
      (LargeTempTableBlock.begin_ blk) (LTTBlockSorter.start m) = None.
Proof.
  intros this blk base m fuel Hblk Hn Hbase Hspace Hdist.
  unfold LargeTempTableBlock.activeTupleCount in *.
  rewrite (block_begin blk base Hblk), (block_end blk base Hblk).
  rewrite <- (block_len blk base Hblk) in Hbase, Hspace, Hdist.
  set (len := Z.to_nat (TableTuple_tupleLength (LargeTempTableBlock.m_schema blk)))
    in *.
  set (n := LargeTempTableBlock.m_activeTupleCount blk) in *.
  pose proof (block_len_pos blk base Hblk) as Hlen. fold len in Hlen.
  replace (LttBlockIterator.mk (Z.of_nat len) base)
    with (LttBlockIterator.mk (Z.of_nat len)
            (base + n * Z.of_nat len + (- n) * Z.of_nat len))
    by (f_equal; lia).
  apply (sort_reversed this len Hlen); nia.
Qed.

Lemma sort_of_reversed_range_does_not_return_witness :
  LTTBlockSorter.sort Demo.sorter 1000 (LargeTempTableBlock.end_ Demo.block)
    (LargeTempTableBlock.begin_ Demo.block) (LTTBlockSorter.start Demo.heap0)
  = None.
Proof.
  apply (sort_of_reversed_range_does_not_return Demo.sorter Demo.block
           Demo.base Demo.heap0 1000 demo_block_invariant).
  - vm_compute. discriminate.
  - vm_compute. discriminate.
  - vm_compute. reflexivity.
  - vm_compute. reflexivity.
Defined.

(** X18: after the sort of a block under a comparator that is a strict
    weak ordering, the order holds between every two tuples, not only
    neighbours: no tuple is less than a tuple that stands before it; so
    the first tuple is a least one and the last a greatest one. *)
Theorem sort_orders_every_pair :
  forall this blk base m lt fuel,
    block_invariant blk base ->
    sorter_for this blk base ->
    block_comparator this blk base m lt ->
    (Z.to_nat (LargeTempTableBlock.activeTupleCount blk) < fuel)%nat ->
    exists st',
      LTTBlockSorter.sort this fuel (LargeTempTableBlock.begin_ blk)
        (LargeTempTableBlock.end_ blk) (LTTBlockSorter.start m) = Some st' /\
      forall i j, 0 <= i <= j ->
        j < LargeTempTableBlock.activeTupleCount blk ->
        LTTBlockSorter.m_compare this (LTTBlockSorter.heap st')
          (toTableTuple (block_at blk j) (LTTBlockSorter.m_schema this))
          (toTableTuple (block_at blk i) (LTTBlockSorter.m_schema this))
        = false.
Proof.
  intros this blk base m lt fuel Hblk Hsorter Hcmp Hfuel.
  unfold LargeTempTableBlock.activeTupleCount in *.
  destruct (block_sort_run this blk base Hblk Hsorter m lt fuel Hfuel)
    as (st' & E & Hr & Hs).
  exists st'. split; [exact E|].
  intros i j Hij Hj.
  destruct (Hs Hcmp) as (Hsorted & _).
  pose proof (range_compare this blk base Hblk Hsorter m lt 0
                (LargeTempTableBlock.m_activeTupleCount blk) st' j i) as Hcv.
  set (len := Z.to_nat (TableTuple_tupleLength (LargeTempTableBlock.m_schema blk)))
    in *.
  replace (base + 0 * Z.of_nat len) with base in Hcv by lia.
  rewrite Hcv by (assumption || lia).
  rewrite !(block_at_address this blk base Hblk Hsorter) by lia.
  fold len.
  pose proof (sorted_tuples_le len (block_len_pos blk base Hblk) lt _ _ _
                (proj2 Hcmp) Hsorted (Z.to_nat (j - i)) i
                ltac:(lia) ltac:(lia)) as Hle.
  replace (i + Z.of_nat (Z.to_nat (j - i))) with j in Hle by lia.
  exact Hle.
Qed.

Lemma sort_orders_every_pair_witness :
  exists st',
    LTTBlockSorter.sort Demo.sorter 6 (LargeTempTableBlock.begin_ Demo.block)
      (LargeTempTableBlock.end_ Demo.block) (LTTBlockSorter.start Demo.heap0)
    = Some st' /\
    LTTBlockSorter.m_compare Demo.sorter (LTTBlockSorter.heap st')
      (toTableTuple (block_at Demo.block 4) (LTTBlockSorter.m_schema Demo.sorter))
      (toTableTuple (block_at Demo.block 0) (LTTBlockSorter.m_schema Demo.sorter))
    = false.
Proof.
  destruct (sort_orders_every_pair Demo.sorter Demo.block Demo.base Demo.heap0
              Demo.lt 6 demo_block_invariant demo_sorter_for demo_comparator
              ltac:(cbn; lia)) as (st' & E & H).
  exists st'. split; [exact E|]. apply H; cbn; lia.
Defined.
